(** * VoidKernel: the task orchestrator of [backend/app/core/voidkernel.py]

    A shallow embedding of the [VoidKernel] class and of the objects it
    manipulates, followed by the properties of its dispatch, dependency,
    cancellation, eviction, memory-vault and command paths.

    Modelling conventions.
    - An [AITask] is a mutable Python object that the queue, the active map,
      the completed map and the executing worker all reference.  The objects
      live in one store ([tasks]), keyed by the task identifier; every other
      structure holds identifiers, so a write through one reference is seen
      through all of them.  [uuid.uuid4()] is taken to return an identifier
      that no earlier task carries ([op_enabled]).
    - Clock readings ([datetime.utcnow()], [time.time()]) and the behaviour of
      a processing module are inputs of the operation that consumes them.
      Times are integers; [time.time() - start_time] is the [elapsed] input.
    - [asyncio.PriorityQueue] is modelled by its contract: [get] retrieves the
      lowest entry first.  Entries are the tuples
      [(priority_value, timestamp, task)], compared on their first two
      components.  Two entries that agree on both make Python compare the
      task objects, which have no order, and [put] or [get] then raises
      [TypeError]: such ties are outside the model.
    - A coroutine runs atomically between two suspension points.  The only
      suspension inside [_process_task] is the [await] of the module call
      ([put] on the unbounded broadcast queue never suspends), so the
      processing of a task is split into [_process_task_begin] and
      [_process_task_resume].  The module call ends by returning, by raising
      an [Exception], or in a [BaseException] that the handlers of
      [_process_task] and of the worker loop do not catch
      ([asyncio.CancelledError] raised inside the call).
    - The worker loop suspends in [asyncio.wait_for(self.task_queue.get(), 1.0)].
      Up to Python 3.11 [wait_for] runs [get()] in a task of its own: the
      entry leaves the queue when that task runs and the worker is resumed
      later, so other coroutines run while the worker holds the entry
      ([_worker_take], [_worker_test]).  From Python 3.12 on the worker awaits
      [get()] itself and takes and tests the entry in one piece ([_worker]).
      Both are operations of the model.
    - [event_handlers] and the per-module message channels are never written
      by the class, so the broker has no handler to call; the performance
      monitor only reads.  Both loops are counted ([broker_loops],
      [monitor_loops]), and a turn of the broker drains the broadcast
      channel.
    - [shutdown] cancels the worker coroutines; [asyncio.CancelledError] is
      a [BaseException] (Python 3.8 and later), so a worker cancelled in a
      module call runs the [finally] block of [_process_task] and nothing
      else.  A worker cancelled in [wait_for] whose [get()] has completed
      keeps the entry and goes on, the cancellation being lost; a worker
      cancelled while idle ends, unless its [get()] completes first.
      [shutdown] is modelled up to the point where it waits for the workers:
      the surviving workers run on from there. *)

From stdpp Require Import gmap strings list sorting pretty.
From Stdlib Require Import ZArith.

Set Warnings "-register-all".

Local Open Scope string_scope.
Local Open Scope Z_scope.

(** ** Python values *)

(** The JSON-like values that payloads, results and commands carry. *)
Inductive PyVal :=
| VNone
| VBool (b : bool)
| VInt (z : Z)
| VStr (s : string)
| VList (l : list PyVal)
| VDict (d : list (string * PyVal)).

Definition PyDict := list (string * PyVal).

(** [d.get(key)] on a dict kept in insertion order. *)
Fixpoint dict_get (d : PyDict) (key : string) : PyVal :=
  match d with
  | [] => VNone
  | (k, v) :: d' => if String.eqb k key then v else dict_get d' key
  end.

(** [list(d.keys())] *)
Definition dict_keys (d : PyDict) : list string := d.*1.

(** Python truthiness, as used by [if dep_task.result:]. *)
Definition truthy (v : PyVal) : bool :=
  match v with
  | VNone => false
  | VBool b => b
  | VInt z => negb (z =? 0)
  | VStr s => negb (String.eqb s "")
  | VList l => match l with [] => false | _ => true end
  | VDict d => match d with [] => false | _ => true end
  end.

(** Truthiness of an [Optional[str]]: [None] and the empty string are falsy. *)
Definition truthy_str (o : option string) : bool :=
  match o with
  | Some s => negb (String.eqb s "")
  | None => false
  end.

(** [type(v).__name__] *)
Definition type_name (v : PyVal) : string :=
  match v with
  | VNone => "NoneType"
  | VBool _ => "bool"
  | VInt _ => "int"
  | VStr _ => "str"
  | VList _ => "list"
  | VDict _ => "dict"
  end.

(** ** Exceptions *)

(** A computation returns a value or raises an [Exception] with a message. *)
Inductive Exc (A : Type) :=
| Ok (a : A)
| Raise (msg : string).
Arguments Ok {A} a.
Arguments Raise {A} msg.

Global Instance Exc_ret : MRet Exc := fun _ a => Ok a.

Global Instance Exc_bind : MBind Exc := fun _ _ f m =>
  match m with
  | Ok a => f a
  | Raise msg => Raise msg
  end.

(** ** Enumerations and the task record *)

Inductive Priority := LOW | NORMAL | HIGH | CRITICAL.

(** [Priority.value] *)
Definition Priority_value (p : Priority) : Z :=
  match p with
  | LOW => 1
  | NORMAL => 2
  | HIGH => 3
  | CRITICAL => 4
  end.

Inductive TaskStatus := PENDING | RUNNING | COMPLETED | FAILED | CANCELLED.

Global Instance TaskStatus_eq_dec : EqDecision TaskStatus.
Proof. solve_decision. Defined.

Global Instance Priority_eq_dec : EqDecision Priority.
Proof. solve_decision. Defined.

(** The dataclass [AITask]; [task_id] is its field [id]. *)
Record AITask := mkAITask {
  task_id : string;
  module : string;
  action : string;
  data : PyDict;
  priority : Priority;
  created_at : Z;
  user_id : option string;
  project_id : option string;
  status : TaskStatus;
  result : PyVal;
  error : option string;
  dependencies : list string;
  callbacks : list string
}.

(** [task.status = s] *)
Definition set_status (s : TaskStatus) (t : AITask) : AITask :=
  mkAITask (task_id t) (module t) (action t) (data t) (priority t)
    (created_at t) (user_id t) (project_id t) s (result t) (error t)
    (dependencies t) (callbacks t).

(** [task.result = r] *)
Definition set_result (r : PyVal) (t : AITask) : AITask :=
  mkAITask (task_id t) (module t) (action t) (data t) (priority t)
    (created_at t) (user_id t) (project_id t) (status t) r (error t)
    (dependencies t) (callbacks t).

(** [task.error = e] *)
Definition set_error (e : string) (t : AITask) : AITask :=
  mkAITask (task_id t) (module t) (action t) (data t) (priority t)
    (created_at t) (user_id t) (project_id t) (status t) (result t) (Some e)
    (dependencies t) (callbacks t).

(** ** Queue entries and the priority queue *)

(** The tuple [(priority_value, time.time(), task)] put on the queue. *)
Record QEntry := mkQEntry {
  q_priority : Z;
  q_timestamp : Z;
  q_task : string
}.

(** Tuple comparison on the first two components. *)
Definition entry_ltb (a b : QEntry) : bool :=
  (q_priority a <? q_priority b)
  || ((q_priority a =? q_priority b) && (q_timestamp a <? q_timestamp b)).

(** [PriorityQueue.put]: the queue is unbounded, the entry is added. *)
Definition PriorityQueue_put (q : list QEntry) (e : QEntry) : list QEntry :=
  q ++ [e].

(** Splits off the lowest entry of [e :: q]; [e] is the lowest seen so far. *)
Fixpoint extract_min (e : QEntry) (q : list QEntry) : QEntry * list QEntry :=
  match q with
  | [] => (e, [])
  | x :: q' =>
      if entry_ltb x e
      then let '(m, r) := extract_min x q' in (m, e :: r)
      else let '(m, r) := extract_min e q' in (m, x :: r)
  end.

(** [PriorityQueue.get] under [wait_for]: the lowest entry, or [None] when the
    queue is empty and the wait times out. *)
Definition PriorityQueue_get (q : list QEntry) : option (QEntry * list QEntry) :=
  match q with
  | [] => None
  | e :: q' => Some (extract_min e q')
  end.

(** ** Memory vault, events, performance metrics *)

(** The value of [_summarize_result]. *)
Record ResultSummary := mkResultSummary {
  sum_type : PyVal;
  sum_status : PyVal;
  key_outputs : list string
}.

(** One element of [memory_vault[key]["recent_tasks"]]. *)
Record VaultRecord := mkVaultRecord {
  vr_task_id : string;
  vr_module : string;
  vr_action : string;
  result_summary : ResultSummary;
  vr_timestamp : Z
}.

(** The payload of a broadcast event. *)
Inductive EventData :=
| EvCompleted (tid : string) (mod_name : string) (res : PyVal)
| EvFailed (tid : string) (mod_name : string) (err : string).

(** The message built by [_broadcast_event]. *)
Record Event := mkEvent {
  ev_type : string;
  ev_data : EventData;
  ev_timestamp : Z
}.

(** [performance_metrics["module_performance"][module]] *)
Record ModulePerf := mkModulePerf {
  total_tasks : Z;
  total_time : Z;
  success_count : Z;
  error_count : Z
}.

(** [performance_metrics] once [initialize] has filled it. *)
Record PerfMetrics := mkPerfMetrics {
  tasks_processed : Z;
  average_processing_time : Z;
  error_rate : Z;
  module_performance : gmap string ModulePerf;
  last_reset : Z
}.

(** ** Modules and workers *)

(** A registered module object, as far as the kernel inspects it: the
    attribute names for which [hasattr] holds. *)
Record AIModule := mkAIModule {
  mod_attrs : gset string
}.

(** Which coroutine of the module a worker awaits. *)
Inductive ModuleCall :=
| CallMethod (name : string)
| CallProcessRequest (act : string).

(** The [context] mapping built by [_get_task_context]. *)
Record TaskContext := mkTaskContext {
  ctx_user : option (list VaultRecord);
  ctx_project : option (list VaultRecord);
  ctx_dependencies : list (string * PyVal)
}.

(** The call a worker is suspended on. *)
Record Invocation := mkInvocation {
  inv_task : AITask;
  inv_call : ModuleCall;
  inv_data : PyDict;
  inv_context : TaskContext
}.

(** How the awaited module call ends: it returns a value, it raises an
    [Exception] whose [str] is [msg], or it ends in a [BaseException] that is
    not an [Exception] ([asyncio.CancelledError] raised inside the call),
    which [except Exception] does not catch. *)
Inductive Outcome :=
| Returned (r : PyVal)
| Raised (msg : string)
| Escaped.

(** The state of one [_worker] coroutine: idle (at the head of the loop,
    waiting in [get] or asleep); suspended in the module call of a task; ended;
    holding an entry that its [get()] has taken off the queue while the
    coroutine itself has not been resumed yet (up to Python 3.11
    [asyncio.wait_for] runs [get()] in a task of its own, so other coroutines
    run between the take and the dependency test); cancelled while idle, the
    cancellation not yet delivered. *)
Inductive Worker :=
| WIdle
| WAwait (inv : Invocation)
| WExited
| WTaken (e : QEntry)
| WStopping.

(** ** The kernel object *)

Record VoidKernel := mkVoidKernel {
  tasks : gmap string AITask;
  task_queue : list QEntry;
  active_tasks : gset string;
  completed_tasks : list string;
  ai_modules : gmap string AIModule;
  performance_metrics : option PerfMetrics;
  is_running : bool;
  worker_tasks : list Worker;
  max_workers : nat;
  broker_loops : nat;
  monitor_loops : nat;
  message_channels : list string;
  broadcast_channel : list Event;
  memory_vault : gmap string (list VaultRecord)
}.

(** Field assignments on the kernel object. *)
Definition set_tasks (x : gmap string AITask) (k : VoidKernel) : VoidKernel :=
  mkVoidKernel x (task_queue k) (active_tasks k) (completed_tasks k)
    (ai_modules k) (performance_metrics k) (is_running k) (worker_tasks k)
    (max_workers k) (broker_loops k) (monitor_loops k) (message_channels k)
    (broadcast_channel k) (memory_vault k).

Definition set_task_queue (x : list QEntry) (k : VoidKernel) : VoidKernel :=
  mkVoidKernel (tasks k) x (active_tasks k) (completed_tasks k)
    (ai_modules k) (performance_metrics k) (is_running k) (worker_tasks k)
    (max_workers k) (broker_loops k) (monitor_loops k) (message_channels k)
    (broadcast_channel k) (memory_vault k).

Definition set_active_tasks (x : gset string) (k : VoidKernel) : VoidKernel :=
  mkVoidKernel (tasks k) (task_queue k) x (completed_tasks k)
    (ai_modules k) (performance_metrics k) (is_running k) (worker_tasks k)
    (max_workers k) (broker_loops k) (monitor_loops k) (message_channels k)
    (broadcast_channel k) (memory_vault k).

Definition set_completed_tasks (x : list string) (k : VoidKernel) : VoidKernel :=
  mkVoidKernel (tasks k) (task_queue k) (active_tasks k) x
    (ai_modules k) (performance_metrics k) (is_running k) (worker_tasks k)
    (max_workers k) (broker_loops k) (monitor_loops k) (message_channels k)
    (broadcast_channel k) (memory_vault k).

Definition set_ai_modules (x : gmap string AIModule) (k : VoidKernel) : VoidKernel :=
  mkVoidKernel (tasks k) (task_queue k) (active_tasks k) (completed_tasks k)
    x (performance_metrics k) (is_running k) (worker_tasks k)
    (max_workers k) (broker_loops k) (monitor_loops k) (message_channels k)
    (broadcast_channel k) (memory_vault k).

Definition set_performance_metrics (x : option PerfMetrics) (k : VoidKernel) : VoidKernel :=
  mkVoidKernel (tasks k) (task_queue k) (active_tasks k) (completed_tasks k)
    (ai_modules k) x (is_running k) (worker_tasks k)
    (max_workers k) (broker_loops k) (monitor_loops k) (message_channels k)
    (broadcast_channel k) (memory_vault k).

Definition set_is_running (x : bool) (k : VoidKernel) : VoidKernel :=
  mkVoidKernel (tasks k) (task_queue k) (active_tasks k) (completed_tasks k)
    (ai_modules k) (performance_metrics k) x (worker_tasks k)
    (max_workers k) (broker_loops k) (monitor_loops k) (message_channels k)
    (broadcast_channel k) (memory_vault k).

Definition set_worker_tasks (x : list Worker) (k : VoidKernel) : VoidKernel :=
  mkVoidKernel (tasks k) (task_queue k) (active_tasks k) (completed_tasks k)
    (ai_modules k) (performance_metrics k) (is_running k) x
    (max_workers k) (broker_loops k) (monitor_loops k) (message_channels k)
    (broadcast_channel k) (memory_vault k).

Definition set_max_workers (x : nat) (k : VoidKernel) : VoidKernel :=
  mkVoidKernel (tasks k) (task_queue k) (active_tasks k) (completed_tasks k)
    (ai_modules k) (performance_metrics k) (is_running k) (worker_tasks k)
    x (broker_loops k) (monitor_loops k) (message_channels k)
    (broadcast_channel k) (memory_vault k).

Definition set_loops (b m : nat) (k : VoidKernel) : VoidKernel :=
  mkVoidKernel (tasks k) (task_queue k) (active_tasks k) (completed_tasks k)
    (ai_modules k) (performance_metrics k) (is_running k) (worker_tasks k)
    (max_workers k) b m (message_channels k)
    (broadcast_channel k) (memory_vault k).

Definition set_message_channels (x : list string) (k : VoidKernel) : VoidKernel :=
  mkVoidKernel (tasks k) (task_queue k) (active_tasks k) (completed_tasks k)
    (ai_modules k) (performance_metrics k) (is_running k) (worker_tasks k)
    (max_workers k) (broker_loops k) (monitor_loops k) x
    (broadcast_channel k) (memory_vault k).

Definition set_broadcast_channel (x : list Event) (k : VoidKernel) : VoidKernel :=
  mkVoidKernel (tasks k) (task_queue k) (active_tasks k) (completed_tasks k)
    (ai_modules k) (performance_metrics k) (is_running k) (worker_tasks k)
    (max_workers k) (broker_loops k) (monitor_loops k) (message_channels k)
    x (memory_vault k).

Definition set_memory_vault (x : gmap string (list VaultRecord)) (k : VoidKernel) : VoidKernel :=
  mkVoidKernel (tasks k) (task_queue k) (active_tasks k) (completed_tasks k)
    (ai_modules k) (performance_metrics k) (is_running k) (worker_tasks k)
    (max_workers k) (broker_loops k) (monitor_loops k) (message_channels k)
    (broadcast_channel k) x.

(** A write to a field of the task object [tid]. *)
Definition update_task (f : AITask → AITask) (tid : string) (k : VoidKernel) : VoidKernel :=
  set_tasks (alter f tid (tasks k)) k.

(** ** Construction, initialisation, registration, submission *)

(** [VoidKernel.__init__] *)
Definition VoidKernel_new : VoidKernel :=
  mkVoidKernel ∅ [] ∅ [] ∅ None false [] 4%nat 0%nat 0%nat [] [] ∅.

Definition module_names : list string :=
  ["nebulavoid"; "stellarforge"; "oblivionmesh"; "aethercore"; "echosim";
   "chronoframe"; "sentinelflux"; "nebula_agent"].

(** [initialize]; [now] is [datetime.utcnow()]. *)
Definition initialize (k : VoidKernel) (now : Z) : VoidKernel :=
  let k1 := set_performance_metrics (Some (mkPerfMetrics 0 0 0 ∅ now)) k in
  let k2 := set_message_channels module_names k1 in
  set_is_running true k2.

(** [register_ai_module] *)
Definition register_ai_module (k : VoidKernel) (name : string) (m : AIModule) : VoidKernel :=
  set_ai_modules (<[name := m]> (ai_modules k)) k.

(** [submit_task]; [tid] is [str(uuid.uuid4())], [created] is
    [datetime.utcnow()] and [ts] is [time.time()]. *)
Definition submit_task (k : VoidKernel) (mod_name act : string)
    (payload : PyDict) (prio : Priority) (uid pid : option string)
    (deps : option (list string)) (tid : string) (created ts : Z)
    : VoidKernel * string :=
  let task := mkAITask tid mod_name act payload prio created uid pid
                PENDING VNone None (default [] deps) [] in
  let priority_value := Priority_value prio in
  let k1 := set_tasks (<[tid := task]> (tasks k)) k in
  (set_task_queue (PriorityQueue_put (task_queue k1)
                     (mkQEntry priority_value ts tid)) k1,
   tid).

(** [start_monitoring] *)
Definition start_monitoring (k : VoidKernel) : VoidKernel :=
  let k1 := set_worker_tasks (worker_tasks k ++ replicate (max_workers k) WIdle)%list k in
  set_loops (S (broker_loops k1)) (S (monitor_loops k1)) k1.

(** ** Dependencies and context *)

(** [self.completed_tasks.get(tid)]: the object behind a key of the completed
    map. *)
Definition completed_lookup (k : VoidKernel) (tid : string) : option AITask :=
  if bool_decide (tid ∈ completed_tasks k) then tasks k !! tid else None.

(** The loop of [_check_dependencies] over [deps]. *)
Fixpoint check_dependency_ids (k : VoidKernel) (deps : list string) : bool :=
  match deps with
  | [] => true
  | dep_id :: deps' =>
      match completed_lookup k dep_id with
      | None => false
      | Some dep =>
          if bool_decide (status dep ≠ COMPLETED) then false
          else check_dependency_ids k deps'
      end
  end.

(** [_check_dependencies] *)
Definition _check_dependencies (k : VoidKernel) (task : AITask) : bool :=
  check_dependency_ids k (dependencies task).

(** [d[key] = v] on a mapping kept in insertion order. *)
Fixpoint dict_set {V} (key : string) (v : V) (d : list (string * V)) : list (string * V) :=
  match d with
  | [] => [(key, v)]
  | (k0, v0) :: d' =>
      if String.eqb k0 key then (k0, v) :: d' else (k0, v0) :: dict_set key v d'
  end.

(** The dependency loop of [_get_task_context]. *)
Fixpoint dependency_results (k : VoidKernel) (deps : list string)
    (acc : list (string * PyVal)) : list (string * PyVal) :=
  match deps with
  | [] => acc
  | dep_id :: deps' =>
      let acc' :=
        match completed_lookup k dep_id with
        | Some dep_task =>
            if truthy (result dep_task)
            then dict_set ("dependency_" ++ dep_id) (result dep_task) acc
            else acc
        | None => acc
        end in
      dependency_results k deps' acc'
  end.

(** The vault entry of an optional context key. *)
Definition vault_context (k : VoidKernel) (key : option string) : option (list VaultRecord) :=
  if truthy_str key then key ≫= (fun u => memory_vault k !! u) else None.

(** [_get_task_context] *)
Definition _get_task_context (k : VoidKernel) (task : AITask) : TaskContext :=
  mkTaskContext (vault_context k (user_id task))
                (vault_context k (project_id task))
                (dependency_results k (dependencies task) []).

(** ** Memory vault and performance metrics *)

(** [_summarize_result]; [result.get] exists on dicts only. *)
Definition _summarize_result (r : PyVal) : Exc ResultSummary :=
  match r with
  | VDict d =>
      Ok (mkResultSummary (dict_get d "type") (dict_get d "status")
            (take 5 (dict_keys d)))
  | _ => Raise ("'" ++ type_name r ++ "' object has no attribute 'get'")
  end.

(** [l[-n:]] for [n > 0] *)
Definition last_n {A} (n : nat) (l : list A) : list A :=
  drop (length l - n) l.

(** [_update_memory_vault]: the new state and the exception raised, if any.
    The entry is created before the summary is computed, so it survives a
    failing summary. *)
Definition _update_memory_vault (k : VoidKernel) (task : AITask) (r : PyVal)
    : VoidKernel * option string :=
  match user_id task with
  | Some u =>
      if truthy_str (Some u) then
        let vault1 :=
          match memory_vault k !! u with
          | None => <[u := []]> (memory_vault k)
          | Some _ => memory_vault k
          end in
        match _summarize_result r with
        | Raise msg => (set_memory_vault vault1 k, Some msg)
        | Ok summary =>
            let recent := (default [] (vault1 !! u) ++
              [mkVaultRecord (task_id task) (module task) (action task)
                 summary (created_at task)])%list in
            let recent' :=
              if (50 <? length recent)%nat
              then last_n 50 recent else recent in
            (set_memory_vault (<[u := recent']> vault1) k, None)
        end
      else (k, None)
  | None => (k, None)
  end.

(** [_broadcast_event]; [now] is [datetime.utcnow()]. *)
Definition _broadcast_event (k : VoidKernel) (event_type : string)
    (d : EventData) (now : Z) : VoidKernel :=
  set_broadcast_channel (broadcast_channel k ++ [mkEvent event_type d now])%list k.

(** [_update_performance_metrics]: before [initialize] the metrics mapping is
    empty and the first subscript raises [KeyError]. *)
Definition _update_performance_metrics (k : VoidKernel) (mod_name : string)
    (processing_time : Z) (success : bool) : VoidKernel * option string :=
  match performance_metrics k with
  | None => (k, Some "'tasks_processed'")
  | Some pm =>
      let perf1 :=
        match module_performance pm !! mod_name with
        | None => <[mod_name := mkModulePerf 0 0 0 0]> (module_performance pm)
        | Some _ => module_performance pm
        end in
      let metrics := default (mkModulePerf 0 0 0 0) (perf1 !! mod_name) in
      let metrics' :=
        mkModulePerf (total_tasks metrics + 1)
          (total_time metrics + processing_time)
          (if success then success_count metrics + 1 else success_count metrics)
          (if success then error_count metrics else error_count metrics + 1) in
      (set_performance_metrics
         (Some (mkPerfMetrics (tasks_processed pm + 1)
                  (average_processing_time pm) (error_rate pm)
                  (<[mod_name := metrics']> perf1) (last_reset pm))) k,
       None)
  end.

(** ** Eviction from the completed map *)

(** [x[1].created_at] for the key [tid] of the completed map. *)
Definition task_created_at (k : VoidKernel) (tid : string) : Z :=
  from_option created_at 0 (tasks k !! tid).

(** Insertion of [x] before the first element whose key is not smaller. *)
Fixpoint insert_by_key (key : string → Z) (x : string) (l : list string) : list string :=
  match l with
  | [] => [x]
  | y :: l' => if key x <=? key y then x :: y :: l' else y :: insert_by_key key x l'
  end.

(** [sorted(l, key=key)]: a stable sort. *)
Definition sorted_by_key (key : string → Z) (l : list string) : list string :=
  foldr (insert_by_key key) [] l.

Definition completed_capacity : nat := 1000.
Definition eviction_count : nat := 500.

(** The keys [oldest_tasks] deleted by the cleanup. *)
Definition oldest_tasks (k : VoidKernel) (completed : list string) : list string :=
  take eviction_count (sorted_by_key (task_created_at k) completed).

(** The cleanup at the end of [_process_task]. *)
Definition cleanup_completed (k : VoidKernel) (completed : list string) : list string :=
  if (completed_capacity <? length completed)%nat
  then
    let oldest := oldest_tasks k completed in
    filter (fun tid => tid ∉ oldest) completed
  else completed.

(** [self.completed_tasks[tid] = task]: a new key goes last, an existing key
    keeps its place. *)
Definition completed_set (tid : string) (completed : list string) : list string :=
  if bool_decide (tid ∈ completed) then completed else completed ++ [tid].

(** ** Processing one task *)

(** The [finally] block of [_process_task]. *)
Definition _process_task_finally (k : VoidKernel) (task : AITask) : VoidKernel :=
  let k1 := set_active_tasks (active_tasks k ∖ {[task_id task]}) k in
  let completed := completed_set (task_id task) (completed_tasks k1) in
  set_completed_tasks (cleanup_completed k1 completed) k1.

(** The [except Exception as e] block, entered with [str(e) = msg]; the second
    component is the exception that escapes the handler, if any. *)
Definition _process_task_except (k : VoidKernel) (task : AITask) (msg : string)
    (elapsed now : Z) : VoidKernel * option string :=
  let k1 := update_task (set_status FAILED) (task_id task) k in
  let k2 := update_task (set_error msg) (task_id task) k1 in
  match _update_performance_metrics k2 (module task) elapsed false with
  | (k3, Some e) => (k3, Some e)
  | (k3, None) =>
      (_broadcast_event k3 "task_failed"
         (EvFailed (task_id task) (module task) msg) now, None)
  end.

(** The [try] block from [task.result = result] on, entered when the module
    call has returned [r]; the second component is the exception raised. *)
Definition _process_task_store (k : VoidKernel) (task : AITask) (r : PyVal)
    (elapsed now : Z) : VoidKernel * option string :=
  let k1 := update_task (set_result r) (task_id task) k in
  let k2 := update_task (set_status COMPLETED) (task_id task) k1 in
  match _update_memory_vault k2 task r with
  | (k3, Some e) => (k3, Some e)
  | (k3, None) =>
      let k4 := _broadcast_event k3 "task_completed"
                  (EvCompleted (task_id task) (module task) r) now in
      _update_performance_metrics k4 (module task) elapsed true
  end.

(** [_process_task] up to the [await] of the module call.  An unknown module
    raises inside the [try] and the task is processed to the end; otherwise
    the invocation to await is returned. *)
Definition _process_task_begin (k : VoidKernel) (task : AITask)
    (elapsed now : Z) : VoidKernel * option Invocation :=
  let k1 := update_task (set_status RUNNING) (task_id task) k in
  let k2 := set_active_tasks ({[task_id task]} ∪ active_tasks k1) k1 in
  match ai_modules k2 !! module task with
  | None =>
      let k3 :=
        (_process_task_except k2 task ("Unknown AI module: " ++ module task)
           elapsed now).1 in
      (_process_task_finally k3 task, None)
  | Some m =>
      let context := _get_task_context k2 task in
      let call :=
        if bool_decide (action task ∈ mod_attrs m)
        then CallMethod (action task)
        else CallProcessRequest (action task) in
      (k2, Some (mkInvocation task call (data task) context))
  end.

(** [_process_task] from the point where the awaited module call ends
    with outcome [o].  [tried] is the state at the end of the [try] block and
    the [Exception] for the handler, if any; an outcome that is not an
    [Exception] passes the handler by and only the [finally] block runs. *)
Definition _process_task_resume (k : VoidKernel) (task : AITask) (o : Outcome)
    (elapsed now : Z) : VoidKernel :=
  let tried :=
    match o with
    | Returned r => _process_task_store k task r elapsed now
    | Raised msg => (k, Some msg)
    | Escaped => (k, None)
    end in
  let k2 :=
    match tried.2 with
    | Some msg => (_process_task_except tried.1 task msg elapsed now).1
    | None => tried.1
    end in
  _process_task_finally k2 task.

(** ** The worker loop *)

Definition set_worker (w : nat) (st : Worker) (k : VoidKernel) : VoidKernel :=
  set_worker_tasks (<[w := st]> (worker_tasks k)) k.

(** One turn of the loop of [_worker] for worker [w], from the loop head to
    its next suspension, when nothing runs between the [get] and the test of
    the dependencies (Python 3.12 and later, where [wait_for] awaits [get()]
    in the worker itself, or no other coroutine is ready).  An exception that
    escapes [_process_task] is logged by the loop, which goes on.  A worker
    cancelled while idle ends when the cancellation is delivered. *)
Definition _worker (k : VoidKernel) (w : nat) (elapsed now : Z) : VoidKernel :=
  match worker_tasks k !! w with
  | Some WStopping => set_worker w WExited k
  | Some WIdle =>
      if negb (is_running k) then set_worker w WExited k
      else
        match PriorityQueue_get (task_queue k) with
        | None => k
        | Some (e, q') =>
            let k1 := set_task_queue q' k in
            match tasks k1 !! q_task e with
            | None => k1
            | Some task =>
                if negb (_check_dependencies k1 task)
                then set_task_queue (PriorityQueue_put (task_queue k1) e) k1
                else
                  match _process_task_begin k1 task elapsed now with
                  | (k2, Some inv) => set_worker w (WAwait inv) k2
                  | (k2, None) => k2
                  end
            end
        end
  | _ => k
  end.

(** The first half of a turn of worker [w] when [wait_for] runs [get()] in
    a task of its own: the lowest entry is taken off the queue and the worker
    holds it until it is resumed.  An idle worker of a kernel that no longer
    runs leaves the loop at its head.  A worker cancelled while idle whose
    [get()] completes before the cancellation is delivered keeps the entry:
    [wait_for] returns the result and the cancellation is lost. *)
Definition _worker_take (k : VoidKernel) (w : nat) : VoidKernel :=
  let take :=
    match PriorityQueue_get (task_queue k) with
    | None => k
    | Some (e, q') => set_worker w (WTaken e) (set_task_queue q' k)
    end in
  match worker_tasks k !! w with
  | Some WIdle => if negb (is_running k) then set_worker w WExited k else take
  | Some WStopping => take
  | _ => k
  end.

(** The second half: the worker is resumed with the entry it holds, tests
    the dependencies of the task and puts the entry back or processes the
    task, as in [_worker]. *)
Definition _worker_test (k : VoidKernel) (w : nat) (elapsed now : Z) : VoidKernel :=
  match worker_tasks k !! w with
  | Some (WTaken e) =>
      match tasks k !! q_task e with
      | None => set_worker w WIdle k
      | Some task =>
          if negb (_check_dependencies k task)
          then set_worker w WIdle
                 (set_task_queue (PriorityQueue_put (task_queue k) e) k)
          else
            match _process_task_begin k task elapsed now with
            | (k2, Some inv) => set_worker w (WAwait inv) k2
            | (k2, None) => set_worker w WIdle k2
            end
      end
  | _ => k
  end.

(** Worker [w] is resumed because its module call ended with [o].  An
    outcome that is not an [Exception] also passes the handler of the loop by
    and ends the worker. *)
Definition _worker_resume (k : VoidKernel) (w : nat) (o : Outcome)
    (elapsed now : Z) : VoidKernel :=
  match worker_tasks k !! w with
  | Some (WAwait inv) =>
      set_worker w (match o with Escaped => WExited | _ => WIdle end)
        (_process_task_resume k (inv_task inv) o elapsed now)
  | _ => k
  end.

(** One turn of [_message_broker]: a pending broadcast message is taken off
    the channel.  Nothing ever fills [event_handlers] or the per-module
    channels, so the message has no handler to run. *)
Definition _message_broker (k : VoidKernel) : VoidKernel :=
  if is_running k && (0 <? broker_loops k)%nat
  then set_broadcast_channel (tail (broadcast_channel k)) k
  else k.

(** What [task.cancel()] does to a worker coroutine: [CancelledError] is not
    an [Exception], so a worker suspended in a module call runs only the
    [finally] block of [_process_task]. *)
Definition cancel_worker (k : VoidKernel) (st : Worker) : VoidKernel :=
  match st with
  | WAwait inv => _process_task_finally k (inv_task inv)
  | _ => k
  end.

(** The state of a worker once [task.cancel()] has been called on it.  A
    worker suspended in a module call ends.  A worker that holds an entry goes
    on with it.  An idle worker of a kernel that ran ([running]) may be
    waiting in [get]: it ends when the cancellation is delivered, unless its
    [get()] completes first; which of the two happens is left open.  An idle
    worker of a kernel that did not run has not entered [wait_for] and
    ends. *)
Definition stop_worker (running : bool) (st : Worker) : Worker :=
  match st with
  | WIdle => if running then WStopping else WExited
  | WStopping => WStopping
  | WTaken e => WTaken e
  | WAwait _ | WExited => WExited
  end.

(** [shutdown], up to its [await asyncio.gather(...)]: the flag is cleared
    and every worker is cancelled.  The workers that survive the cancellation
    run on while [shutdown] waits for them. *)
Definition shutdown (k : VoidKernel) : VoidKernel :=
  let k1 := set_is_running false k in
  let k2 := foldl cancel_worker k1 (worker_tasks k1) in
  set_worker_tasks (stop_worker (is_running k) <$> worker_tasks k2) k2.

(** ** Direct commands *)

(** [repr(v)]; the escaping of quotes inside strings is not modelled. *)
Fixpoint py_repr (v : PyVal) : string :=
  match v with
  | VNone => "None"
  | VBool b => if b then "True" else "False"
  | VInt z => pretty z
  | VStr s => "'" ++ s ++ "'"
  | VList l => "[" ++ String.concat ", " (map py_repr l) ++ "]"
  | VDict d =>
      "{" ++ String.concat ", "
               (map (fun kv => match kv with
                               | (key, x) => "'" ++ key ++ "': " ++ py_repr x
                               end) d) ++ "}"
  end.

(** [str(v)], as formatted by an f-string. *)
Definition py_str (v : PyVal) : string :=
  match v with
  | VStr s => s
  | _ => py_repr v
  end.

(** [v == s] for a string literal [s]. *)
Definition py_eq_str (v : PyVal) (s : string) : bool :=
  match v with
  | VStr s' => String.eqb s' s
  | _ => false
  end.

(** Hashing [v] for a lookup in a mapping keyed by strings: lists and dicts
    are unhashable, a hashable value that is not a string equals no key. *)
Definition hash_key (v : PyVal) : Exc (option string) :=
  match v with
  | VList _ => Raise "unhashable type: 'list'"
  | VDict _ => Raise "unhashable type: 'dict'"
  | VStr s => Ok (Some s)
  | _ => Ok None
  end.

(** The values found in the mappings that [execute_command] returns. *)
Inductive RVal :=
| RStr (s : string)
| RInt (z : Z)
| RPerf (p : option PerfMetrics)
| RTask (t : AITask).

Definition Response := list (string * RVal).

(** [{"task": asdict(store[tid])}] *)
Definition task_response (k : VoidKernel) (tid : string) : Exc (VoidKernel * Response) :=
  match tasks k !! tid with
  | Some t => Ok (k, [("task", RTask t)])
  | None => Raise ("'" ++ tid ++ "'")
  end.

(** The [try] block of [execute_command]. *)
Definition execute_command_body (k : VoidKernel) (command : PyDict)
    : Exc (VoidKernel * Response) :=
  let cmd_type := dict_get command "type" in
  if py_eq_str cmd_type "get_status" then
    Ok (k, [("status", RStr "active");
            ("active_tasks", RInt (Z.of_nat (size (active_tasks k))));
            ("queue_size", RInt (Z.of_nat (length (task_queue k))));
            ("performance", RPerf (performance_metrics k))])
  else if py_eq_str cmd_type "get_task_status" then
    key ← hash_key (dict_get command "task_id");
    match key with
    | Some tid =>
        if bool_decide (tid ∈ active_tasks k) then task_response k tid
        else if bool_decide (tid ∈ completed_tasks k) then task_response k tid
        else Ok (k, [("error", RStr "Task not found")])
    | None => Ok (k, [("error", RStr "Task not found")])
    end
  else if py_eq_str cmd_type "cancel_task" then
    key ← hash_key (dict_get command "task_id");
    match key with
    | Some tid =>
        if bool_decide (tid ∈ active_tasks k)
        then Ok (update_task (set_status CANCELLED) tid k,
                 [("status", RStr "cancelled")])
        else Ok (k, [("error", RStr "Task not found or not active")])
    | None => Ok (k, [("error", RStr "Task not found or not active")])
    end
  else
    Ok (k, [("error", RStr ("Unknown command type: " ++ py_str cmd_type))]).

(** [execute_command]: the body under [try], with
    [except Exception as e: return {"error": str(e)}]. *)
Definition execute_command (k : VoidKernel) (command : PyDict)
    : Exc (VoidKernel * Response) :=
  match execute_command_body k command with
  | Ok r => Ok r
  | Raise msg => Ok (k, [("error", RStr msg)])
  end.

(** ** Operations on a kernel and the states they reach *)

(** What can happen to a kernel: a call of one of its public coroutines, the
    assignment of [max_workers], a turn of a worker (in one piece, or as the
    take of an entry followed later by its test) or of the broker, or the end
    of a module call a worker awaits. *)
Inductive Op :=
| OpInitialize (now : Z)
| OpRegister (name : string) (m : AIModule)
| OpSubmit (mod_name act : string) (payload : PyDict) (prio : Priority)
    (uid pid : option string) (deps : option (list string))
    (tid : string) (created ts : Z)
| OpSetMaxWorkers (n : nat)
| OpStart
| OpWorker (w : nat) (elapsed now : Z)
| OpModuleDone (w : nat) (o : Outcome) (elapsed now : Z)
| OpBroker
| OpCommand (command : PyDict)
| OpShutdown
| OpTake (w : nat)
| OpTested (w : nat) (elapsed now : Z).

Definition step (k : VoidKernel) (op : Op) : VoidKernel :=
  match op with
  | OpInitialize now => initialize k now
  | OpRegister name m => register_ai_module k name m
  | OpSubmit mod_name act payload prio uid pid deps tid created ts =>
      (submit_task k mod_name act payload prio uid pid deps tid created ts).1
  | OpSetMaxWorkers n => set_max_workers n k
  | OpStart => start_monitoring k
  | OpWorker w elapsed now => _worker k w elapsed now
  | OpModuleDone w o elapsed now => _worker_resume k w o elapsed now
  | OpBroker => _message_broker k
  | OpCommand command =>
      match execute_command k command with
      | Ok (k', _) => k'
      | Raise _ => k
      end
  | OpShutdown => shutdown k
  | OpTake w => _worker_take k w
  | OpTested w elapsed now => _worker_test k w elapsed now
  end.

(** [uuid4] hands out an identifier that no task of the kernel carries. *)
Definition op_enabled (k : VoidKernel) (op : Op) : bool :=
  match op with
  | OpSubmit _ _ _ _ _ _ _ tid _ _ => bool_decide (tasks k !! tid = None)
  | _ => true
  end.

Inductive reachable : VoidKernel → Prop :=
| reachable_new : reachable VoidKernel_new
| reachable_step k op :
    reachable k → op_enabled k op = true → reachable (step k op).

(** A run of operations from [k]. *)
Definition run (k : VoidKernel) (ops : list Op) : VoidKernel :=
  foldl step k ops.

(** Every submission of the run has a fresh identifier. *)
Fixpoint ops_enabled (k : VoidKernel) (ops : list Op) : bool :=
  match ops with
  | [] => true
  | op :: ops' => op_enabled k op && ops_enabled (step k op) ops'
  end.

(** ** Observations and scenarios *)

(** The lexicographic order on [(priority_value, timestamp)]. *)
Definition entry_le (a b : QEntry) : Prop :=
  q_priority a < q_priority b
  ∨ (q_priority a = q_priority b ∧ q_timestamp a ≤ q_timestamp b).

(** The status of the task [tid], if the kernel has such a task. *)
Definition task_status (k : VoidKernel) (tid : string) : option TaskStatus :=
  status <$> tasks k !! tid.

(** The worker loops that have not ended. *)
Definition is_live (st : Worker) : bool :=
  match st with
  | WExited => false
  | _ => true
  end.

Definition live_workers (k : VoidKernel) : nat :=
  length (filter (fun st => Is_true (is_live st)) (worker_tasks k)).

(** A dependency that lets its dependents go: a key of the completed map
    whose task is COMPLETED. *)
Definition dependency_completed (k : VoidKernel) (dep_id : string) : Prop :=
  ∃ dep, completed_lookup k dep_id = Some dep ∧ status dep = COMPLETED.


(** The command mappings [{"type": "cancel_task", "task_id": tid}] and
    [{"type": "get_task_status", "task_id": tid}]. *)
Definition cancel_command (tid : string) : PyDict :=
  [("type", VStr "cancel_task"); ("task_id", VStr tid)].

Definition task_status_command (tid : string) : PyDict :=
  [("type", VStr "get_task_status"); ("task_id", VStr tid)].

(** A module object without a method of its own for any action: every
    request goes through [process_request]. *)
Definition plain_module : AIModule := mkAIModule ∅.

(** An initialised kernel with the module ["forge"] and a pool of one worker,
    to which three tasks without dependencies are submitted in the order
    NORMAL, CRITICAL, LOW before the pool is started. *)
Definition priority_scenario : list Op :=
  [OpInitialize 0; OpRegister "forge" plain_module; OpSetMaxWorkers 1;
   OpSubmit "forge" "build" [] NORMAL None None None "task-normal" 1 1;
   OpSubmit "forge" "build" [] CRITICAL None None None "task-critical" 2 2;
   OpSubmit "forge" "build" [] LOW None None None "task-low" 3 3;
   OpStart].

(** A dict result, as the modules' [process_request] returns. *)
Definition ok_result : PyVal :=
  VDict [("type", VStr "build"); ("status", VStr "success")].

(** A task with both context keys that the module ["forge"] completes. *)
Definition context_keys_scenario : list Op :=
  [OpInitialize 0; OpRegister "forge" plain_module; OpSetMaxWorkers 1;
   OpSubmit "forge" "build" [] NORMAL (Some "user-1") (Some "project-1") None
     "task-ctx" 1 1;
   OpStart; OpWorker 0 0 2; OpModuleDone 0 (Returned ok_result) 1 3].

(** The module object of [NebulaVoidX], as far as [hasattr] goes: the
    methods and the instance attributes that the class defines (the
    attributes that every object has are left out), and the list that its
    coroutine [_analyze_performance] returns for any input. *)
Definition nebulavoid_module : AIModule :=
  mkAIModule
    (list_to_set
       [ "code_templates"; "active_sessions"; "code_history";
         "debugging_context"; "optimization_cache"; "learning_patterns";
         "initialize"; "process_request"; "_generate_code"; "_analyze_prompt";
         "_plan_code_structure"; "_synthesize_code"; "_generate_game_engine";
         "_generate_system_code"; "_generate_component_code";
         "_generate_ui_code"; "_add_documentation"; "_organize_into_files";
         "_debug_code"; "_analyze_code_issues"; "_generate_fixes";
         "_apply_fixes"; "_optimize_code"; "_analyze_performance";
         "_apply_optimizations"; "_refactor_code"; "_explain_code";
         "_generate_explanation"; "_handle_chat"; "_generate_chat_response";
         "_generate_suggestions"; "_load_code_patterns";
         "_initialize_code_analyzer"; "get_status" ]).

Definition analyze_performance_result : PyVal :=
  VList [VDict [("type", VStr "caching");
                ("description", VStr "Add result caching for expensive operations");
                ("impact", VStr "high")];
         VDict [("type", VStr "batching");
                ("description", VStr "Batch similar operations together");
                ("impact", VStr "medium")]].

(** A task of user ["user-1"] that names the coroutine
    [_analyze_performance] of the registered module as its action. *)
Definition list_result_scenario : list Op :=
  [OpInitialize 0; OpRegister "nebulavoid" nebulavoid_module; OpSetMaxWorkers 1;
   OpSubmit "nebulavoid" "_analyze_performance" [("code", VStr "x = 1")] NORMAL
     (Some "user-1") None None "task-perf" 1 1;
   OpStart; OpWorker 0 0 2;
   OpModuleDone 0 (Returned analyze_performance_result) 1 3].

(** A task that is cancelled while worker 0 awaits its module call. *)
Definition cancel_running_scenario : list Op :=
  [OpInitialize 0; OpRegister "forge" plain_module; OpSetMaxWorkers 1;
   OpSubmit "forge" "build" [] NORMAL None None None "task-x" 1 1;
   OpStart; OpWorker 0 0 2; OpCommand (cancel_command "task-x")].

(** A task that waits in the queue of an initialised, started kernel. *)
Definition pending_scenario : list Op :=
  [OpInitialize 0; OpRegister "forge" plain_module; OpSetMaxWorkers 1;
   OpStart;
   OpSubmit "forge" "build" [] NORMAL None None None "task-q" 1 1].

(** The order that [sorted(..., key=key)] establishes. *)
Definition key_le (key : string → Z) (a b : string) : Prop := key a ≤ key b.

(** ** The scheduling core of a kernel and its invariant *)

(** The fields on which dispatch, cancellation and eviction depend; the last
    component tells whether [initialize] has filled the metrics. *)
Record Core := mkCore {
  c_tasks : gmap string AITask;
  c_queue : list QEntry;
  c_active : gset string;
  c_workers : list Worker;
  c_completed : list string;
  c_running : bool;
  c_metrics : bool
}.

Definition has_metrics (k : VoidKernel) : bool :=
  match performance_metrics k with
  | Some _ => true
  | None => false
  end.

Definition core (k : VoidKernel) : Core :=
  mkCore (tasks k) (task_queue k) (active_tasks k) (worker_tasks k)
    (completed_tasks k) (is_running k) (has_metrics k).

(** The statuses of a task that a worker holds. *)
Definition executing (s : TaskStatus) : Prop := s = RUNNING ∨ s = CANCELLED.

(** Some worker of [ws] awaits the module call of the task [tid]. *)
Definition in_flight (ws : list Worker) (tid : string) : Prop :=
  ∃ w inv, ws !! w = Some (WAwait inv) ∧ task_id (inv_task inv) = tid.

(** The scheduling invariant, on the task store, the queue, the active set
    and the workers: tasks are stored under their identifier; a queued task
    is PENDING and queued once; an active task is awaited by a worker; a task
    awaited by a worker is RUNNING or CANCELLED and awaited by that worker
    only. *)
Record sched_inv (T : gmap string AITask) (Q : list QEntry) (A : gset string)
    (W : list Worker) : Prop := mk_sched_inv {
  si_keys : ∀ tid t, T !! tid = Some t → task_id t = tid;
  si_queue : ∀ e, e ∈ Q → ∃ t, T !! q_task e = Some t ∧ status t = PENDING;
  si_queue_nodup : NoDup (q_task <$> Q);
  si_active : ∀ tid, tid ∈ A → in_flight W tid;
  si_flight : ∀ w inv, W !! w = Some (WAwait inv) →
    ∃ t, T !! task_id (inv_task inv) = Some t ∧ executing (status t);
  si_flight_inj : ∀ w w' inv inv',
    W !! w = Some (WAwait inv) → W !! w' = Some (WAwait inv') →
    task_id (inv_task inv) = task_id (inv_task inv') → w = w'
}.

(** Every key of the completed map has its task object in the store. *)
Definition completed_stored (T : gmap string AITask) (C : list string) : Prop :=
  ∀ tid, tid ∈ C → is_Some (T !! tid).

(** The entries that workers hold between the take and the test. *)
Definition held_of (st : Worker) : list QEntry :=
  match st with
  | WTaken e => [e]
  | _ => []
  end.

Definition held_entries (ws : list Worker) : list QEntry := ws ≫= held_of.

(** What holds of the core of every reachable kernel: the scheduling
    invariant on the entries that are queued or held by a worker; a running
    kernel has metrics; the completed map has distinct keys, at most
    [completed_capacity] of them, each with its task. *)
Definition core_inv (c : Core) : Prop :=
  sched_inv (c_tasks c) (c_queue c ++ held_entries (c_workers c)) (c_active c)
    (c_workers c)
  ∧ (c_running c = true → c_metrics c = true)
  ∧ NoDup (c_completed c)
  ∧ (length (c_completed c) ≤ completed_capacity)%nat
  ∧ completed_stored (c_tasks c) (c_completed c).

Definition kernel_inv (k : VoidKernel) : Prop := core_inv (core k).

(** The identifiers of the tasks that the workers [ws] await. *)
Definition awaited_ids (ws : list Worker) : list string :=
  omap (fun st => match st with
                  | WAwait inv => Some (task_id (inv_task inv))
                  | _ => None
                  end) ws.

(** The error count of a module in the performance metrics. *)
Definition module_errors (k : VoidKernel) (mod_name : string) : Z :=
  match performance_metrics k with
  | Some pm => from_option error_count 0 (module_performance pm !! mod_name)
  | None => 0
  end.

(** The writes that [_process_task] makes to a task keep its identifier and
    its submission time. *)
Definition keeps_identity (f : AITask → AITask) : Prop :=
  ∀ t, task_id (f t) = task_id t ∧ created_at (f t) = created_at t.

(** The kernel of [priority_scenario] once the LOW task is COMPLETED and
    worker 0 awaits the module call of the NORMAL task. *)
Definition finished_and_running : VoidKernel :=
  run VoidKernel_new
    (priority_scenario ++
     [OpWorker 0 0 10; OpModuleDone 0 (Returned ok_result) 1 11;
      OpWorker 0 0 12]).

(** The invocation that worker 0 awaits in [finished_and_running]. *)
Definition normal_invocation : Invocation :=
  mkInvocation
    (mkAITask "task-normal" "forge" "build" [] NORMAL 1 None None PENDING
       VNone None [] [])
    (CallProcessRequest "build") [] (mkTaskContext None None []).

(** A started kernel with one worker and a queued task whose module
    ["ghost"] was never registered. *)
Definition unknown_module_scenario : list Op :=
  [OpInitialize 0; OpSetMaxWorkers 1; OpStart;
   OpSubmit "ghost" "haunt" [] NORMAL None None None "task-g" 1 1].

Definition ghost_task : AITask :=
  mkAITask "task-g" "ghost" "haunt" [] NORMAL 1 None None PENDING VNone None
    [] [].

(** Task ["task-a"] has FAILED (unknown module) and ["task-b"], which
    depends on it, waits in the queue. *)
Definition failed_dependency_scenario : list Op :=
  [OpInitialize 0; OpRegister "forge" plain_module; OpSetMaxWorkers 1; OpStart;
   OpSubmit "ghost" "haunt" [] NORMAL None None None "task-a" 1 1;
   OpWorker 0 0 2;
   OpSubmit "forge" "build" [] NORMAL None None (Some ["task-a"]) "task-b" 3 3].

Definition dependent_task : AITask :=
  mkAITask "task-b" "forge" "build" [] NORMAL 3 None None PENDING VNone None
    ["task-a"] [].

(** The kernel of [cancel_running_scenario] just before the cancellation:
    worker 0 awaits the module call of ["task-x"]. *)
Definition running_scenario : list Op :=
  [OpInitialize 0; OpRegister "forge" plain_module; OpSetMaxWorkers 1;
   OpSubmit "forge" "build" [] NORMAL None None None "task-x" 1 1;
   OpStart; OpWorker 0 0 2].

(** A flood of tasks for the unregistered module ["ghost"]: task [i] is
    submitted at time [i] under the identifier [i] in decimal. *)
Definition flood_submit (i : nat) : Op :=
  OpSubmit "ghost" "haunt" [] NORMAL None None None (pretty i) (Z.of_nat i)
    (Z.of_nat i).

(** A backlog of tasks for the unregistered module ["ghost"], all submitted
    before the first worker turn, task [i] at time [i]: tasks 0 to 500 are
    HIGH, tasks 501 to 1000 are LOW.  The worker then takes 1000 turns: it
    processes the LOW tasks first and the HIGH tasks 0 to 499 after them, so
    the completed map is filled in an order that is not the order of
    [created_at]; task 500 is left in the queue. *)
Definition backlog_priority (i : nat) : Priority :=
  if (i <=? 500)%nat then HIGH else LOW.

Definition backlog_task (i : nat) : AITask :=
  mkAITask (pretty i) "ghost" "haunt" [] (backlog_priority i) (Z.of_nat i) None
    None PENDING VNone None [] [].

Definition backlog_submit (i : nat) : Op :=
  OpSubmit "ghost" "haunt" [] (backlog_priority i) None None None (pretty i)
    (Z.of_nat i) (Z.of_nat i).

Definition backlog_ops : list Op :=
  [OpInitialize 0; OpSetMaxWorkers 1; OpStart] ++
  (backlog_submit <$> seq 0 1001) ++ replicate 1000 (OpWorker 0 0 2000).

(** The kernel whose completed map is full after the backlog. *)
Definition at_capacity : VoidKernel := run VoidKernel_new backlog_ops.

(** A CRITICAL task for the unregistered module is submitted first, at time
    0; it stays in the queue while 1000 later NORMAL tasks are processed, and
    is dispatched last. *)
Definition late_dispatch_ops : list Op :=
  [OpInitialize 0; OpSetMaxWorkers 1; OpStart;
   OpSubmit "ghost" "haunt" [] CRITICAL None None None "first" 0 0] ++
  flat_map (fun i => [flood_submit i; OpWorker 0 0 (Z.of_nat i)]) (seq 1 1000).

(** * Further observations: definitions *)

(** The bound of [_update_memory_vault] on a user's list of records, and the
    bound of [_summarize_result] on the keys of a summary. *)
Definition vault_record_limit : nat := 50.
Definition key_output_limit : nat := 5.

(** Every entry of the vault is kept under a non-empty key and holds at most
    50 records, each with at most 5 key names. *)
Definition vault_bounded (V : gmap string (list VaultRecord)) : Prop :=
  ∀ u l, V !! u = Some l →
    u ≠ ""
    ∧ (length l ≤ vault_record_limit)%nat
    ∧ Forall (fun r => (length (key_outputs (result_summary r)) ≤ key_output_limit)%nat) l.

(** [sum(m["total_tasks"] for m in module_performance.values())] *)
Definition total_tasks_sum (mp : gmap string ModulePerf) : Z :=
  map_fold (fun _ m acc => total_tasks m + acc) 0 mp.

(** The counters of the metrics agree with each other. *)
Definition metrics_exact (M : option PerfMetrics) : Prop :=
  ∀ pm, M = Some pm →
    tasks_processed pm = total_tasks_sum (module_performance pm)
    ∧ ∀ m mp, module_performance pm !! m = Some mp →
        total_tasks mp = success_count mp + error_count mp
        ∧ 1 ≤ total_tasks mp ∧ 0 ≤ success_count mp ∧ 0 ≤ error_count mp.

(** The tasks [0 .. n-1] of the user ["user-1"], each submitted, dispatched
    to the module ["forge"] and completed with a dict result before the next
    one is submitted. *)
Definition user_task_ops (i : nat) : list Op :=
  [OpSubmit "forge" "build" [] NORMAL (Some "user-1") None None (pretty i)
     (Z.of_nat i) (Z.of_nat i);
   OpWorker 0 0 (Z.of_nat i);
   OpModuleDone 0 (Returned ok_result) 1 (Z.of_nat i)].

Definition user_flood_ops (n : nat) : list Op :=
  [OpInitialize 0; OpRegister "forge" plain_module; OpSetMaxWorkers 1; OpStart]
  ++ flat_map user_task_ops (seq 0 n).

(** One task completes and one fails for an unknown module. *)
Definition mixed_outcome_scenario : list Op :=
  context_keys_scenario ++
  [OpSubmit "ghost" "haunt" [] NORMAL None None None "task-g" 4 4;
   OpWorker 0 0 5].

(** ** The transitions of the scheduling core *)

(** What [submit_task] fixes of a task: every field but [status], [result]
    and [error]. *)
Definition submission (t : AITask) :=
  (task_id t, module t, action t, data t, priority t, created_at t, user_id t,
   project_id t, dependencies t, callbacks t).

(** A write to a task that leaves the submitted fields alone. *)
Definition keeps_submission (f : AITask → AITask) : Prop :=
  ∀ t, submission (f t) = submission t.

(** Every dependency of [deps] is a key of the completed map whose task is
    COMPLETED: what [_check_dependencies] tests, on a core. *)
Definition deps_completed (c : Core) (deps : list string) : Prop :=
  ∀ d, d ∈ deps →
    d ∈ c_completed c ∧ ∃ t, c_tasks c !! d = Some t ∧ status t = COMPLETED.

(** What one step does to the core of a kernel that satisfies the
    invariant.  [cs_skip] covers the steps that leave the core alone; the
    other transitions are those of [initialize], [submit_task],
    [start_monitoring], the parts of a worker turn (the loop ends; an entry is
    taken; the entry is put back, the task is dispatched, or the task fails
    for an unknown module), the end of a module call (caught by the handlers
    of [_process_task] or not), [cancel_task] and [shutdown]. *)
Inductive core_step : Core → Core → Prop :=
| cs_skip c : core_step c c
| cs_initialize c :
    core_step c
      (mkCore (c_tasks c) (c_queue c) (c_active c) (c_workers c)
         (c_completed c) true true)
| cs_submit c t e :
    c_tasks c !! task_id t = None → status t = PENDING →
    q_task e = task_id t →
    core_step c
      (mkCore (<[task_id t := t]> (c_tasks c)) (PriorityQueue_put (c_queue c) e)
         (c_active c) (c_workers c) (c_completed c) (c_running c) (c_metrics c))
| cs_start c n :
    core_step c
      (mkCore (c_tasks c) (c_queue c) (c_active c)
         (c_workers c ++ replicate n WIdle) (c_completed c) (c_running c)
         (c_metrics c))
| cs_exit c w :
    (c_workers c !! w = Some WIdle ∧ c_running c = false)
    ∨ c_workers c !! w = Some WStopping →
    core_step c
      (mkCore (c_tasks c) (c_queue c) (c_active c)
         (<[w := WExited]> (c_workers c)) (c_completed c) (c_running c)
         (c_metrics c))
| cs_take c w e q' :
    (c_workers c !! w = Some WIdle ∧ c_running c = true)
    ∨ c_workers c !! w = Some WStopping →
    PriorityQueue_get (c_queue c) = Some (e, q') →
    core_step c
      (mkCore (c_tasks c) q' (c_active c) (<[w := WTaken e]> (c_workers c))
         (c_completed c) (c_running c) (c_metrics c))
| cs_requeue c w e task :
    c_workers c !! w = Some (WTaken e) →
    c_tasks c !! q_task e = Some task →
    ¬ deps_completed c (dependencies task) →
    core_step c
      (mkCore (c_tasks c) (PriorityQueue_put (c_queue c) e) (c_active c)
         (<[w := WIdle]> (c_workers c)) (c_completed c) (c_running c)
         (c_metrics c))
| cs_dispatch c w e task inv :
    c_workers c !! w = Some (WTaken e) →
    c_tasks c !! q_task e = Some task →
    deps_completed c (dependencies task) →
    inv_task inv = task →
    core_step c
      (mkCore (alter (set_status RUNNING) (q_task e) (c_tasks c)) (c_queue c)
         ({[q_task e]} ∪ c_active c) (<[w := WAwait inv]> (c_workers c))
         (c_completed c) (c_running c) (c_metrics c))
| cs_dispatch_fail c w e task f kc :
    c_workers c !! w = Some (WTaken e) →
    c_tasks c !! q_task e = Some task →
    deps_completed c (dependencies task) →
    keeps_submission f → (∀ t, status (f t) = FAILED) →
    core_step c
      (mkCore (alter f (q_task e) (c_tasks c)) (c_queue c)
         (({[q_task e]} ∪ c_active c) ∖ {[q_task e]})
         (<[w := WIdle]> (c_workers c))
         (cleanup_completed kc (completed_set (q_task e) (c_completed c)))
         (c_running c) (c_metrics c))
| cs_finish c w inv f kc :
    c_workers c !! w = Some (WAwait inv) →
    keeps_submission f →
    (∀ t, status (f t) = COMPLETED ∨ status (f t) = FAILED) →
    core_step c
      (mkCore (alter f (task_id (inv_task inv)) (c_tasks c)) (c_queue c)
         (c_active c ∖ {[task_id (inv_task inv)]})
         (<[w := WIdle]> (c_workers c))
         (cleanup_completed kc
            (completed_set (task_id (inv_task inv)) (c_completed c)))
         (c_running c) (c_metrics c))
| cs_abort c w inv kc :
    c_workers c !! w = Some (WAwait inv) →
    core_step c
      (mkCore (c_tasks c) (c_queue c)
         (c_active c ∖ {[task_id (inv_task inv)]})
         (<[w := WExited]> (c_workers c))
         (cleanup_completed kc
            (completed_set (task_id (inv_task inv)) (c_completed c)))
         (c_running c) (c_metrics c))
| cs_cancel c tid :
    tid ∈ c_active c →
    core_step c
      (mkCore (alter (set_status CANCELLED) tid (c_tasks c)) (c_queue c)
         (c_active c) (c_workers c) (c_completed c) (c_running c)
         (c_metrics c))
| cs_shutdown c A' C' :
    (∀ tid, tid ∈ A' → tid ∈ c_active c ∧ tid ∉ awaited_ids (c_workers c)) →
    NoDup C' → (length C' ≤ completed_capacity)%nat →
    (∀ tid, tid ∈ C' → tid ∈ c_completed c ∨ tid ∈ awaited_ids (c_workers c)) →
    core_step c
      (mkCore (c_tasks c) (c_queue c) A'
         (stop_worker (c_running c) <$> c_workers c) C' false (c_metrics c)).

(** A worker turn in one piece is a take followed by a test: an operation
    is a sequence of steps of the core. *)
Definition core_steps : Core → Core → Prop := rtc core_step.

(** ** Where a task is, by its status *)

(** A worker that has been through the head of the loop of a running
    kernel: it holds an entry, awaits a module call or has been cancelled. *)
Definition is_busy (st : Worker) : bool :=
  match st with
  | WTaken _ | WAwait _ | WStopping => true
  | WIdle | WExited => false
  end.

(** A second invariant of the core: a task that a worker awaits is in the
    active map; a kernel with a busy worker has been initialised; a key of the
    completed map belongs to a task that has left the queue. *)
Record flow_inv (c : Core) : Prop := mk_flow_inv {
  fi_awaited_active : ∀ w inv,
    c_workers c !! w = Some (WAwait inv) → task_id (inv_task inv) ∈ c_active c;
  fi_busy_metrics : ∀ w st,
    c_workers c !! w = Some st → is_busy st = true → c_metrics c = true;
  fi_completed_started : ∀ tid,
    tid ∈ c_completed c → ∃ t, c_tasks c !! tid = Some t ∧ status t ≠ PENDING
}.

(** Some worker holds an entry of the task [tid]. *)
Definition held_by_worker (ws : list Worker) (tid : string) : Prop :=
  ∃ w e, ws !! w = Some (WTaken e) ∧ q_task e = tid.

(** The tasks of the store that are PENDING. *)
Definition pending_tasks (k : VoidKernel) : gmap string AITask :=
  filter (fun kv => status kv.2 = PENDING) (tasks k).

(** The command mapping [{"type": "get_status"}]. *)
Definition status_command : PyDict := [("type", VStr "get_status")].

(** ** Dependencies that cannot be satisfied any more *)

(** The task [d] will never be a COMPLETED key of the completed map: it has
    FAILED; or it is COMPLETED and its key has been evicted; or it is RUNNING
    or CANCELLED and no worker awaits it. *)
Definition dependency_lost (c : Core) (d : string) : Prop :=
  ∃ t, c_tasks c !! d = Some t
       ∧ (status t = FAILED
          ∨ (status t = COMPLETED ∧ d ∉ c_completed c)
          ∨ (executing (status t) ∧ ¬ in_flight (c_workers c) d)).

(** ["task-a"] once it has failed for its unknown module. *)
Definition failed_task : AITask :=
  mkAITask "task-a" "ghost" "haunt" [] NORMAL 1 None None FAILED VNone
    (Some "Unknown AI module: ghost") [] [].

Definition worker_turns : list Op :=
  [OpWorker 0 0 5; OpWorker 0 0 6; OpWorker 0 0 7].

(** The invocation that worker 0 awaits at the end of [running_scenario]. *)
Definition awaited_invocation : Invocation :=
  mkInvocation
    (mkAITask "task-x" "forge" "build" [] NORMAL 1 None None PENDING VNone
       None [] [])
    (CallProcessRequest "build") [] (mkTaskContext None None []).




(** The counters of the performance metrics: the tasks processed, and the
    successes of a module. *)
Definition tasks_counted (k : VoidKernel) : Z :=
  from_option tasks_processed 0 (performance_metrics k).

Definition module_successes (k : VoidKernel) (mod_name : string) : Z :=
  match performance_metrics k with
  | Some pm => from_option success_count 0 (module_performance pm !! mod_name)
  | None => 0
  end.

(** The events that [_process_task] broadcasts. *)
Definition completed_event (task : AITask) (r : PyVal) (now : Z) : Event :=
  mkEvent "task_completed" (EvCompleted (task_id task) (module task) r) now.

Definition failed_event (task : AITask) (msg : string) (now : Z) : Event :=
  mkEvent "task_failed" (EvFailed (task_id task) (module task) msg) now.

(** An initialised kernel with the module ["forge"] and one idle worker. *)
Definition idle_scenario : list Op :=
  [OpInitialize 0; OpRegister "forge" plain_module; OpSetMaxWorkers 1; OpStart].

(** ** The life cycle of a task *)

(** How far a task has got: queued, held by a worker, finished. *)
Definition status_rank (s : TaskStatus) : nat :=
  match s with
  | PENDING => 0
  | RUNNING | CANCELLED => 1
  | COMPLETED | FAILED => 2
  end.

(** [t'] is a later state of the task object [t]. *)
Definition later_state (t t' : AITask) : Prop :=
  submission t' = submission t
  ∧ (status_rank (status t) ≤ status_rank (status t'))%nat.

(** The task of [pending_scenario] is dispatched and completed. *)
Definition complete_ops : list Op :=
  [OpWorker 0 0 2; OpModuleDone 0 (Returned ok_result) 1 3].

(** * Properties *)

(** ** The priority queue *)

Section PriorityQueue.

Lemma extract_min_perm (q : list QEntry) :
  ∀ e m r, extract_min e q = (m, r) → m :: r ≡ₚ e :: q.
Proof.
  induction q as [|x q IH]; intros e m r; simpl.
  - intros [= <- <-]. done.
  - destruct (entry_ltb x e).
    + destruct (extract_min x q) as [m' r'] eqn:E. intros [= <- <-].
      etrans; [apply Permutation_swap|]. f_equiv. by apply IH.
    + destruct (extract_min e q) as [m' r'] eqn:E. intros [= <- <-].
      etrans; [apply Permutation_swap|]. rewrite (IH _ _ _ E).
      apply Permutation_swap.
Qed.

Lemma entry_ltb_false (a b : QEntry) : entry_ltb a b = false → entry_le b a.
Proof. unfold entry_ltb, entry_le. lia. Qed.

Lemma entry_ltb_true (a b : QEntry) : entry_ltb a b = true → entry_le a b.
Proof. unfold entry_ltb, entry_le. lia. Qed.

Lemma entry_le_trans (a b c : QEntry) : entry_le a b → entry_le b c → entry_le a c.
Proof. unfold entry_le. lia. Qed.

Lemma entry_le_refl (a : QEntry) : entry_le a a.
Proof. unfold entry_le. lia. Qed.

Lemma extract_min_least (q : list QEntry) :
  ∀ e m r, extract_min e q = (m, r) → ∀ x, x ∈ e :: q → entry_le m x.
Proof.
  induction q as [|x q IH]; intros e m r; simpl.
  - intros [= <- <-] y Hy. apply list_elem_of_singleton in Hy as ->.
    apply entry_le_refl.
  - destruct (entry_ltb x e) eqn:Hlt.
    + destruct (extract_min x q) as [m' r'] eqn:E. intros [= <- <-] y Hy.
      apply elem_of_cons in Hy as [-> | Hy].
      * apply entry_le_trans with x; [|by apply entry_ltb_true].
        apply (IH _ _ _ E). left.
      * by apply (IH _ _ _ E).
    + destruct (extract_min e q) as [m' r'] eqn:E. intros [= <- <-] y Hy.
      apply elem_of_cons in Hy as [-> | Hy]; [apply (IH _ _ _ E); left|].
      apply elem_of_cons in Hy as [-> | Hy].
      * apply entry_le_trans with e; [|by apply entry_ltb_false].
        apply (IH _ _ _ E). left.
      * apply (IH _ _ _ E). by right.
Qed.

Lemma PriorityQueue_get_perm (q q' : list QEntry) (e : QEntry) :
  PriorityQueue_get q = Some (e, q') → e :: q' ≡ₚ q.
Proof.
  destruct q as [|x q]; [done|]. simpl. intros [= E].
  by apply extract_min_perm.
Qed.

(** [get] hands out an entry whose priority value is the lowest of the
    queue and, among the entries of that priority, the earliest. *)
Lemma PriorityQueue_get_lowest (q q' : list QEntry) (e : QEntry) :
  PriorityQueue_get q = Some (e, q') → ∀ x, x ∈ q → entry_le e x.
Proof.
  destruct q as [|y q]; [done|]. simpl. intros [= E].
  by apply extract_min_least with (r := q').
Qed.

Lemma PriorityQueue_put_perm (q : list QEntry) (e : QEntry) :
  PriorityQueue_put q e ≡ₚ e :: q.
Proof. unfold PriorityQueue_put. by rewrite Permutation_app_comm. Qed.

End PriorityQueue.

(** ** Dispatch order *)

(** C1 (the code departs from the claim).  With one worker and the tasks
    submitted in the order NORMAL, CRITICAL, LOW, the first task to be RUNNING
    is the LOW one, the NORMAL one follows once LOW is done, and the CRITICAL
    one is dispatched last: the queue hands out the lowest priority value
    first. *)
Theorem dispatch_lowest_priority_value_first :
  let k0 := run VoidKernel_new priority_scenario in
  let k1 := step k0 (OpWorker 0 0 10) in
  let k2 := step (step k1 (OpModuleDone 0 (Returned ok_result) 1 11))
                 (OpWorker 0 0 12) in
  let k3 := step (step k2 (OpModuleDone 0 (Returned ok_result) 1 13))
                 (OpWorker 0 0 14) in
  ops_enabled VoidKernel_new priority_scenario = true
  ∧ (task_status k1 "task-normal", task_status k1 "task-critical",
     task_status k1 "task-low") = (Some PENDING, Some PENDING, Some RUNNING)
  ∧ (task_status k2 "task-normal", task_status k2 "task-critical",
     task_status k2 "task-low") = (Some RUNNING, Some PENDING, Some COMPLETED)
  ∧ (task_status k3 "task-normal", task_status k3 "task-critical",
     task_status k3 "task-low") = (Some COMPLETED, Some RUNNING, Some COMPLETED).
Proof. vm_compute. done. Qed.

(** Whatever the queue holds, the entry handed out has the lowest priority
    value; a CRITICAL task waits behind every task of a lower level. *)
Lemma worker_takes_lowest_priority_value (k : VoidKernel) (e : QEntry)
    (q' : list QEntry) :
  PriorityQueue_get (task_queue k) = Some (e, q') →
  ∀ x, x ∈ task_queue k → q_priority e ≤ q_priority x.
Proof.
  intros Hget x Hx. pose proof (PriorityQueue_get_lowest _ _ _ Hget x Hx) as H.
  unfold entry_le in H. lia.
Qed.

(** Among entries of one priority the earliest submission goes first. *)
Lemma worker_takes_earliest_of_level (k : VoidKernel) (e : QEntry)
    (q' : list QEntry) :
  PriorityQueue_get (task_queue k) = Some (e, q') →
  ∀ x, x ∈ task_queue k → q_priority x = q_priority e →
       q_timestamp e ≤ q_timestamp x.
Proof.
  intros Hget x Hx Hp. pose proof (PriorityQueue_get_lowest _ _ _ Hget x Hx) as H.
  unfold entry_le in H. lia.
Qed.

(** ** The dependency gate *)

Section Dependencies.

Lemma check_dependency_ids_spec (k : VoidKernel) (deps : list string) :
  check_dependency_ids k deps = true
  ↔ ∀ dep_id, dep_id ∈ deps → dependency_completed k dep_id.
Proof.
  unfold dependency_completed.
  induction deps as [|d deps IH]; simpl.
  - split; [|done]. intros _ x Hx. by apply elem_of_nil in Hx.
  - destruct (completed_lookup k d) as [dep|] eqn:Hd.
    + case_bool_decide as Hs.
      * split; [done|]. intros H.
        destruct (H d) as (dep' & Hl & Hc); [left|].
        rewrite Hd in Hl. injection Hl as <-. done.
      * rewrite IH. split.
        -- intros H x Hx. apply elem_of_cons in Hx as [-> | Hx]; [|by apply H].
           exists dep. split; [done|]. by destruct (status dep).
        -- intros H x Hx. apply H. by right.
    + split; [done|]. intros H.
      destruct (H d) as (dep' & Hl & _); [left|]. congruence.
Qed.

Lemma check_dependencies_queue (k : VoidKernel) (q : list QEntry) (task : AITask) :
  _check_dependencies (set_task_queue q k) task = _check_dependencies k task.
Proof.
  unfold _check_dependencies.
  induction (dependencies task) as [|d deps IH]; [done|].
  simpl. rewrite IH. done.
Qed.

End Dependencies.


(** ** Starting the pool *)

Lemma live_replicate_idle (n : nat) :
  length (filter (fun st => Is_true (is_live st)) (replicate n WIdle)) = n.
Proof.
  induction n as [|n IH]; [done|].
  change (replicate (S n) WIdle) with (WIdle :: replicate n WIdle).
  rewrite filter_cons_True by done. simpl. by rewrite IH.
Qed.

(** C9, as the code has it.  [start_monitoring] has no guard: each call adds
    [max_workers] worker loops, one broker loop and one monitor loop to those
    that already run. *)
Theorem start_monitoring_adds_loops (k : VoidKernel) :
  live_workers (start_monitoring k) = (live_workers k + max_workers k)%nat
  ∧ length (worker_tasks (start_monitoring k))
    = (length (worker_tasks k) + max_workers k)%nat
  ∧ broker_loops (start_monitoring k) = S (broker_loops k)
  ∧ monitor_loops (start_monitoring k) = S (monitor_loops k).
Proof.
  unfold start_monitoring, live_workers. simpl.
  rewrite filter_app, !length_app, length_replicate, live_replicate_idle.
  done.
Qed.

(** C9, the claim fails: on an initialised kernel whose pool was started, a
    second [start_monitoring] raises the number of worker loops from 4 to 8
    and starts a second broker and a second monitor. *)
Lemma second_start_doubles_workers :
  let k1 := run VoidKernel_new [OpInitialize 0; OpStart] in
  let k2 := step k1 OpStart in
  live_workers k1 = 4%nat ∧ live_workers k2 = 8%nat
  ∧ live_workers k2 ≠ live_workers k1
  ∧ (broker_loops k1, monitor_loops k1) = (1%nat, 1%nat)
  ∧ (broker_loops k2, monitor_loops k2) = (2%nat, 2%nat).
Proof. vm_compute. repeat split; congruence. Qed.

(** ** Direct commands *)



(** ** Cancellation *)

(** C5, the claim fails: a PENDING task, waiting in the queue, is not in the
    active map; [cancel_task] answers "Task not found or not active", leaves
    the kernel as it was, and the next worker turn dispatches the task. *)
Lemma cancel_pending_task_refused :
  let k := run VoidKernel_new pending_scenario in
  ops_enabled VoidKernel_new pending_scenario = true
  ∧ task_status k "task-q" = Some PENDING
  ∧ execute_command k (cancel_command "task-q")
    = Ok (k, [("error", RStr "Task not found or not active")])
  ∧ task_status (step k (OpCommand (cancel_command "task-q"))) "task-q"
    = Some PENDING
  ∧ task_status (run k [OpCommand (cancel_command "task-q"); OpWorker 0 0 2])
      "task-q" = Some RUNNING.
Proof. vm_compute. done. Qed.

(** C4 (the code departs from the claim).  A task is cancelled while its
    worker awaits the module call: [cancel_task] answers "cancelled" and the
    task is CANCELLED; the worker then overwrites the status with COMPLETED
    when the call returns, or with FAILED when it raises. *)
Theorem cancelled_running_task_overwritten :
  let k0 := run VoidKernel_new running_scenario in
  let k := run VoidKernel_new cancel_running_scenario in
  ops_enabled VoidKernel_new cancel_running_scenario = true
  ∧ task_status k0 "task-x" = Some RUNNING
  ∧ match execute_command k0 (cancel_command "task-x") with
    | Ok (_, resp) => resp = [("status", RStr "cancelled")]
    | Raise _ => False
    end
  ∧ task_status k "task-x" = Some CANCELLED
  ∧ task_status (step k (OpModuleDone 0 (Returned ok_result) 1 3)) "task-x"
    = Some COMPLETED
  ∧ task_status (step k (OpModuleDone 0 (Raised "boom") 1 3)) "task-x"
    = Some FAILED.
Proof. vm_compute. done. Qed.

(** ** Outcome fields and the memory vault on concrete runs *)

(** C7 (the code departs from the claim).  A task with [user_id] and
    [project_id] completes: the vault gets an entry for the user, with the
    summary of the result, and no entry for the project. *)
Theorem project_entry_not_written :
  let k := run VoidKernel_new context_keys_scenario in
  ops_enabled VoidKernel_new context_keys_scenario = true
  ∧ task_status k "task-ctx" = Some COMPLETED
  ∧ memory_vault k !! "user-1"
    = Some [mkVaultRecord "task-ctx" "forge" "build"
              (mkResultSummary (VStr "build") (VStr "success") ["type"; "status"])
              1]
  ∧ memory_vault k !! "project-1" = None.
Proof. vm_compute. done. Qed.

(** C8 (the code departs from the claim).  The module call returns a list;
    the result is stored and the task set COMPLETED, then the summary of the
    result raises inside the same [try], and the handler sets FAILED and the
    error: the task ends with both fields populated. *)
Theorem result_and_error_both_set :
  let k := run VoidKernel_new list_result_scenario in
  ops_enabled VoidKernel_new list_result_scenario = true
  ∧ (status <$> tasks k !! "task-perf") = Some FAILED
  ∧ (result <$> tasks k !! "task-perf") = Some analyze_performance_result
  ∧ (error <$> tasks k !! "task-perf")
    = Some (Some "'list' object has no attribute 'get'")
  ∧ "task-perf" ∈ completed_tasks k.
Proof. vm_compute. repeat split; try done. left. Qed.

(** ** Eviction from the completed map *)

Section Eviction.

Variable key : string → Z.

Lemma insert_by_key_perm (x : string) (l : list string) :
  insert_by_key key x l ≡ₚ x :: l.
Proof.
  induction l as [|y l IH]; simpl; [done|].
  destruct (key x <=? key y); [done|].
  rewrite IH. apply Permutation_swap.
Qed.

Lemma sorted_by_key_perm (l : list string) : sorted_by_key key l ≡ₚ l.
Proof.
  induction l as [|x l IH]; simpl; [done|].
  by rewrite insert_by_key_perm, IH.
Qed.

Lemma insert_by_key_sorted (x : string) (l : list string) :
  StronglySorted (key_le key) l →
  StronglySorted (key_le key) (insert_by_key key x l).
Proof.
  induction l as [|y l IH]; simpl; intros Hs.
  - repeat constructor.
  - apply StronglySorted_cons in Hs as [Hy Hs].
    destruct (key x <=? key y) eqn:Hxy.
    + apply Z.leb_le in Hxy. constructor; [by constructor|].
      constructor; [done|].
      eapply Forall_impl; [exact Hy|]. unfold key_le. intros z Hz. lia.
    + apply Z.leb_gt in Hxy. constructor; [by apply IH|].
      rewrite insert_by_key_perm. constructor; [|done].
      unfold key_le. lia.
Qed.

Lemma sorted_by_key_sorted (l : list string) :
  StronglySorted (key_le key) (sorted_by_key key l).
Proof.
  induction l as [|x l IH]; simpl; [constructor|].
  by apply insert_by_key_sorted.
Qed.

(** The first [n] keys of the sorted list are no younger than any other
    key of the list. *)
Lemma sorted_prefix_oldest (n : nat) (l : list string) (a b : string) :
  a ∈ take n (sorted_by_key key l) →
  b ∈ l → b ∉ take n (sorted_by_key key l) →
  key a ≤ key b.
Proof.
  intros Ha Hb Hnb.
  pose proof (sorted_by_key_sorted l) as Hs.
  rewrite <- (take_drop n (sorted_by_key key l)) in Hs.
  apply (StronglySorted_app_1_elem_of _ _ _ a b Hs Ha).
  rewrite <- (sorted_by_key_perm l), <- (take_drop n (sorted_by_key key l)) in Hb.
  apply elem_of_app in Hb as [Hb | Hb]; [done|done].
Qed.

End Eviction.

Section Cleanup.

Variable k : VoidKernel.

Lemma oldest_tasks_subset (l : list string) (x : string) :
  x ∈ oldest_tasks k l → x ∈ l.
Proof.
  unfold oldest_tasks. intros Hx.
  rewrite <- (sorted_by_key_perm (task_created_at k) l).
  by eapply subseteq_take.
Qed.

Lemma oldest_tasks_length (l : list string) :
  (eviction_count ≤ length l)%nat →
  length (oldest_tasks k l) = eviction_count.
Proof.
  intros H. unfold oldest_tasks.
  rewrite length_take, (Permutation_length (sorted_by_key_perm _ l)). lia.
Qed.

Lemma oldest_tasks_NoDup (l : list string) :
  NoDup l → NoDup (oldest_tasks k l).
Proof.
  intros H. unfold oldest_tasks.
  eapply sublist_NoDup; [|apply sublist_take].
  by rewrite sorted_by_key_perm.
Qed.

Lemma length_filter_complement (l ev : list string) :
  NoDup l → NoDup ev → (∀ x, x ∈ ev → x ∈ l) →
  (length (filter (fun x => x ∉ ev) l) + length ev = length l)%nat.
Proof.
  intros Hl Hev Hsub.
  rewrite <- (Permutation_length (filter_app_complement (fun x => x ∈ ev) l)).
  rewrite length_app.
  assert (filter (fun x => x ∈ ev) l ≡ₚ ev) as Hp.
  { apply NoDup_Permutation; [by apply NoDup_filter|done|].
    intros x. rewrite list_elem_of_filter. split; [tauto | auto]. }
  rewrite (Permutation_length Hp). lia.
Qed.

Lemma cleanup_completed_small (l : list string) :
  (length l ≤ completed_capacity)%nat → cleanup_completed k l = l.
Proof.
  intros H. unfold cleanup_completed.
  destruct (completed_capacity <? length l)%nat eqn:E; [|done].
  apply Nat.ltb_lt in E. lia.
Qed.

Lemma cleanup_completed_large (l : list string) :
  (completed_capacity < length l)%nat →
  cleanup_completed k l = filter (fun tid => tid ∉ oldest_tasks k l) l.
Proof.
  intros H. unfold cleanup_completed.
  destruct (completed_capacity <? length l)%nat eqn:E; [done|].
  apply Nat.ltb_ge in E. lia.
Qed.

Lemma cleanup_completed_length (l : list string) :
  NoDup l → (completed_capacity < length l)%nat →
  (length (cleanup_completed k l) + eviction_count = length l)%nat.
Proof.
  intros Hl H. rewrite cleanup_completed_large by done.
  assert (eviction_count ≤ length l)%nat as Hle
    by (unfold eviction_count, completed_capacity in *; lia).
  rewrite <- (oldest_tasks_length l Hle) at 1.
  apply length_filter_complement;
    [done | by apply oldest_tasks_NoDup | apply oldest_tasks_subset].
Qed.

Lemma cleanup_completed_NoDup (l : list string) :
  NoDup l → NoDup (cleanup_completed k l).
Proof.
  intros Hl. unfold cleanup_completed.
  destruct (completed_capacity <? length l)%nat; [|done].
  by apply NoDup_filter.
Qed.

Lemma cleanup_completed_subset (l : list string) (x : string) :
  x ∈ cleanup_completed k l → x ∈ l.
Proof.
  unfold cleanup_completed.
  destruct (completed_capacity <? length l)%nat; [|done].
  rewrite list_elem_of_filter. tauto.
Qed.

Lemma completed_set_NoDup (tid : string) (l : list string) :
  NoDup l → NoDup (completed_set tid l).
Proof.
  intros Hl. unfold completed_set. case_bool_decide; [done|].
  apply NoDup_app. split; [done|]. split; [|apply NoDup_singleton].
  intros x Hx Hx'. apply list_elem_of_singleton in Hx' as ->. done.
Qed.

Lemma completed_set_length (tid : string) (l : list string) :
  (length (completed_set tid l) ≤ S (length l))%nat.
Proof.
  unfold completed_set. case_bool_decide; [lia|].
  rewrite length_app. simpl. lia.
Qed.

Lemma completed_set_elem (tid : string) (l : list string) :
  tid ∈ completed_set tid l.
Proof.
  unfold completed_set. case_bool_decide; [done|].
  apply elem_of_app. right. left.
Qed.

(** The size after an insertion followed by the cleanup stays within the
    capacity. *)
Lemma cleanup_completed_bound (tid : string) (l : list string) :
  NoDup l → (length l ≤ completed_capacity)%nat →
  (length (cleanup_completed k (completed_set tid l)) ≤ completed_capacity)%nat.
Proof.
  intros Hl Hlen.
  pose proof (completed_set_length tid l) as Hs.
  destruct (decide (length (completed_set tid l) ≤ completed_capacity)%nat) as [Hc|Hc].
  - by rewrite cleanup_completed_small.
  - pose proof (cleanup_completed_length (completed_set tid l)
                  (completed_set_NoDup tid l Hl)) as H.
    unfold eviction_count, completed_capacity in *. lia.
Qed.

End Cleanup.

(** ** The effect of each operation on the scheduling core *)

Section Frames.

Lemma core_broadcast_event (k : VoidKernel) (ty : string) (d : EventData) (now : Z) :
  core (_broadcast_event k ty d now) = core k.
Proof. done. Qed.

Lemma core_update_memory_vault (k : VoidKernel) (task : AITask) (r : PyVal) :
  core (_update_memory_vault k task r).1 = core k.
Proof.
  unfold _update_memory_vault.
  destruct (user_id task); [|done].
  destruct (truthy_str _); [|done].
  destruct (_summarize_result r); reflexivity.
Qed.

Lemma core_update_performance_metrics (k : VoidKernel) (m : string) (pt : Z)
    (ok : bool) :
  core (_update_performance_metrics k m pt ok).1 = core k.
Proof.
  unfold _update_performance_metrics, core, has_metrics.
  destruct (performance_metrics k) eqn:E; simpl; rewrite ?E; reflexivity.
Qed.

Lemma core_update_task (k : VoidKernel) (f : AITask → AITask) (tid : string) :
  core (update_task f tid k)
  = mkCore (alter f tid (tasks k)) (task_queue k) (active_tasks k)
      (worker_tasks k) (completed_tasks k) (is_running k)
      (has_metrics k).
Proof. done. Qed.

Lemma core_process_task_except (k : VoidKernel) (task : AITask) (msg : string)
    (elapsed now : Z) :
  core (_process_task_except k task msg elapsed now).1
  = mkCore (alter (set_error msg ∘ set_status FAILED) (task_id task) (tasks k))
      (task_queue k) (active_tasks k) (worker_tasks k) (completed_tasks k)
      (is_running k) (has_metrics k).
Proof.
  unfold _process_task_except.
  set (k2 := update_task (set_error msg) (task_id task)
               (update_task (set_status FAILED) (task_id task) k)).
  pose proof (core_update_performance_metrics k2 (module task) elapsed false) as H.
  destruct (_update_performance_metrics k2 (module task) elapsed false) as [k3 [e|]];
    simpl in *.
  - rewrite H. unfold k2, core. simpl. by rewrite alter_alter_eq.
  - rewrite core_broadcast_event, H. unfold k2, core. simpl.
    by rewrite alter_alter_eq.
Qed.

Lemma core_process_task_store (k : VoidKernel) (task : AITask) (r : PyVal)
    (elapsed now : Z) :
  core (_process_task_store k task r elapsed now).1
  = mkCore (alter (set_status COMPLETED ∘ set_result r) (task_id task) (tasks k))
      (task_queue k) (active_tasks k) (worker_tasks k) (completed_tasks k)
      (is_running k) (has_metrics k).
Proof.
  unfold _process_task_store.
  set (k2 := update_task (set_status COMPLETED) (task_id task)
               (update_task (set_result r) (task_id task) k)).
  pose proof (core_update_memory_vault k2 task r) as H.
  destruct (_update_memory_vault k2 task r) as [k3 [e|]]; simpl in *.
  - rewrite H. unfold k2, core. simpl. by rewrite alter_alter_eq.
  - rewrite core_update_performance_metrics, core_broadcast_event, H.
    unfold k2, core. simpl. by rewrite alter_alter_eq.
Qed.

Lemma core_set_worker (k : VoidKernel) (w : nat) (st : Worker) :
  core (set_worker w st k)
  = mkCore (tasks k) (task_queue k) (active_tasks k)
      (<[w := st]> (worker_tasks k)) (completed_tasks k) (is_running k)
      (has_metrics k).
Proof. done. Qed.

Lemma core_process_task_finally (k : VoidKernel) (task : AITask) :
  core (_process_task_finally k task)
  = mkCore (tasks k) (task_queue k) (active_tasks k ∖ {[task_id task]})
      (worker_tasks k)
      (cleanup_completed k (completed_set (task_id task) (completed_tasks k)))
      (is_running k) (has_metrics k).
Proof. done. Qed.

End Frames.

(** ** The entries that workers hold *)

Section Held.

Lemma held_entries_elem (W : list Worker) (e : QEntry) :
  e ∈ held_entries W ↔ ∃ w, W !! w = Some (WTaken e).
Proof.
  unfold held_entries. rewrite list_elem_of_bind. split.
  - intros (st & He & Hst).
    destruct st; simpl in He; try (by apply elem_of_nil in He).
    apply list_elem_of_singleton in He as ->.
    by apply list_elem_of_lookup in Hst.
  - intros (w & Hw). exists (WTaken e).
    split; [simpl; left|by eapply list_elem_of_lookup_2].
Qed.

(** A worker that changes its state gives up the entry it held and holds
    the entry of its new state. *)
Lemma held_entries_insert (W : list Worker) (w : nat) (st st' : Worker) :
  W !! w = Some st →
  held_of st ++ held_entries (<[w := st']> W) ≡ₚ held_of st' ++ held_entries W.
Proof.
  revert w. induction W as [|x W IH]; intros w Hw; [done|].
  unfold held_entries in *. destruct w as [|w]; simpl in Hw.
  - injection Hw as ->. cbn [insert list_insert]. rewrite !bind_cons.
    apply Permutation_app_swap_app.
  - cbn [insert list_insert]. rewrite !bind_cons.
    rewrite Permutation_app_swap_app, (IH w Hw).
    apply Permutation_app_swap_app.
Qed.

Lemma held_entries_insert_none (W : list Worker) (w : nat) (st st' : Worker) :
  W !! w = Some st → held_of st = [] → held_of st' = [] →
  held_entries (<[w := st']> W) ≡ₚ held_entries W.
Proof.
  intros Hw H1 H2. pose proof (held_entries_insert W w st st' Hw) as H.
  by rewrite H1, H2 in H.
Qed.

Lemma held_entries_start (W : list Worker) (n : nat) :
  held_entries (W ++ replicate n WIdle) = held_entries W.
Proof.
  unfold held_entries. rewrite bind_app.
  assert (replicate n WIdle ≫= held_of = []) as ->.
  { induction n as [|n IH]; [done|]. cbn [replicate]. by rewrite bind_cons, IH. }
  by rewrite (right_id_L [] (++)).
Qed.

Lemma held_entries_stop (W : list Worker) (r : bool) :
  held_entries (stop_worker r <$> W) = held_entries W.
Proof.
  unfold held_entries. induction W as [|x W IH]; [done|].
  rewrite fmap_cons, !bind_cons, IH. by destruct x, r.
Qed.

Lemma stop_worker_not_await (W : list Worker) (r : bool) (w : nat)
    (inv : Invocation) :
  (stop_worker r <$> W) !! w ≠ Some (WAwait inv).
Proof.
  rewrite list_lookup_fmap. destruct (W !! w) as [[]|]; simpl; try done.
  by destruct r.
Qed.

End Held.

(** ** Preservation of the scheduling invariant *)

Section SchedInv.

Variables (T : gmap string AITask) (Q : list QEntry) (A : gset string)
          (W : list Worker).
Hypothesis Hinv : sched_inv T Q A W.

(** A queued task is not awaited by any worker. *)
Lemma queued_not_awaited (e : QEntry) (w : nat) (inv : Invocation) :
  e ∈ Q → W !! w = Some (WAwait inv) → task_id (inv_task inv) ≠ q_task e.
Proof.
  intros He Hw Heq.
  destruct (si_queue _ _ _ _ Hinv e He) as (t & Ht & Hs).
  destruct (si_flight _ _ _ _ Hinv w inv Hw) as (t' & Ht' & Hs').
  rewrite Heq, Ht in Ht'. injection Ht' as <-.
  destruct Hs'; congruence.
Qed.

Lemma alter_keys (f : AITask → AITask) (tid : string) :
  (∀ t, task_id (f t) = task_id t) →
  ∀ tid' t', alter f tid T !! tid' = Some t' → task_id t' = tid'.
Proof.
  intros Hf tid' t'. destruct (decide (tid = tid')) as [<-|Hne].
  - rewrite lookup_alter_eq. destruct (T !! tid) as [t|] eqn:Ht; [|done].
    intros [= <-]. rewrite Hf. by apply (si_keys _ _ _ _ Hinv).
  - rewrite lookup_alter_ne by done. apply (si_keys _ _ _ _ Hinv).
Qed.

(** A write to a task that some worker awaits, as [cancel_task] does. *)
Lemma sched_inv_alter_awaited (f : AITask → AITask) (tid : string) :
  (∀ t, task_id (f t) = task_id t) →
  (∀ t, executing (status (f t))) →
  in_flight W tid →
  sched_inv (alter f tid T) Q A W.
Proof.
  intros Hf Hex (w & inv & Hw & Hid). split.
  - by apply alter_keys.
  - intros e He. destruct (si_queue _ _ _ _ Hinv e He) as (t & Ht & Hs).
    exists t. split; [|done]. rewrite lookup_alter_ne; [done|].
    rewrite <- Hid. by eapply queued_not_awaited.
  - apply (si_queue_nodup _ _ _ _ Hinv).
  - apply (si_active _ _ _ _ Hinv).
  - intros w' inv' Hw'.
    destruct (si_flight _ _ _ _ Hinv w' inv' Hw') as (t & Ht & Hs).
    destruct (decide (tid = task_id (inv_task inv'))) as [->|Hne].
    + exists (f t). by rewrite lookup_alter_eq, Ht.
    + exists t. by rewrite lookup_alter_ne.
  - apply (si_flight_inj _ _ _ _ Hinv).
Qed.

(** [submit_task] with a fresh identifier. *)
Lemma sched_inv_submit (t : AITask) (e : QEntry) :
  T !! task_id t = None → status t = PENDING → q_task e = task_id t →
  sched_inv (<[task_id t := t]> T) (PriorityQueue_put Q e) A W.
Proof.
  intros Hfresh Hs He. unfold PriorityQueue_put. split.
  - intros tid t'. destruct (decide (task_id t = tid)) as [<-|Hne].
    + rewrite lookup_insert_eq. by intros [= <-].
    + rewrite lookup_insert_ne by done. apply (si_keys _ _ _ _ Hinv).
  - intros e' He'. apply elem_of_app in He' as [He'|He'].
    + destruct (si_queue _ _ _ _ Hinv e' He') as (t' & Ht' & Hs').
      exists t'. split; [|done]. rewrite lookup_insert_ne; [done|].
      intros Heq. congruence.
    + apply list_elem_of_singleton in He' as ->. exists t.
      by rewrite He, lookup_insert_eq.
  - rewrite fmap_app. apply NoDup_app. split; [apply (si_queue_nodup _ _ _ _ Hinv)|].
    split; [|apply NoDup_singleton].
    intros tid Htid Htid'. simpl in Htid'.
    apply list_elem_of_singleton in Htid' as ->.
    apply list_elem_of_fmap in Htid as (e' & He'q & He').
    destruct (si_queue _ _ _ _ Hinv e' He') as (t' & Ht' & _). congruence.
  - apply (si_active _ _ _ _ Hinv).
  - intros w inv Hw.
    destruct (si_flight _ _ _ _ Hinv w inv Hw) as (t' & Ht' & Hs').
    exists t'. split; [|done]. rewrite lookup_insert_ne; [done|]. congruence.
  - apply (si_flight_inj _ _ _ _ Hinv).
Qed.

(** The queue may be rearranged. *)
Lemma sched_inv_queue_perm (Q' : list QEntry) :
  Q' ≡ₚ Q → sched_inv T Q' A W.
Proof.
  intros Hp. split.
  - apply (si_keys _ _ _ _ Hinv).
  - intros e He. rewrite Hp in He. by apply (si_queue _ _ _ _ Hinv).
  - rewrite Hp. apply (si_queue_nodup _ _ _ _ Hinv).
  - apply (si_active _ _ _ _ Hinv).
  - apply (si_flight _ _ _ _ Hinv).
  - apply (si_flight_inj _ _ _ _ Hinv).
Qed.

(** A worker that awaits nothing is not the worker that awaits [inv']. *)
Lemma not_awaiting_ne (w w' : nat) (st : Worker) (inv' : Invocation) :
  W !! w = Some st → (∀ i, st ≠ WAwait i) → W !! w' = Some (WAwait inv') →
  w ≠ w'.
Proof. intros Hw Hst Hw' <-. rewrite Hw in Hw'. injection Hw' as ->. by eapply Hst. Qed.

(** The entry [e] leaves the queue and worker [w], which awaited nothing,
    starts to await the module call of its task. *)
Lemma sched_inv_dispatch (f : AITask → AITask) (e : QEntry)
    (q' : list QEntry) (w : nat) (st : Worker) (inv : Invocation) :
  e :: q' ≡ₚ Q →
  W !! w = Some st → (∀ i, st ≠ WAwait i) →
  task_id (inv_task inv) = q_task e →
  (∀ t, task_id (f t) = task_id t) →
  (∀ t, executing (status (f t))) →
  sched_inv (alter f (q_task e) T) q' ({[q_task e]} ∪ A) (<[w := WAwait inv]> W).
Proof.
  intros Hp Hw Hst Hid Hf Hex.
  assert (e ∈ Q) as He by (rewrite <- Hp; left).
  assert (NoDup (q_task <$> (e :: q'))) as Hnd.
  { rewrite Hp. apply (si_queue_nodup _ _ _ _ Hinv). }
  rewrite fmap_cons in Hnd.
  apply NoDup_cons in Hnd as [Hnotin Hnd].
  assert (w < length W)%nat as Hlt by (by eapply lookup_lt_Some).
  split.
  - by apply alter_keys.
  - intros e' He'.
    destruct (si_queue _ _ _ _ Hinv e') as (t & Ht & Hs);
      [rewrite <- Hp; by right|].
    exists t. split; [|done]. rewrite lookup_alter_ne; [done|].
    intros Heq. apply Hnotin. rewrite Heq. apply list_elem_of_fmap. eauto.
  - done.
  - intros tid Htid. apply elem_of_union in Htid as [Htid|Htid].
    + apply elem_of_singleton in Htid as ->. exists w, inv.
      by rewrite list_lookup_insert_eq.
    + destruct (si_active _ _ _ _ Hinv tid Htid) as (w' & inv' & Hw' & Hid').
      exists w', inv'. split; [|done].
      rewrite list_lookup_insert_ne; [done|]. by eapply not_awaiting_ne.
  - intros w' inv' Hw'. destruct (decide (w = w')) as [<-|Hne].
    + rewrite list_lookup_insert_eq in Hw' by done. injection Hw' as <-.
      destruct (si_queue _ _ _ _ Hinv e He) as (t & Ht & _).
      exists (f t). by rewrite Hid, lookup_alter_eq, Ht.
    + rewrite list_lookup_insert_ne in Hw' by done.
      destruct (si_flight _ _ _ _ Hinv w' inv' Hw') as (t & Ht & Hs).
      exists t. split; [|done]. rewrite lookup_alter_ne; [done|].
      intros Heq. by eapply queued_not_awaited.
  - intros w1 w2 inv1 inv2 H1 H2 Heq.
    destruct (decide (w = w1)) as [<-|Hne1], (decide (w = w2)) as [<-|Hne2];
      [done| | |].
    + rewrite list_lookup_insert_eq in H1 by done. injection H1 as <-.
      rewrite list_lookup_insert_ne in H2 by done.
      exfalso. eapply queued_not_awaited; [exact He|exact H2|congruence].
    + rewrite list_lookup_insert_eq in H2 by done. injection H2 as <-.
      rewrite list_lookup_insert_ne in H1 by done.
      exfalso. eapply queued_not_awaited; [exact He|exact H1|congruence].
    + rewrite list_lookup_insert_ne in H1, H2 by done.
      by eapply (si_flight_inj _ _ _ _ Hinv).
Qed.

(** The entry [e] leaves the queue and its task is processed to the end
    without awaiting anything (unknown module). *)
Lemma sched_inv_dispatch_fail (f : AITask → AITask) (e : QEntry)
    (q' : list QEntry) :
  e :: q' ≡ₚ Q →
  (∀ t, task_id (f t) = task_id t) →
  sched_inv (alter f (q_task e) T) q' (({[q_task e]} ∪ A) ∖ {[q_task e]}) W.
Proof.
  intros Hp Hf.
  assert (e ∈ Q) as He by (rewrite <- Hp; left).
  assert (NoDup (q_task <$> (e :: q'))) as Hnd.
  { rewrite Hp. apply (si_queue_nodup _ _ _ _ Hinv). }
  rewrite fmap_cons in Hnd.
  apply NoDup_cons in Hnd as [Hnotin Hnd].
  split.
  - by apply alter_keys.
  - intros e' He'.
    destruct (si_queue _ _ _ _ Hinv e') as (t & Ht & Hs);
      [rewrite <- Hp; by right|].
    exists t. split; [|done]. rewrite lookup_alter_ne; [done|].
    intros Heq. apply Hnotin. rewrite Heq. apply list_elem_of_fmap. eauto.
  - done.
  - intros tid Htid. apply (si_active _ _ _ _ Hinv).
    apply elem_of_difference in Htid as [Htid Hne].
    apply elem_of_union in Htid as [Htid|Htid]; done.
  - intros w' inv' Hw'.
    destruct (si_flight _ _ _ _ Hinv w' inv' Hw') as (t & Ht & Hs).
    exists t. split; [|done]. rewrite lookup_alter_ne; [done|].
    intros Heq. by eapply queued_not_awaited.
  - apply (si_flight_inj _ _ _ _ Hinv).
Qed.

(** Worker [w] stops awaiting [inv]: its task leaves the active set, the
    worker goes to [st], a state in which it awaits nothing. *)
Lemma sched_inv_release (f : AITask → AITask) (w : nat) (inv : Invocation)
    (st : Worker) :
  W !! w = Some (WAwait inv) →
  (∀ inv', st ≠ WAwait inv') →
  (∀ t, task_id (f t) = task_id t) →
  sched_inv (alter f (task_id (inv_task inv)) T) Q
    (A ∖ {[task_id (inv_task inv)]}) (<[w := st]> W).
Proof.
  intros Hw Hst Hf.
  assert (w < length W)%nat as Hlt by (by eapply lookup_lt_Some).
  assert (∀ w' inv', <[w := st]> W !! w' = Some (WAwait inv') →
            w ≠ w' ∧ W !! w' = Some (WAwait inv')) as Hother.
  { intros w' inv' Hw'. destruct (decide (w = w')) as [<-|Hne].
    - rewrite list_lookup_insert_eq in Hw' by done. injection Hw' as ->.
      by destruct (Hst inv').
    - by rewrite list_lookup_insert_ne in Hw' by done. }
  split.
  - by apply alter_keys.
  - intros e He. destruct (si_queue _ _ _ _ Hinv e He) as (t & Ht & Hs).
    exists t. split; [|done]. rewrite lookup_alter_ne; [done|].
    by eapply queued_not_awaited.
  - apply (si_queue_nodup _ _ _ _ Hinv).
  - intros tid Htid. apply elem_of_difference in Htid as [Htid Hne].
    destruct (si_active _ _ _ _ Hinv tid Htid) as (w' & inv' & Hw' & Hid').
    exists w', inv'. split; [|done].
    rewrite list_lookup_insert_ne; [done|].
    intros <-. rewrite Hw in Hw'. injection Hw' as <-. set_solver.
  - intros w' inv' Hw'. apply Hother in Hw' as [Hne Hw'].
    destruct (si_flight _ _ _ _ Hinv w' inv' Hw') as (t & Ht & Hs).
    exists t. split; [|done]. rewrite lookup_alter_ne; [done|].
    intros Heq. apply Hne. by eapply (si_flight_inj _ _ _ _ Hinv).
  - intros w1 w2 inv1 inv2 H1 H2.
    apply Hother in H1 as [_ H1]. apply Hother in H2 as [_ H2].
    by eapply (si_flight_inj _ _ _ _ Hinv).
Qed.

(** A worker that awaits nothing changes to another such state. *)
Lemma sched_inv_idle (w : nat) (st0 st : Worker) :
  W !! w = Some st0 → (∀ i, st0 ≠ WAwait i) →
  (∀ inv', st ≠ WAwait inv') →
  sched_inv T Q A (<[w := st]> W).
Proof.
  intros Hw Hst0 Hst.
  assert (w < length W)%nat as Hlt by (by eapply lookup_lt_Some).
  assert (∀ w' inv', <[w := st]> W !! w' = Some (WAwait inv') →
            W !! w' = Some (WAwait inv')) as Hother.
  { intros w' inv' Hw'. destruct (decide (w = w')) as [<-|Hne].
    - rewrite list_lookup_insert_eq in Hw' by done. injection Hw' as ->.
      by destruct (Hst inv').
    - by rewrite list_lookup_insert_ne in Hw' by done. }
  split.
  - apply (si_keys _ _ _ _ Hinv).
  - apply (si_queue _ _ _ _ Hinv).
  - apply (si_queue_nodup _ _ _ _ Hinv).
  - intros tid Htid.
    destruct (si_active _ _ _ _ Hinv tid Htid) as (w' & inv' & Hw' & Hid').
    exists w', inv'. split; [|done].
    rewrite list_lookup_insert_ne; [done|]. by eapply not_awaiting_ne.
  - intros w' inv' Hw'. apply Hother in Hw'. by apply (si_flight _ _ _ _ Hinv w').
  - intros w1 w2 inv1 inv2 H1 H2.
    apply Hother in H1. apply Hother in H2.
    by eapply (si_flight_inj _ _ _ _ Hinv).
Qed.

(** [start_monitoring] adds idle workers. *)
Lemma sched_inv_start (n : nat) :
  sched_inv T Q A (W ++ replicate n WIdle)%list.
Proof.
  assert (∀ w inv, (W ++ replicate n WIdle)%list !! w = Some (WAwait inv) →
            W !! w = Some (WAwait inv)) as Hold.
  { intros w inv Hw. apply lookup_app_Some in Hw as [Hw|[_ Hw]]; [done|].
    apply lookup_replicate in Hw as [? _]. done. }
  split.
  - apply (si_keys _ _ _ _ Hinv).
  - apply (si_queue _ _ _ _ Hinv).
  - apply (si_queue_nodup _ _ _ _ Hinv).
  - intros tid Htid.
    destruct (si_active _ _ _ _ Hinv tid Htid) as (w' & inv' & Hw' & Hid').
    exists w', inv'. split; [|done]. by apply lookup_app_l_Some.
  - intros w inv Hw. apply Hold in Hw. by apply (si_flight _ _ _ _ Hinv w).
  - intros w1 w2 inv1 inv2 H1 H2. apply Hold in H1. apply Hold in H2.
    by eapply (si_flight_inj _ _ _ _ Hinv).
Qed.

(** [shutdown]: no worker awaits a module call any more and the tasks that
    were awaited have left the active set. *)
Lemma sched_inv_shutdown (A' : gset string) (W' : list Worker) :
  (∀ tid, tid ∈ A' → tid ∈ A ∧ tid ∉ awaited_ids W) →
  (∀ w inv, W' !! w ≠ Some (WAwait inv)) →
  sched_inv T Q A' W'.
Proof.
  intros HA' HW'. split.
  - apply (si_keys _ _ _ _ Hinv).
  - apply (si_queue _ _ _ _ Hinv).
  - apply (si_queue_nodup _ _ _ _ Hinv).
  - intros tid Htid. apply HA' in Htid as [Htid Hnot]. exfalso. apply Hnot.
    destruct (si_active _ _ _ _ Hinv tid Htid) as (w' & inv' & Hw' & Hid').
    unfold awaited_ids. apply list_elem_of_omap.
    exists (WAwait inv'). split; [by eapply list_elem_of_lookup_2|].
    by rewrite Hid'.
  - intros w inv Hw. by destruct (HW' w inv).
  - intros w w' inv inv' Hw. by destruct (HW' w inv).
Qed.

End SchedInv.

(** ** The invariant holds in every reachable state *)

(** Rewrites the fields of a kernel whose core is known from [H]. *)
Ltac core_rewrite H :=
  let go p :=
    (let Hx := fresh in
     pose proof (f_equal p H) as Hx;
     cbn [c_tasks c_queue c_active c_workers c_completed c_running c_metrics
          core] in Hx;
     rewrite ?Hx; clear Hx) in
  go c_tasks; go c_queue; go c_active; go c_workers; go c_completed;
  go c_running; go c_metrics.

Section KernelInv.

Lemma keeps_submission_identity (f : AITask → AITask) :
  keeps_submission f → keeps_identity f.
Proof.
  intros Hf t. specialize (Hf t). unfold submission in Hf.
  by simplify_eq.
Qed.

(** The net effect of [_process_task_resume] on the core when the module
    call returns or raises an [Exception]: one write to the task, which ends
    COMPLETED or FAILED; the task leaves the active set and enters the
    completed map, which is then cleaned up. *)
Lemma core_process_task_resume_submission (k : VoidKernel) (task : AITask)
    (o : Outcome) (elapsed now : Z) :
  o ≠ Escaped →
  ∃ f kc,
    keeps_submission f
    ∧ (∀ t, status (f t) = COMPLETED ∨ status (f t) = FAILED)
    ∧ core (_process_task_resume k task o elapsed now)
      = mkCore (alter f (task_id task) (tasks k)) (task_queue k)
          (active_tasks k ∖ {[task_id task]}) (worker_tasks k)
          (cleanup_completed kc
             (completed_set (task_id task) (completed_tasks k)))
          (is_running k) (has_metrics k).
Proof.
  intros Ho. unfold _process_task_resume. rewrite core_process_task_finally.
  destruct o as [r|msg|]; simpl; [| |done].
  - pose proof (core_process_task_store k task r elapsed now) as Hs.
    destruct (_process_task_store k task r elapsed now) as [k1 [msg|]];
      simpl in *.
    + pose proof (core_process_task_except k1 task msg elapsed now) as He.
      eexists (set_error msg ∘ set_status FAILED
               ∘ (set_status COMPLETED ∘ set_result r)), _.
      split; [done|]. split; [by right|].
      core_rewrite He. core_rewrite Hs. by rewrite alter_alter_eq.
    + eexists (set_status COMPLETED ∘ set_result r), _.
      split; [done|]. split; [by left|]. by core_rewrite Hs.
  - pose proof (core_process_task_except k task msg elapsed now) as He.
    eexists (set_error msg ∘ set_status FAILED), _.
    split; [done|]. split; [by right|]. by core_rewrite He.
Qed.

Lemma core_process_task_resume (k : VoidKernel) (task : AITask) (o : Outcome)
    (elapsed now : Z) :
  o ≠ Escaped →
  ∃ f kc,
    keeps_identity f
    ∧ (∀ t, status (f t) = COMPLETED ∨ status (f t) = FAILED)
    ∧ core (_process_task_resume k task o elapsed now)
      = mkCore (alter f (task_id task) (tasks k)) (task_queue k)
          (active_tasks k ∖ {[task_id task]}) (worker_tasks k)
          (cleanup_completed kc
             (completed_set (task_id task) (completed_tasks k)))
          (is_running k) (has_metrics k).
Proof.
  intros Ho.
  destruct (core_process_task_resume_submission k task o elapsed now Ho)
    as (f & kc & Hf & Hfin & Hcore).
  exists f, kc. split; [by apply keeps_submission_identity|done].
Qed.

(** A module call that ends in a [BaseException] leaves the [finally]
    block only. *)
Lemma process_task_resume_escaped (k : VoidKernel) (task : AITask)
    (elapsed now : Z) :
  _process_task_resume k task Escaped elapsed now = _process_task_finally k task.
Proof. done. Qed.

Lemma cleanup_completed_ok (kc : VoidKernel) (tid : string) (l : list string) :
  NoDup l → (length l ≤ completed_capacity)%nat →
  NoDup (cleanup_completed kc (completed_set tid l))
  ∧ (length (cleanup_completed kc (completed_set tid l)) ≤ completed_capacity)%nat.
Proof.
  intros Hnd Hlen. split.
  - by apply cleanup_completed_NoDup, completed_set_NoDup.
  - by apply cleanup_completed_bound.
Qed.

Lemma completed_stored_alter (T : gmap string AITask) (C : list string)
    (f : AITask → AITask) (tid : string) :
  completed_stored T C → completed_stored (alter f tid T) C.
Proof. intros H x Hx. apply lookup_alter_is_Some. by apply H. Qed.

Lemma completed_stored_insert (T : gmap string AITask) (C : list string)
    (t : AITask) (tid : string) :
  completed_stored T C → completed_stored (<[tid := t]> T) C.
Proof.
  intros H x Hx. apply lookup_insert_is_Some'. right. by apply H.
Qed.

Lemma completed_stored_cleanup (T : gmap string AITask) (C : list string)
    (kc : VoidKernel) (tid : string) :
  completed_stored T C → is_Some (T !! tid) →
  completed_stored T (cleanup_completed kc (completed_set tid C)).
Proof.
  intros H Htid x Hx. apply cleanup_completed_subset in Hx.
  unfold completed_set in Hx. case_bool_decide; [by apply H|].
  apply elem_of_app in Hx as [Hx|Hx]; [by apply H|].
  by apply list_elem_of_singleton in Hx as ->.
Qed.

Lemma kernel_inv_new : kernel_inv VoidKernel_new.
Proof.
  split; [split|]; simpl.
  - intros tid t. by rewrite lookup_empty.
  - intros e He. by apply elem_of_nil in He.
  - apply NoDup_nil_2.
  - intros tid Htid. by apply elem_of_empty in Htid.
  - intros w inv Hw. by rewrite lookup_nil in Hw.
  - intros w w' inv inv' Hw. by rewrite lookup_nil in Hw.
  - split; [done|]. split; [apply NoDup_nil_2|].
    split; [unfold completed_capacity; lia|].
    intros tid Htid. by apply elem_of_nil in Htid.
Qed.

Lemma awaited_ids_stored (T : gmap string AITask) (Q : list QEntry)
    (A : gset string) (W : list Worker) :
  sched_inv T Q A W → ∀ tid, tid ∈ awaited_ids W → is_Some (T !! tid).
Proof.
  intros Hs tid Htid. unfold awaited_ids in Htid.
  apply list_elem_of_omap in Htid as (st & Hst & Hid).
  destruct st as [|inv| | |]; simplify_eq/=.
  apply list_elem_of_lookup in Hst as [w Hw].
  destruct (si_flight _ _ _ _ Hs w inv Hw) as (t & -> & _). by eexists.
Qed.

(** A held entry belongs to the pool of queued and held entries. *)
Lemma held_in_pool (Q : list QEntry) (W : list Worker) (w : nat) (e : QEntry) :
  W !! w = Some (WTaken e) → e ∈ (Q ++ held_entries W)%list.
Proof.
  intros Hw. apply elem_of_app. right. apply held_entries_elem. by eauto.
Qed.

(** A worker that awaits nothing changes to another such state, and the
    queue changes by the entries that the worker gives up and takes. *)
Lemma sched_inv_worker (T : gmap string AITask) (Q Q' : list QEntry)
    (A : gset string) (W : list Worker) (w : nat) (st st' : Worker) :
  sched_inv T (Q ++ held_entries W) A W →
  W !! w = Some st → (∀ i, st ≠ WAwait i) → (∀ i, st' ≠ WAwait i) →
  Q' ++ held_of st' ≡ₚ Q ++ held_of st →
  sched_inv T (Q' ++ held_entries (<[w := st']> W)) A (<[w := st']> W).
Proof.
  intros Hs Hw Hst Hst' Hp.
  apply (sched_inv_queue_perm T (Q ++ held_entries W)).
  - by apply (sched_inv_idle _ _ _ _ Hs w st st').
  - apply (Permutation_app_inv_l (held_of st)).
    rewrite (Permutation_app_swap_app (held_of st) Q').
    rewrite (held_entries_insert W w st st' Hw).
    rewrite (Permutation_app_swap_app (held_of st) Q).
    rewrite !(assoc_L (++)). by rewrite Hp, (comm (++) Q (held_of st)).
Qed.

(** Every transition of the core keeps the invariant. *)
Lemma core_step_inv (c c' : Core) : core_inv c → core_step c c' → core_inv c'.
Proof.
  intros (Hs & Hm & Hnd & Hlen & Hst) Hstep.
  destruct Hstep as
    [c|c|c t e Hfresh Hpend He|c n|c w Hw|c w e q' Hw Hget
    |c w e task Hw Htask Hdeps|c w e task inv Hw Htask Hdeps Hinv
    |c w e task f kc Hw Htask Hdeps Hf Hfail
    |c w inv f kc Hw Hf Hfin|c w inv kc Hw|c tid Hact
    |c A' C' HA' HCnd HClen HC'];
    unfold core_inv; simpl in *.
  - done.
  - done.
  - split; [|split; [exact Hm|split; [exact Hnd|split; [exact Hlen|]]]].
    + eapply sched_inv_queue_perm;
        [by apply (sched_inv_submit _ _ _ _ Hs t e)|].
      unfold PriorityQueue_put.
      by rewrite <- !(assoc_L (++)), (comm (++) [e]).
    + by apply completed_stored_insert.
  - split; [|done]. rewrite held_entries_start. by apply sched_inv_start.
  - split; [|done].
    assert (∃ st, c_workers c !! w = Some st ∧ held_of st = []
                  ∧ ∀ i, st ≠ WAwait i) as (st & Hst0 & Hh & Hna).
    { destruct Hw as [[Hw _]|Hw]; eexists; (split; [exact Hw|done]). }
    apply (sched_inv_worker _ (c_queue c) _ _ _ w st); try done.
    by rewrite Hh.
  - split; [|done].
    assert (∃ st, c_workers c !! w = Some st ∧ held_of st = []
                  ∧ ∀ i, st ≠ WAwait i) as (st & Hst0 & Hh & Hna).
    { destruct Hw as [[Hw _]|Hw]; eexists; (split; [exact Hw|done]). }
    apply (sched_inv_worker _ (c_queue c) _ _ _ w st); try done.
    rewrite Hh, (right_id_L [] (++)). simpl.
    rewrite <- (PriorityQueue_get_perm _ _ _ Hget).
    symmetry. apply Permutation_cons_append.
  - split; [|done].
    apply (sched_inv_worker _ (c_queue c) _ _ _ w (WTaken e)); try done.
    unfold PriorityQueue_put. simpl. by rewrite (right_id_L [] (++)).
  - assert (task_id task = q_task e) as Hid by (by apply (si_keys _ _ _ _ Hs)).
    split; [|split; [exact Hm|split; [exact Hnd|split; [exact Hlen|]]]].
    + apply (sched_inv_dispatch _ _ _ _ Hs _ e _ w (WTaken e)); try done.
      * rewrite Permutation_middle.
        apply Permutation_app_head.
        apply (held_entries_insert (c_workers c) w (WTaken e) (WAwait inv) Hw).
      * by rewrite Hinv.
      * intros t. by left.
    + by apply completed_stored_alter.
  - assert (task_id task = q_task e) as Hid by (by apply (si_keys _ _ _ _ Hs)).
    assert (∀ t, task_id (f t) = task_id t) as Hfid
      by (intros t; apply (keeps_submission_identity f Hf)).
    split; [|split; [exact Hm|]].
    + assert (e :: c_queue c ++ held_entries (<[w := WIdle]> (c_workers c))
              ≡ₚ c_queue c ++ held_entries (c_workers c)) as Hp.
      { rewrite Permutation_middle. apply Permutation_app_head.
        apply (held_entries_insert (c_workers c) w (WTaken e) WIdle Hw). }
      pose proof (sched_inv_dispatch_fail _ _ _ _ Hs f e _ Hp Hfid) as Hs'.
      by apply (sched_inv_idle _ _ _ _ Hs' w (WTaken e) WIdle).
    + split; [by apply cleanup_completed_ok|].
      split; [by apply cleanup_completed_ok|].
      apply completed_stored_cleanup; [by apply completed_stored_alter|].
      apply lookup_alter_is_Some. by rewrite Htask.
  - assert (∀ t, task_id (f t) = task_id t) as Hfid
      by (intros t; apply (keeps_submission_identity f Hf)).
    split; [|split; [exact Hm|]].
    + eapply sched_inv_queue_perm;
        [by apply (sched_inv_release _ _ _ _ Hs f w inv WIdle)|].
      apply Permutation_app_head.
      by apply (held_entries_insert_none _ _ (WAwait inv)).
    + split; [by apply cleanup_completed_ok|].
      split; [by apply cleanup_completed_ok|].
      apply completed_stored_cleanup; [by apply completed_stored_alter|].
      apply lookup_alter_is_Some.
      destruct (si_flight _ _ _ _ Hs w inv Hw) as (t & -> & _). by eexists.
  - split; [|split; [exact Hm|]].
    + eapply sched_inv_queue_perm.
      * pose proof (sched_inv_release _ _ _ _ Hs id w inv WExited Hw) as Hs'.
        rewrite alter_id in Hs' by done. by apply Hs'.
      * apply Permutation_app_head.
        by apply (held_entries_insert_none _ _ (WAwait inv)).
    + split; [by apply cleanup_completed_ok|].
      split; [by apply cleanup_completed_ok|].
      apply completed_stored_cleanup; [done|].
      destruct (si_flight _ _ _ _ Hs w inv Hw) as (t & -> & _). by eexists.
  - split; [|split; [exact Hm|split; [exact Hnd|split; [exact Hlen|]]]].
    + apply (sched_inv_alter_awaited _ _ _ _ Hs); [done|by right|].
      by apply (si_active _ _ _ _ Hs).
    + by apply completed_stored_alter.
  - split; [|split; [done|split; [exact HCnd|split; [exact HClen|]]]].
    + rewrite held_entries_stop.
      apply (sched_inv_shutdown _ _ _ _ Hs); [done|].
      apply stop_worker_not_await.
    + intros tid Htid. apply HC' in Htid as [Htid|Htid]; [by apply Hst|].
      by eapply awaited_ids_stored.
Qed.

Lemma core_steps_inv (c c' : Core) : core_inv c → core_steps c c' → core_inv c'.
Proof.
  intros Hc Hsteps. induction Hsteps as [c|c c1 c2 H1 _ IH]; [done|].
  apply IH. by eapply core_step_inv.
Qed.

(** What every transition keeps is kept along a sequence of them. *)
Lemma core_steps_keep (P : Core → Prop) :
  (∀ c c', core_inv c → P c → core_step c c' → P c') →
  ∀ c c', core_steps c c' → core_inv c → P c → P c'.
Proof.
  intros HP c c' Hsteps. induction Hsteps as [c|c c1 c2 H1 _ IH]; [done|].
  intros Hc Hp. apply IH; [by eapply core_step_inv|by eapply HP].
Qed.

Lemma check_dependencies_core (k : VoidKernel) (task : AITask) :
  _check_dependencies k task = true
  ↔ deps_completed (core k) (dependencies task).
Proof.
  unfold _check_dependencies. rewrite check_dependency_ids_spec.
  unfold deps_completed, dependency_completed, completed_lookup. simpl.
  split; intros H d Hd; specialize (H d Hd).
  - destruct H as (dep & Hl & Hs). case_bool_decide; [|done]. by eauto.
  - destruct H as (Hin & t & Ht & Hs). exists t.
    by rewrite bool_decide_eq_true_2.
Qed.

(** What cancelling the workers [ws] does to a kernel. *)
Lemma cancel_workers_effect (ws : list Worker) :
  ∀ k, NoDup (completed_tasks k) →
       (length (completed_tasks k) ≤ completed_capacity)%nat →
       completed_stored (tasks k) (completed_tasks k) →
       (∀ tid, tid ∈ awaited_ids ws → is_Some (tasks k !! tid)) →
       let k' := foldl cancel_worker k ws in
       tasks k' = tasks k ∧ task_queue k' = task_queue k
       ∧ worker_tasks k' = worker_tasks k ∧ is_running k' = is_running k
       ∧ has_metrics k' = has_metrics k
       ∧ (∀ tid, tid ∈ active_tasks k' →
                 tid ∈ active_tasks k ∧ tid ∉ awaited_ids ws)
       ∧ NoDup (completed_tasks k')
       ∧ (length (completed_tasks k') ≤ completed_capacity)%nat
       ∧ completed_stored (tasks k) (completed_tasks k').
Proof.
  induction ws as [|st ws IH]; intros k Hnd Hlen Hst Haw; simpl.
  - do 5 (split; [done|]). split; [|done].
    intros tid Htid. split; [done|]. apply not_elem_of_nil.
  - destruct st as [|inv| | |]; simpl; try (by apply IH).
    assert (awaited_ids (WAwait inv :: ws)
            = task_id (inv_task inv) :: awaited_ids ws) as Hids by done.
    rewrite Hids in *.
    destruct (cleanup_completed_ok k (task_id (inv_task inv))
                (completed_tasks k) Hnd Hlen) as [Hnd' Hlen'].
    destruct (IH (_process_task_finally k (inv_task inv)) Hnd' Hlen')
      as (HT & HQ & HW & HR & HM & HA & HC).
    { apply completed_stored_cleanup; [done|]. apply Haw. left. }
    { intros tid Htid. apply Haw. by right. }
    do 5 (split; [done|]). split; [|exact HC].
    intros tid Htid. apply HA in Htid as [Hin Hnot].
    apply elem_of_difference in Hin as [Hin Hne]. split; [done|].
    intros Hc. apply elem_of_cons in Hc as [->|Hc]; [|done].
    apply Hne. by apply elem_of_singleton.
Qed.

(** The keys of the completed map after the workers [ws] are cancelled. *)
Lemma cancel_workers_completed (ws : list Worker) :
  ∀ k tid, tid ∈ completed_tasks (foldl cancel_worker k ws) →
           tid ∈ completed_tasks k ∨ tid ∈ awaited_ids ws.
Proof.
  induction ws as [|st ws IH]; intros k tid Htid; simpl in *; [by left|].
  destruct st as [|inv| | |]; simpl in *; try (by apply IH).
  apply IH in Htid as [Htid|Htid]; [|right; unfold awaited_ids; simpl; by right].
  simpl in Htid. apply cleanup_completed_subset in Htid.
  unfold completed_set in Htid. case_bool_decide; [by left|].
  apply elem_of_app in Htid as [Htid|Htid]; [by left|].
  apply list_elem_of_singleton in Htid as ->. right. left.
Qed.

Lemma core_steps_two (c c1 c2 c2' : Core) :
  core_step c c1 → core_step c1 c2' → c2' = c2 → core_steps c c2.
Proof. intros H1 H2 <-. eapply rtc_l; [exact H1|by apply rtc_once]. Qed.

(** Every operation on a kernel that satisfies the invariant is a sequence
    of transitions of its core: one transition, or two for a worker turn in
    one piece. *)
Lemma step_core (k : VoidKernel) (op : Op) :
  kernel_inv k → op_enabled k op = true →
  core_steps (core k) (core (step k op)).
Proof.
  intros Hk Hop. pose proof Hk as (Hs & Hm & Hnd & Hlen & Hst).
  simpl in Hs, Hm, Hnd, Hlen, Hst.
  destruct op; simpl in *.
  - apply rtc_once. exact (cs_initialize (core k)).
  - apply rtc_refl.
  - apply bool_decide_eq_true in Hop. apply rtc_once.
    exact (cs_submit (core k)
             (mkAITask tid mod_name act payload prio created uid pid PENDING
                VNone None (default [] deps) [])
             (mkQEntry (Priority_value prio) ts tid) Hop eq_refl eq_refl).
  - apply rtc_refl.
  - apply rtc_once. exact (cs_start (core k) (max_workers k)).
  - unfold _worker.
    destruct (worker_tasks k !! w) as [[|inv| |e0|]|] eqn:Hw;
      try apply rtc_refl.
    + destruct (is_running k) eqn:Hrun; simpl;
        [|apply rtc_once, (cs_exit (core k) w); by left].
      destruct (PriorityQueue_get (task_queue k)) as [[e q']|] eqn:Hget;
        [|apply rtc_refl].
      pose proof (PriorityQueue_get_perm _ _ _ Hget) as Hperm.
      assert (e ∈ task_queue k) as He by (rewrite <- Hperm; left).
      destruct (si_queue _ _ _ _ Hs e) as (task & Htask & Hpend);
        [apply elem_of_app; by left|].
      rewrite Htask. simpl.
      assert (task_id task = q_task e) as Hid
        by (by apply (si_keys _ _ _ _ Hs)).
      rewrite check_dependencies_queue.
      set (c1 := mkCore (tasks k) q' (active_tasks k)
                   (<[w := WTaken e]> (worker_tasks k)) (completed_tasks k)
                   (is_running k) (has_metrics k)).
      assert (core_step (core k) c1) as Htake.
      { apply (cs_take (core k) w e q'); [left; by split|done]. }
      assert (w < length (worker_tasks k))%nat as Hlt
        by (by eapply lookup_lt_Some).
      assert (c_workers c1 !! w = Some (WTaken e)) as Hw1
        by (by apply list_lookup_insert_eq).
      destruct (_check_dependencies k task) eqn:Hdeps; simpl.
      * apply check_dependencies_core in Hdeps.
        unfold _process_task_begin. simpl.
        destruct (ai_modules k !! module task) as [m|]; simpl.
        -- eapply (core_steps_two _ c1); [exact Htake| |].
           ++ eapply (cs_dispatch c1 w e task (mkInvocation task _ _ _));
                [exact Hw1|exact Htask|exact Hdeps|reflexivity].
           ++ unfold core, c1. simpl.
              rewrite Hid, list_insert_insert_eq. reflexivity.
        -- match goal with
           | |- context [_process_task_except ?k2 ?t ?msg ?el ?nw] =>
               pose proof (core_process_task_except k2 t msg el nw) as Hx;
               pose proof (core_process_task_finally
                             (_process_task_except k2 t msg el nw).1 t) as Hf
           end.
           rewrite Hf. core_rewrite Hx. simpl. rewrite alter_alter_eq, Hid.
           eapply (core_steps_two _ c1); [exact Htake| |].
           ++ eapply (cs_dispatch_fail c1 w e task
                        (set_error ("Unknown AI module: " ++ module task)
                         ∘ set_status FAILED ∘ set_status RUNNING));
                [exact Hw1|exact Htask|exact Hdeps|done|done].
           ++ unfold c1. simpl.
              by rewrite list_insert_insert_eq, (list_insert_id _ _ _ Hw).
      * eapply (core_steps_two _ c1); [exact Htake| |].
        -- apply (cs_requeue c1 w e task); try done.
           intros Hd. apply (check_dependencies_core k task) in Hd.
           by rewrite Hd in Hdeps.
        -- unfold core, c1. simpl.
           by rewrite list_insert_insert_eq, (list_insert_id _ _ _ Hw).
    + apply rtc_once, (cs_exit (core k) w). by right.
  - unfold _worker_resume.
    destruct (worker_tasks k !! w) as [[|inv| | |]|] eqn:Hw;
      try apply rtc_refl.
    apply rtc_once.
    assert (o = Escaped ∨ o ≠ Escaped) as [->|Ho]
      by (destruct o; [by right|by right|by left]).
    + rewrite core_set_worker, process_task_resume_escaped.
      exact (cs_abort (core k) w inv k Hw).
    + destruct (core_process_task_resume_submission k (inv_task inv) o elapsed
                  now Ho) as (f & kc & Hf & Hfin & Hcore).
      rewrite core_set_worker. core_rewrite Hcore.
      assert ((match o with Escaped => WExited | _ => WIdle end) = WIdle)
        as -> by (by destruct o).
      by apply (cs_finish (core k) w inv f kc).
  - unfold _message_broker. destruct (is_running k && _); apply rtc_refl.
  - unfold execute_command, execute_command_body.
    destruct (py_eq_str _ "get_status"); [apply rtc_refl|].
    destruct (py_eq_str _ "get_task_status").
    { destruct (hash_key _) as [[tid|]|msg]; simpl; try apply rtc_refl.
      unfold task_response.
      destruct (bool_decide (tid ∈ active_tasks k)),
        (bool_decide (tid ∈ completed_tasks k)), (tasks k !! tid);
        apply rtc_refl. }
    destruct (py_eq_str _ "cancel_task"); [|apply rtc_refl].
    destruct (hash_key _) as [[tid|]|msg]; simpl; try apply rtc_refl.
    case_bool_decide as Hact; [|apply rtc_refl].
    apply rtc_once. by apply (cs_cancel (core k) tid).
  - change (core_steps (core k) (core (shutdown k))). unfold shutdown.
    destruct (cancel_workers_effect (worker_tasks k) (set_is_running false k)
                Hnd Hlen Hst (awaited_ids_stored _ _ _ _ Hs))
      as (HT & HQ & HW & HR & HM & HA & HN & HL & _).
    pose proof (cancel_workers_completed (worker_tasks k)
                  (set_is_running false k)) as HC.
    set (k2 := foldl cancel_worker (set_is_running false k) (worker_tasks k))
      in *.
    cbn [worker_tasks set_is_running] in k2, HT, HQ, HW, HR, HM, HA |- *.
    fold k2.
    assert (core (set_worker_tasks
                    (stop_worker (is_running k) <$> worker_tasks k2) k2)
            = mkCore (tasks k) (task_queue k) (active_tasks k2)
                (stop_worker (is_running k) <$> worker_tasks k)
                (completed_tasks k2) false (has_metrics k)) as ->.
    { unfold core. simpl in *.
      f_equal; [exact HT|exact HQ|by rewrite HW|exact HR|exact HM]. }
    apply rtc_once. by apply (cs_shutdown (core k)).
  - unfold _worker_take.
    destruct (worker_tasks k !! w) as [[|inv| |e0|]|] eqn:Hw;
      try apply rtc_refl.
    + destruct (is_running k) eqn:Hrun; simpl;
        [|apply rtc_once, (cs_exit (core k) w); by left].
      destruct (PriorityQueue_get (task_queue k)) as [[e q']|] eqn:Hget;
        [|apply rtc_refl].
      apply rtc_once, (cs_take (core k) w e q'); [left; by split|done].
    + destruct (PriorityQueue_get (task_queue k)) as [[e q']|] eqn:Hget;
        [|apply rtc_refl].
      apply rtc_once, (cs_take (core k) w e q'); [by right|done].
  - unfold _worker_test.
    destruct (worker_tasks k !! w) as [[|inv| |e|]|] eqn:Hw;
      try apply rtc_refl.
    destruct (si_queue _ _ _ _ Hs e) as (task & Htask & Hpend);
      [by eapply held_in_pool|].
    rewrite Htask.
    assert (task_id task = q_task e) as Hid
      by (by apply (si_keys _ _ _ _ Hs)).
    apply rtc_once.
    destruct (_check_dependencies k task) eqn:Hdeps; simpl.
    + apply check_dependencies_core in Hdeps.
      unfold _process_task_begin. simpl.
      destruct (ai_modules k !! module task) as [m|]; simpl.
      * rewrite Hid.
        by apply (cs_dispatch (core k) w e task (mkInvocation task _ _ _)).
      * match goal with
        | |- context [_process_task_except ?k2 ?t ?msg ?el ?nw] =>
            pose proof (core_process_task_except k2 t msg el nw) as Hx;
            pose proof (core_process_task_finally
                          (_process_task_except k2 t msg el nw).1 t) as Hf
        end.
        rewrite core_set_worker. core_rewrite Hf. core_rewrite Hx. simpl.
        rewrite alter_alter_eq, Hid.
        by eapply (cs_dispatch_fail (core k) w e task).
    + apply (cs_requeue (core k) w e task); try done.
      intros Hd. apply (check_dependencies_core k task) in Hd.
      by rewrite Hd in Hdeps.
Qed.

(** What every transition of the core keeps, every operation keeps. *)
Lemma step_keeps (P : Core → Prop) :
  (∀ c c', core_inv c → P c → core_step c c' → P c') →
  ∀ k op, kernel_inv k → op_enabled k op = true →
          P (core k) → P (core (step k op)).
Proof.
  intros HP k op Hk Hop Hp.
  by apply (core_steps_keep P HP (core k) _ (step_core k op Hk Hop)).
Qed.

(** Every operation with a fresh identifier keeps the invariant. *)
Lemma step_inv (k : VoidKernel) (op : Op) :
  kernel_inv k → op_enabled k op = true → kernel_inv (step k op).
Proof.
  intros Hk Hop. apply (core_steps_inv (core k)); [done|by apply step_core].
Qed.

Lemma reachable_inv (k : VoidKernel) : reachable k → kernel_inv k.
Proof.
  induction 1 as [|k op _ IH Hop]; [apply kernel_inv_new|by apply step_inv].
Qed.

(** A run of enabled operations from a reachable state ends in one. *)
Lemma reachable_run (ops : list Op) :
  ∀ k, reachable k → ops_enabled k ops = true → reachable (run k ops).
Proof.
  induction ops as [|op ops IH]; intros k Hk Hops; simpl in *; [done|].
  apply andb_prop in Hops as [Hop Hops].
  apply IH; [by apply reachable_step|done].
Qed.

End KernelInv.

(** ** How an operation changes the task store *)

Section TaskStore.


(** A transition writes only to a task that is PENDING, RUNNING or
    CANCELLED: a task that is COMPLETED or FAILED keeps its state. *)
Lemma core_step_finished (tid : string) (t : AITask) (c c' : Core) :
  status t = COMPLETED ∨ status t = FAILED →
  core_inv c → c_tasks c !! tid = Some t → core_step c c' →
  c_tasks c' !! tid = Some t.
Proof.
  intros Hfin (Hs & _) Ht Hstep.
  assert (∀ e, e ∈ (c_queue c ++ held_entries (c_workers c))%list →
             q_task e ≠ tid)
    as Hpool.
  { intros e He <-. destruct (si_queue _ _ _ _ Hs e He) as (t' & Ht' & Hp).
    rewrite Ht in Ht'. injection Ht' as <-. destruct Hfin; congruence. }
  assert (∀ w inv, c_workers c !! w = Some (WAwait inv) →
                   task_id (inv_task inv) ≠ tid) as Hflight.
  { intros w inv Hw <-.
    destruct (si_flight _ _ _ _ Hs w inv Hw) as (t' & Ht' & Hex).
    rewrite Ht in Ht'. injection Ht' as <-.
    destruct Hfin, Hex; congruence. }
  destruct Hstep as
    [c|c|c t0 e Hfresh Hpend He|c n|c w Hw|c w e q' Hw Hget
    |c w e task Hw Htask Hdeps|c w e task inv Hw Htask Hdeps Hinv
    |c w e task f kc Hw Htask Hdeps Hf Hfail
    |c w inv f kc Hw Hf Hfin'|c w inv kc Hw|c tid' Hact
    |c A' C' HA' HCnd HClen HC'];
    simpl in *; try done.
  - rewrite lookup_insert_ne; [done|]. congruence.
  - rewrite lookup_alter_ne; [done|]. apply Hpool. by eapply held_in_pool.
  - rewrite lookup_alter_ne; [done|]. apply Hpool. by eapply held_in_pool.
  - rewrite lookup_alter_ne; [done|]. by eapply Hflight.
  - rewrite lookup_alter_ne; [done|].
    destruct (si_active _ _ _ _ Hs tid' Hact) as (w & inv & Hw & <-).
    by eapply Hflight.
Qed.

(** A task that is COMPLETED or FAILED is not written to any more. *)
Lemma step_keeps_finished (k : VoidKernel) (op : Op) (tid : string)
    (s : TaskStatus) :
  kernel_inv k → op_enabled k op = true →
  task_status k tid = Some s → s = COMPLETED ∨ s = FAILED →
  task_status (step k op) tid = Some s.
Proof.
  intros Hk Hop Hs Hfin. unfold task_status in *.
  destruct (tasks k !! tid) as [t|] eqn:Ht; [|done].
  simpl in Hs. injection Hs as Hs.
  assert (c_tasks (core (step k op)) !! tid = Some t) as Ht'.
  { apply (step_keeps (fun c => c_tasks c !! tid = Some t)); try done.
    intros c c' Hc Hp Hstep. apply (core_step_finished tid t c); try done.
    by rewrite Hs. }
  simpl in Ht'. by rewrite Ht'; simpl; rewrite Hs.
Qed.

Lemma run_keeps_finished (ops : list Op) :
  ∀ k tid s,
    kernel_inv k → ops_enabled k ops = true →
    task_status k tid = Some s → s = COMPLETED ∨ s = FAILED →
    task_status (run k ops) tid = Some s.
Proof.
  induction ops as [|op ops IH]; intros k tid s Hk Hops Hs Hfin; [done|].
  simpl in *. apply andb_prop in Hops as [Hop Hops].
  apply IH; [by apply step_inv|done| |done].
  by apply step_keeps_finished.
Qed.

End TaskStore.

(** ** Unknown modules *)

Lemma module_errors_failure (k : VoidKernel) (m : string) (pt : Z) :
  has_metrics k = true →
  module_errors (_update_performance_metrics k m pt false).1 m
  = module_errors k m + 1.
Proof.
  unfold has_metrics, module_errors, _update_performance_metrics.
  destruct (performance_metrics k) as [pm|]; [intros _|done]. simpl.
  rewrite lookup_insert_eq. simpl.
  destruct (module_performance pm !! m) as [mp|] eqn:Hm; simpl.
  - by rewrite Hm.
  - by rewrite lookup_insert_eq.
Qed.

Lemma module_errors_process_task_except (k : VoidKernel) (task : AITask)
    (msg : string) (elapsed now : Z) :
  has_metrics k = true →
  module_errors (_process_task_except k task msg elapsed now).1 (module task)
  = module_errors k (module task) + 1.
Proof.
  intros Hm. unfold _process_task_except.
  set (k2 := update_task (set_error msg) (task_id task)
               (update_task (set_status FAILED) (task_id task) k)).
  pose proof (module_errors_failure k2 (module task) elapsed Hm) as H.
  destruct (_update_performance_metrics k2 (module task) elapsed false)
    as [k3 [exc|]]; exact H.
Qed.

Lemma broadcast_process_task_except (k : VoidKernel) (task : AITask)
    (msg : string) (elapsed now : Z) :
  has_metrics k = true →
  broadcast_channel (_process_task_except k task msg elapsed now).1
  = (broadcast_channel k ++
     [mkEvent "task_failed" (EvFailed (task_id task) (module task) msg) now])%list.
Proof.
  unfold has_metrics, _process_task_except, _update_performance_metrics. simpl.
  by destruct (performance_metrics k).
Qed.

Lemma sorted_by_key_ext (key1 key2 : string → Z) (l : list string) :
  (∀ x, key1 x = key2 x) → sorted_by_key key1 l = sorted_by_key key2 l.
Proof.
  intros Hext. induction l as [|x l IH]; simpl; [done|]. rewrite IH.
  generalize (sorted_by_key key2 l). intros l'.
  induction l' as [|y l' IH']; simpl; [done|].
  by rewrite !Hext, IH'.
Qed.

(** The cleanup reads the kernel through the task store only. *)
Lemma cleanup_completed_ext (k1 k2 : VoidKernel) (l : list string) :
  tasks k1 = tasks k2 → cleanup_completed k1 l = cleanup_completed k2 l.
Proof.
  intros HT. unfold cleanup_completed, oldest_tasks.
  rewrite (sorted_by_key_ext (task_created_at k1) (task_created_at k2)); [done|].
  intros x. unfold task_created_at. by rewrite HT.
Qed.

(** Where the key of a finished task is after the cleanup: in the completed
    map, unless the map overflowed and the task is one of the oldest. *)
Lemma cleanup_completed_keeps (kc : VoidKernel) (tid : string) (l : list string) :
  tid ∈ l →
  tid ∈ cleanup_completed kc l
  ↔ ¬ ((completed_capacity < length l)%nat ∧ tid ∈ oldest_tasks kc l).
Proof.
  intros Hin. unfold cleanup_completed.
  destruct (completed_capacity <? length l)%nat eqn:E.
  - apply Nat.ltb_lt in E. rewrite list_elem_of_filter. split.
    + intros [Hnot _] [_ Hold]. by apply Hnot.
    + intros Hnot. split; [|done]. intros Hold. by apply Hnot.
  - apply Nat.ltb_ge in E. split; [|done]. intros _ [Hlt _]. lia.
Qed.

(** C3, as the code has it.  A worker of a reachable, running kernel takes
    a ready task whose module is not registered: the task ends FAILED with the
    error "Unknown AI module: <name>", a [task_failed] event is put on the
    broadcast channel, the error count of that module name grows by one, the
    task leaves the active set, its entry is off the queue, and the worker is
    idle again in a kernel that still runs.  The task is inserted in the
    completed map and the cleanup runs on the map at once: the task is a key
    of the completed map after the turn exactly when the insertion did not
    make the map exceed its capacity or the task is not among the
    [eviction_count] oldest keys. *)
Theorem unknown_module_fails_task (k : VoidKernel) (w : nat) (elapsed now : Z)
    (e : QEntry) (q' : list QEntry) (task : AITask) :
  reachable k →
  worker_tasks k !! w = Some WIdle →
  is_running k = true →
  PriorityQueue_get (task_queue k) = Some (e, q') →
  tasks k !! q_task e = Some task →
  _check_dependencies k task = true →
  ai_modules k !! module task = None →
  let k' := step k (OpWorker w elapsed now) in
  let msg := "Unknown AI module: " ++ module task in
  let stored := completed_set (task_id task) (completed_tasks k) in
  tasks k' !! task_id task = Some (set_error msg (set_status FAILED task))
  ∧ task_status k' (task_id task) = Some FAILED
  ∧ broadcast_channel k'
    = (broadcast_channel k ++
       [mkEvent "task_failed" (EvFailed (task_id task) (module task) msg) now])%list
  ∧ module_errors k' (module task) = module_errors k (module task) + 1
  ∧ (task_id task ∉ active_tasks k')
  ∧ completed_tasks k' = cleanup_completed k' stored
  ∧ (task_id task ∈ completed_tasks k'
     ↔ ¬ ((completed_capacity < length stored)%nat
          ∧ task_id task ∈ oldest_tasks k' stored))
  ∧ task_queue k' = q'
  ∧ worker_tasks k' !! w = Some WIdle
  ∧ is_running k' = true.
Proof.
  intros Hreach Hw Hrun Hget Htask Hcheck Hmod k' msg stored.
  pose proof (reachable_inv k Hreach) as (Hs & Hm & _). simpl in Hs, Hm.
  assert (task_id task = q_task e) as Hid by (by apply (si_keys _ _ _ _ Hs)).
  specialize (Hm Hrun).
  assert (w < length (worker_tasks k))%nat as Hlt
    by (by eapply lookup_lt_Some).
  set (k2 := set_active_tasks ({[task_id task]} ∪ active_tasks k)
               (update_task (set_status RUNNING) (task_id task)
                  (set_task_queue q' k))).
  set (kx := (_process_task_except k2 task msg elapsed now).1).
  assert (k' = _process_task_finally kx task) as Hk'.
  { unfold k'. simpl. unfold _worker. rewrite Hw, Hrun, Hget. simpl.
    rewrite Htask, check_dependencies_queue, Hcheck. simpl.
    unfold _process_task_begin. simpl. by rewrite Hmod. }
  clearbody k'. subst k'.
  pose proof (core_process_task_except k2 task msg elapsed now) as Hx.
  fold kx in Hx.
  pose proof (core_process_task_finally kx task) as Hf.
  assert (tasks kx !! task_id task
          = Some (set_error msg (set_status FAILED task))) as Hlook.
  { core_rewrite Hx. unfold k2. simpl.
    by rewrite !lookup_alter_eq, Hid, Htask. }
  assert (task_id task ∈ stored) as Hin by apply completed_set_elem.
  assert (completed_tasks (_process_task_finally kx task)
          = cleanup_completed (_process_task_finally kx task) stored) as Hc.
  { core_rewrite Hf. core_rewrite Hx. by apply cleanup_completed_ext. }
  split; [done|].
  split; [unfold task_status; simpl; by rewrite Hlook|].
  split; [by apply (broadcast_process_task_except k2)|].
  split; [by apply (module_errors_process_task_except k2)|].
  split; [apply not_elem_of_difference; right; by apply elem_of_singleton|].
  split; [done|].
  split; [rewrite Hc; by apply cleanup_completed_keeps|].
  core_rewrite Hf. core_rewrite Hx. done.
Qed.

(** The kernel of [unknown_module_scenario] is reachable and runs, its idle
    worker 0 finds the task of the unregistered module ["ghost"] in the queue:
    the task ends FAILED, the error count of ["ghost"] is 1, the worker is
    idle again on an empty queue and the task is a key of the completed map,
    which holds one key. *)
Lemma unknown_module_fails_task_witness :
  let k := run VoidKernel_new unknown_module_scenario in
  let k' := step k (OpWorker 0 0 5) in
  task_status k' "task-g" = Some FAILED
  ∧ module_errors k' "ghost" = 1
  ∧ worker_tasks k' !! 0%nat = Some WIdle
  ∧ task_queue k' = []
  ∧ task_id ghost_task ∈ completed_tasks k'.
Proof.
  intros k k'.
  assert (reachable k) as Hreach
    by (apply reachable_run; [apply reachable_new | vm_compute; reflexivity]).
  assert (length (completed_set (task_id ghost_task) (completed_tasks k))
          = 1%nat) as Hlen by (vm_compute; reflexivity).
  destruct (unknown_module_fails_task k 0 0 5 (mkQEntry 2 1 "task-g") []
              ghost_task Hreach)
    as (_ & Hst & _ & Herr & _ & _ & Hin & Hq & Hw & _);
    try (vm_compute; reflexivity).
  split; [exact Hst|]. split; [exact Herr|]. split; [exact Hw|].
  split; [exact Hq|].
  apply Hin. intros [Hlt _]. rewrite Hlen in Hlt.
  unfold completed_capacity in Hlt. lia.
Defined.

(** C3, the claim fails: a dispatched task of an unregistered module is not
    always in the completed map when its processing ends.  The task
    ["first"], created before the 1000 tasks that fill the completed map, is
    dispatched after them; it ends FAILED and leaves the active set, and the
    cleanup that follows its insertion evicts it at once as the oldest key. *)
Lemma oldest_task_evicted_at_once :
  let k := run VoidKernel_new late_dispatch_ops in
  let k' := step k (OpWorker 0 0 2000) in
  ops_enabled VoidKernel_new late_dispatch_ops = true
  ∧ length (completed_tasks k) = 1000%nat
  ∧ ai_modules k !! "ghost" = None
  ∧ task_status k "first" = Some PENDING
  ∧ task_status k' "first" = Some FAILED
  ∧ bool_decide ("first" ∈ active_tasks k') = false
  ∧ bool_decide ("first" ∈ completed_tasks k') = false
  ∧ length (completed_tasks k') = 501%nat.
Proof. vm_compute. done. Qed.


(** ** Terminal states *)

(** X15.  From a reachable kernel, no run of operations changes the status
    of a task that is COMPLETED or FAILED.  When the module call that a worker
    awaits returns or raises an [Exception], the worker sets the task
    COMPLETED or FAILED, whatever its status was, and goes back to the head of
    its loop; when the call ends in a [BaseException] that is not an
    [Exception], the task is not written to and the worker ends. *)
Theorem finished_status_is_final (k : VoidKernel) (ops : list Op) :
  reachable k → ops_enabled k ops = true →
  (∀ tid s, task_status k tid = Some s → s = COMPLETED ∨ s = FAILED →
            task_status (run k ops) tid = Some s)
  ∧ (∀ w inv o elapsed now,
       worker_tasks k !! w = Some (WAwait inv) → o ≠ Escaped →
       let k' := step k (OpModuleDone w o elapsed now) in
       (task_status k' (task_id (inv_task inv)) = Some COMPLETED
        ∨ task_status k' (task_id (inv_task inv)) = Some FAILED)
       ∧ worker_tasks k' !! w = Some WIdle)
  ∧ (∀ w inv elapsed now,
       worker_tasks k !! w = Some (WAwait inv) →
       let k' := step k (OpModuleDone w Escaped elapsed now) in
       tasks k' = tasks k ∧ worker_tasks k' !! w = Some WExited).
Proof.
  intros Hreach Hops. pose proof (reachable_inv k Hreach) as Hk.
  split; [|split].
  - intros tid s. by apply run_keeps_finished.
  - intros w inv o elapsed now Hw Ho k'. unfold k'. simpl.
    unfold _worker_resume. rewrite Hw.
    assert (w < length (worker_tasks k))%nat as Hlt
      by (by eapply lookup_lt_Some).
    destruct (core_process_task_resume k (inv_task inv) o elapsed now Ho)
      as (f & kc & _ & Hfin & Hcore).
    destruct Hk as (Hs & _). simpl in Hs.
    destruct (si_flight _ _ _ _ Hs w inv Hw) as (t & Ht & _).
    unfold task_status.
    assert ((match o with Escaped => WExited | _ => WIdle end) = WIdle)
      as -> by (by destruct o).
    pose proof (core_set_worker
                  (_process_task_resume k (inv_task inv) o elapsed now)
                  w WIdle) as Hsw.
    core_rewrite Hsw. core_rewrite Hcore.
    rewrite lookup_alter_eq, Ht. simpl.
    split; [|by apply list_lookup_insert_eq].
    destruct (Hfin t) as [-> | ->]; [by left|by right].
  - intros w inv elapsed now Hw k'. unfold k'. simpl.
    unfold _worker_resume. rewrite Hw. simpl.
    split; [done|]. apply list_lookup_insert_eq. by eapply lookup_lt_Some.
Qed.

(** In [finished_and_running] the LOW task is COMPLETED and stays so through
    a run that tries to cancel it, finishes the other task and shuts the
    kernel down; the NORMAL task, awaited by worker 0, ends COMPLETED or
    FAILED. *)
Lemma finished_status_is_final_witness :
  let ops := [OpCommand (cancel_command "task-low");
              OpModuleDone 0 (Raised "boom") 1 20; OpWorker 0 0 21;
              OpShutdown] in
  task_status (run finished_and_running ops) "task-low" = Some COMPLETED
  ∧ (task_status (step finished_and_running
                    (OpModuleDone 0 (Raised "boom") 1 20)) "task-normal"
     = Some COMPLETED
     ∨ task_status (step finished_and_running
                      (OpModuleDone 0 (Raised "boom") 1 20)) "task-normal"
       = Some FAILED)
  ∧ worker_tasks (step finished_and_running (OpModuleDone 0 Escaped 1 20))
      !! 0%nat = Some WExited.
Proof.
  intros ops.
  assert (reachable finished_and_running) as Hreach
    by (apply reachable_run; [apply reachable_new | vm_compute; reflexivity]).
  assert (ops_enabled finished_and_running ops = true) as Hops
    by (vm_compute; reflexivity).
  assert (worker_tasks finished_and_running !! 0%nat
          = Some (WAwait normal_invocation)) as Hw
    by (vm_compute; reflexivity).
  destruct (finished_status_is_final finished_and_running ops Hreach Hops)
    as (Hfinal & Hdone & Hesc).
  split; [|split].
  - apply Hfinal; [vm_compute; reflexivity | by left].
  - by apply (Hdone 0%nat normal_invocation (Raised "boom") 1 20 Hw).
  - by apply (Hesc 0%nat normal_invocation 1 20 Hw).
Defined.

(** C5, as the code has it.  In a reachable kernel, [cancel_task] marks the
    task CANCELLED and answers "cancelled" exactly when its id is in the
    active map, and answers "Task not found or not active", changing nothing,
    otherwise.  The tasks of the active map are those that a worker executes,
    RUNNING or already CANCELLED; an id that is unknown, PENDING (still in the
    queue), COMPLETED or FAILED is not in the active map. *)
Theorem cancel_marks_active_tasks (k : VoidKernel) (tid : string) :
  reachable k →
  (tid ∈ active_tasks k →
     execute_command k (cancel_command tid)
     = Ok (update_task (set_status CANCELLED) tid k,
           [("status", RStr "cancelled")])
     ∧ task_status (update_task (set_status CANCELLED) tid k) tid
       = Some CANCELLED
     ∧ (task_status k tid = Some RUNNING ∨ task_status k tid = Some CANCELLED))
  ∧ (tid ∉ active_tasks k →
       execute_command k (cancel_command tid)
       = Ok (k, [("error", RStr "Task not found or not active")]))
  ∧ (task_status k tid = None ∨ task_status k tid = Some PENDING
     ∨ task_status k tid = Some COMPLETED ∨ task_status k tid = Some FAILED →
     tid ∉ active_tasks k).
Proof.
  intros Hreach. pose proof (reachable_inv k Hreach) as (Hs & _). simpl in Hs.
  assert (tid ∈ active_tasks k →
          ∃ t, tasks k !! tid = Some t ∧ executing (status t)) as Hact.
  { intros Hin. destruct (si_active _ _ _ _ Hs tid Hin) as (w & inv & Hw & <-).
    by apply (si_flight _ _ _ _ Hs w). }
  unfold execute_command, execute_command_body, cancel_command. simpl.
  split; [|split].
  - intros Hin. rewrite bool_decide_eq_true_2 by done.
    destruct (Hact Hin) as (t & Ht & Hex). unfold task_status. simpl.
    rewrite lookup_alter_eq, Ht. simpl.
    split; [done|]. split; [done|]. destruct Hex as [-> | ->]; [by left|by right].
  - intros Hnin. by rewrite bool_decide_eq_false_2.
  - intros Hst Hin. destruct (Hact Hin) as (t & Ht & Hex).
    unfold task_status in Hst. rewrite Ht in Hst. simpl in Hst.
    destruct Hex as [Hex|Hex]; rewrite Hex in Hst;
      destruct Hst as [?|[?|[?|?]]]; congruence.
Qed.

(** In the kernel of [running_scenario] the task ["task-x"] is active and
    [cancel_task] marks it CANCELLED; an unknown id is refused. *)
Lemma cancel_marks_active_tasks_witness :
  let k := run VoidKernel_new running_scenario in
  (execute_command k (cancel_command "task-x")
   = Ok (update_task (set_status CANCELLED) "task-x" k,
         [("status", RStr "cancelled")])
   ∧ task_status k "task-x" = Some RUNNING)
  ∧ execute_command k (cancel_command "task-unknown")
    = Ok (k, [("error", RStr "Task not found or not active")]).
Proof.
  intros k.
  assert (reachable k) as Hreach
    by (apply reachable_run; [apply reachable_new | vm_compute; reflexivity]).
  split.
  - destruct (cancel_marks_active_tasks k "task-x" Hreach) as (Hcancel & _).
    destruct Hcancel as (Hresp & _ & _).
    { apply (bool_decide_unpack _). vm_compute. exact I. }
    split; [exact Hresp|]. vm_compute. reflexivity.
  - destruct (cancel_marks_active_tasks k "task-unknown" Hreach)
      as (_ & Hrefuse & Hnot).
    apply Hrefuse, Hnot. left. vm_compute. reflexivity.
Defined.

(** ** The bound on the completed map *)

(** The state in which the [finally] block of [_process_task] runs when a
    module call ends: it has the completed map of the state before, and its
    tasks have the [created_at] they had. *)
Lemma process_task_resume_finally (k : VoidKernel) (task : AITask)
    (o : Outcome) (elapsed now : Z) :
  ∃ kf, _process_task_resume k task o elapsed now = _process_task_finally kf task
        ∧ completed_tasks kf = completed_tasks k
        ∧ ∀ tid, created_at <$> tasks kf !! tid = created_at <$> tasks k !! tid.
Proof.
  assert (∀ (f : AITask → AITask) tid,
            keeps_identity f →
            created_at <$> alter f (task_id task) (tasks k) !! tid
            = created_at <$> tasks k !! tid) as Halter.
  { intros f tid Hf. destruct (decide (task_id task = tid)) as [<-|Hne].
    - rewrite lookup_alter_eq. destruct (tasks k !! task_id task); [|done].
      simpl. by rewrite (proj2 (Hf _)).
    - by rewrite lookup_alter_ne. }
  unfold _process_task_resume. eexists. split; [reflexivity|].
  destruct o as [r|msg|]; simpl; [| |done].
  - pose proof (core_process_task_store k task r elapsed now) as Hs.
    destruct (_process_task_store k task r elapsed now) as [k1 [msg|]];
      simpl in *.
    + pose proof (core_process_task_except k1 task msg elapsed now) as He.
      core_rewrite He. core_rewrite Hs. split; [done|]. intros tid.
      rewrite alter_alter_eq. by apply Halter.
    + core_rewrite Hs. split; [done|]. intros tid. by apply Halter.
  - pose proof (core_process_task_except k task msg elapsed now) as He.
    core_rewrite He. split; [done|]. intros tid. by apply Halter.
Qed.

(** C6.  The completed map of a reachable kernel never holds more than
    [completed_capacity] = 1000 keys, also after any further operation.
    When the [finally] block of [_process_task] runs on the completed map of
    a reachable kernel, for a task of its store, an insertion that stays
    within the capacity evicts nothing; an insertion that exceeds it evicts
    exactly [eviction_count] = 500 keys, half the capacity.  The evicted keys
    are the oldest by the [created_at] of their tasks: every evicted key and
    every key that stays has its task in the store, and no evicted task was
    created after a task that stays.  The end of a module call runs the
    [finally] block in such a state. *)
Theorem completed_map_bounded (k0 k : VoidKernel) (task : AITask) :
  reachable k0 →
  completed_tasks k = completed_tasks k0 →
  (∀ tid, created_at <$> tasks k !! tid = created_at <$> tasks k0 !! tid) →
  is_Some (tasks k0 !! task_id task) →
  let inserted := completed_set (task_id task) (completed_tasks k) in
  let evicted := oldest_tasks k inserted in
  let k' := _process_task_finally k task in
  completed_capacity = 1000%nat ∧ eviction_count = 500%nat
  ∧ (length (completed_tasks k0) ≤ completed_capacity)%nat
  ∧ (∀ op, op_enabled k0 op = true →
           (length (completed_tasks (step k0 op)) ≤ completed_capacity)%nat)
  ∧ (length (completed_tasks k') ≤ completed_capacity)%nat
  ∧ ((length inserted ≤ completed_capacity)%nat → completed_tasks k' = inserted)
  ∧ ((completed_capacity < length inserted)%nat →
       completed_tasks k' = filter (fun tid => tid ∉ evicted) inserted
       ∧ length evicted = eviction_count
       ∧ (∀ tid, tid ∈ evicted → tid ∈ inserted)
       ∧ (length (completed_tasks k') + eviction_count = length inserted)%nat
       ∧ (∀ a b, a ∈ evicted → b ∈ completed_tasks k' →
                 ∃ ta tb, tasks k0 !! a = Some ta ∧ tasks k0 !! b = Some tb
                          ∧ created_at ta ≤ created_at tb))
  ∧ (∀ w inv o elapsed now,
       worker_tasks k0 !! w = Some (WAwait inv) →
       is_Some (tasks k0 !! task_id (inv_task inv))
       ∧ ∃ kf, completed_tasks kf = completed_tasks k0
               ∧ (∀ tid, created_at <$> tasks kf !! tid
                         = created_at <$> tasks k0 !! tid)
               ∧ completed_tasks (step k0 (OpModuleDone w o elapsed now))
                 = completed_tasks (_process_task_finally kf (inv_task inv))).
Proof.
  intros Hreach Hsame Hcreated Htask inserted evicted k'.
  pose proof (reachable_inv k0 Hreach) as (Hs & _ & Hnd & Hlen & Hst).
  simpl in Hs, Hnd, Hlen, Hst. rewrite <- Hsame in Hnd, Hlen.
  assert (NoDup inserted) as Hndi by (by apply completed_set_NoDup).
  assert (∀ x, x ∈ inserted →
               ∃ t, tasks k0 !! x = Some t ∧ task_created_at k x = created_at t)
    as Hstored.
  { intros x Hx.
    assert (is_Some (tasks k0 !! x)) as [t Ht].
    { unfold inserted, completed_set in Hx. rewrite Hsame in Hx.
      case_bool_decide; [by apply Hst|].
      apply elem_of_app in Hx as [Hx|Hx]; [by apply Hst|].
      by apply list_elem_of_singleton in Hx as ->. }
    exists t. split; [done|]. unfold task_created_at.
    pose proof (Hcreated x) as Hc. rewrite Ht in Hc. simpl in Hc.
    by destruct (tasks k !! x); simplify_eq/=. }
  split; [done|]. split; [done|]. split; [by rewrite <- Hsame|].
  split.
  { intros op Hop.
    by destruct (step_inv k0 op (reachable_inv k0 Hreach) Hop)
      as (_ & _ & _ & H & _). }
  split; [by apply cleanup_completed_bound|].
  split; [intros Hsmall; by apply cleanup_completed_small|].
  split.
  - intros Hlarge.
    assert (completed_tasks k' = filter (fun tid => tid ∉ evicted) inserted)
      as Hk' by (by apply cleanup_completed_large).
    split; [exact Hk'|].
    split.
    { apply oldest_tasks_length.
      unfold eviction_count, completed_capacity in *. lia. }
    split; [apply oldest_tasks_subset|].
    split.
    { change (completed_tasks k') with (cleanup_completed k inserted).
      by apply cleanup_completed_length. }
    intros a b Ha Hb. rewrite Hk' in Hb.
    apply list_elem_of_filter in Hb as [Hnb Hb].
    pose proof (sorted_prefix_oldest (task_created_at k) eviction_count
                  inserted a b Ha Hb Hnb) as Hle.
    destruct (Hstored a) as (ta & Hta & Hca); [by apply oldest_tasks_subset in Ha|].
    destruct (Hstored b Hb) as (tb & Htb & Hcb).
    exists ta, tb. unfold key_le in Hle. rewrite Hca, Hcb in Hle. done.
  - intros w inv o elapsed now Hw.
    split.
    { destruct (si_flight _ _ _ _ Hs w inv Hw) as (t & -> & _). by eexists. }
    destruct (process_task_resume_finally k0 (inv_task inv) o elapsed now)
      as (kf & Heq & Hc & Hcr).
    exists kf. split; [done|]. split; [done|]. cbn [step].
    unfold _worker_resume. rewrite Hw.
    change (completed_tasks
              (_process_task_resume k0 (inv_task inv) o elapsed now)
            = completed_tasks (_process_task_finally kf (inv_task inv))).
    by rewrite Heq.
Qed.

(** The backlog fills the completed map with the tasks 501 to 1000 followed
    by the tasks 0 to 499.  The end of task 500 makes the map overflow: the
    500 oldest keys by [created_at], 0 to 499, are evicted, although they were
    inserted last, and 501 to 1000 and 500 stay.  The next worker turn, which
    processes task 500, leaves that map. *)
Lemma completed_map_bounded_witness :
  let inserted :=
    completed_set (task_id (backlog_task 500)) (completed_tasks at_capacity) in
  let k' := _process_task_finally at_capacity (backlog_task 500) in
  completed_tasks at_capacity
  = ((pretty <$> seq 501 500) ++ (pretty <$> seq 0 500))%list
  ∧ oldest_tasks at_capacity inserted = pretty <$> seq 0 500
  ∧ completed_tasks k' = ((pretty <$> seq 501 500) ++ [pretty 500%nat])%list
  ∧ completed_tasks (step at_capacity (OpWorker 0 0 2001)) = completed_tasks k'
  ∧ (length (completed_tasks k') + 500 = 1001)%nat
  ∧ (∀ a b, a ∈ oldest_tasks at_capacity inserted → b ∈ completed_tasks k' →
            ∃ ta tb, tasks at_capacity !! a = Some ta
                     ∧ tasks at_capacity !! b = Some tb
                     ∧ created_at ta ≤ created_at tb).
Proof.
  intros inserted k'.
  assert (reachable at_capacity) as Hreach
    by (apply reachable_run; [apply reachable_new | vm_compute; reflexivity]).
  assert (completed_tasks at_capacity
          = ((pretty <$> seq 501 500) ++ (pretty <$> seq 0 500))%list) as Hfull
    by (vm_compute; reflexivity).
  assert (oldest_tasks at_capacity
            (completed_set (task_id (backlog_task 500))
               (completed_tasks at_capacity)) = pretty <$> seq 0 500) as Hold
    by (vm_compute; reflexivity).
  assert (length (completed_set (task_id (backlog_task 500))
                    (completed_tasks at_capacity)) = 1001%nat) as Hins
    by (vm_compute; reflexivity).
  assert (completed_tasks
            (_process_task_finally at_capacity (backlog_task 500))
          = ((pretty <$> seq 501 500) ++ [pretty 500%nat])%list) as Hleft
    by (vm_compute; reflexivity).
  assert (completed_tasks (step at_capacity (OpWorker 0 0 2001))
          = completed_tasks
              (_process_task_finally at_capacity (backlog_task 500))) as Hstep
    by (vm_compute; reflexivity).
  assert (is_Some (tasks at_capacity !! task_id (backlog_task 500))) as Hsome.
  { apply (bool_decide_unpack _). vm_compute. exact I. }
  destruct (completed_map_bounded at_capacity at_capacity (backlog_task 500)
              Hreach eq_refl (fun _ => eq_refl) Hsome)
    as (_ & _ & _ & _ & _ & _ & Hlarge & _).
  destruct Hlarge as (_ & _ & _ & Hlen & Horder).
  { rewrite Hins. unfold completed_capacity. lia. }
  split; [exact Hfull|]. split; [exact Hold|]. split; [exact Hleft|].
  split; [exact Hstep|]. split; [|exact Horder].
  rewrite Hins in Hlen. exact Hlen.
Defined.

(** ** Outcome fields and the memory vault in general *)

Section Outcomes.

(** [_update_memory_vault] writes under the key [user_id] only; the entry
    of [project_id] is not touched. *)
Lemma update_memory_vault_other_keys (k : VoidKernel) (task : AITask)
    (r : PyVal) (key : string) :
  user_id task ≠ Some key →
  memory_vault (_update_memory_vault k task r).1 !! key = memory_vault k !! key.
Proof.
  intros Hne. unfold _update_memory_vault.
  destruct (user_id task) as [u|]; [|done].
  assert (u ≠ key) as Hu by congruence.
  destruct (truthy_str (Some u)); [|done].
  destruct (_summarize_result r); simpl;
    destruct (memory_vault k !! u); by rewrite ?lookup_insert_ne.
Qed.

(** For a task of a user, a dict result is summarised and appended to the
    user's entry, of which the last 50 records are kept. *)
Lemma update_memory_vault_user (k : VoidKernel) (task : AITask)
    (d : PyDict) (u : string) :
  user_id task = Some u → u ≠ "" →
  let recent := (default [] (memory_vault k !! u) ++
                 [mkVaultRecord (task_id task) (module task) (action task)
                    (mkResultSummary (dict_get d "type") (dict_get d "status")
                       (take 5 (dict_keys d)))
                    (created_at task)])%list in
  _update_memory_vault k task (VDict d)
  = (set_memory_vault
       (<[u := if (50 <? length recent)%nat then last_n 50 recent else recent]>
          (memory_vault k)) k,
     None).
Proof.
  intros Hu Hne recent. unfold _update_memory_vault. rewrite Hu.
  assert (truthy_str (Some u) = true) as ->.
  { simpl. apply negb_true_iff, String.eqb_neq. done. }
  simpl. unfold recent.
  destruct (memory_vault k !! u) as [l|] eqn:Hl; simpl.
  - by rewrite Hl.
  - by rewrite lookup_insert_eq, insert_insert_eq.
Qed.

Lemma update_memory_vault_dict (k : VoidKernel) (task : AITask) (d : PyDict) :
  (_update_memory_vault k task (VDict d)).2 = None.
Proof.
  unfold _update_memory_vault.
  destruct (user_id task); [|done]. by destruct (truthy_str _).
Qed.

Lemma update_performance_metrics_ok (k : VoidKernel) (m : string) (pt : Z)
    (ok : bool) :
  has_metrics k = true → (_update_performance_metrics k m pt ok).2 = None.
Proof.
  unfold has_metrics, _update_performance_metrics.
  by destruct (performance_metrics k).
Qed.

(** With a dict result, the task ends COMPLETED with the result stored and
    the error untouched. *)
Lemma resume_returned_dict (k : VoidKernel) (task t : AITask) (d : PyDict)
    (elapsed now : Z) :
  has_metrics k = true →
  tasks k !! task_id task = Some t →
  tasks (_process_task_resume k task (Returned (VDict d)) elapsed now)
    !! task_id task
  = Some (set_status COMPLETED (set_result (VDict d) t)).
Proof.
  intros Hm Ht. unfold _process_task_resume.
  pose proof (core_process_task_store k task (VDict d) elapsed now) as Hs.
  assert ((_process_task_store k task (VDict d) elapsed now).2 = None) as ->.
  { unfold _process_task_store.
    set (k2 := update_task (set_status COMPLETED) (task_id task)
                 (update_task (set_result (VDict d)) (task_id task) k)).
    pose proof (update_memory_vault_dict k2 task d) as Hv.
    pose proof (core_update_memory_vault k2 task (VDict d)) as Hc.
    destruct (_update_memory_vault k2 task (VDict d)) as [k3 exc].
    simpl in Hv, Hc. subst exc.
    apply update_performance_metrics_ok.
    change (c_metrics (core (_broadcast_event k3 "task_completed"
              (EvCompleted (task_id task) (module task) (VDict d)) now)) = true).
    by rewrite core_broadcast_event, Hc. }
  cbn [fst snd].
  lazymatch goal with
  | |- tasks (_process_task_finally ?kx ?tk) !! _ = _ =>
      pose proof (core_process_task_finally kx tk) as Hf
  end.
  core_rewrite Hf. core_rewrite Hs. by rewrite lookup_alter_eq, Ht.
Qed.

(** When the module call raises, the task ends FAILED with the message as
    its error and the result untouched. *)
Lemma resume_raised (k : VoidKernel) (task t : AITask) (msg : string)
    (elapsed now : Z) :
  tasks k !! task_id task = Some t →
  tasks (_process_task_resume k task (Raised msg) elapsed now) !! task_id task
  = Some (set_error msg (set_status FAILED t)).
Proof.
  intros Ht. unfold _process_task_resume. cbn [fst snd].
  pose proof (core_process_task_except k task msg elapsed now) as He.
  lazymatch goal with
  | |- tasks (_process_task_finally ?kx ?tk) !! _ = _ =>
      pose proof (core_process_task_finally kx tk) as Hf
  end.
  core_rewrite Hf. core_rewrite He. by rewrite lookup_alter_eq, Ht.
Qed.

(** When the module call returns a value that is not a dict for a task of
    a user, the result is stored first and the failure of the summary then
    sets FAILED and the error on the same task. *)
Lemma resume_returned_non_dict (k : VoidKernel) (task t : AITask) (r : PyVal)
    (elapsed now : Z) :
  truthy_str (user_id task) = true →
  (∀ d, r ≠ VDict d) →
  tasks k !! task_id task = Some t →
  tasks (_process_task_resume k task (Returned r) elapsed now) !! task_id task
  = Some (set_error ("'" ++ type_name r ++ "' object has no attribute 'get'")
            (set_status FAILED (set_result r t))).
Proof.
  intros Hu Hr Ht. unfold _process_task_resume.
  pose proof (core_process_task_store k task r elapsed now) as Hs.
  assert ((_process_task_store k task r elapsed now).2
          = Some ("'" ++ type_name r ++ "' object has no attribute 'get'"))
    as ->.
  { unfold _process_task_store, _update_memory_vault. simpl.
    destruct (user_id task) as [u|]; [|done].
    simpl in Hu. rewrite Hu.
    destruct r; try done. by destruct (Hr d). }
  cbn [fst snd].
  lazymatch goal with
  | |- tasks (_process_task_finally (_process_task_except ?kx ?tk ?m ?el ?nw).1 _)
         !! _ = _ =>
      pose proof (core_process_task_except kx tk m el nw) as He;
      pose proof (core_process_task_finally
                    (_process_task_except kx tk m el nw).1 tk) as Hf
  end.
  core_rewrite Hf. core_rewrite He. core_rewrite Hs.
  by rewrite !lookup_alter_eq, Ht.
Qed.

End Outcomes.

(** * Further properties of the kernel *)

(** ** Bookkeeping fields: the vault and the metrics *)

Section Bookkeeping.

Variable P : VoidKernel → Prop.
Hypothesis P_fields : ∀ k k',
  memory_vault k' = memory_vault k →
  performance_metrics k' = performance_metrics k → P k → P k'.
Hypothesis P_vault : ∀ k task r, P k → P (_update_memory_vault k task r).1.
Hypothesis P_metrics : ∀ k m pt ok,
  P k → P (_update_performance_metrics k m pt ok).1.
Hypothesis P_initialize : ∀ k now, P k → P (initialize k now).

Lemma bookkeeping_except (k : VoidKernel) (task : AITask) (msg : string)
    (elapsed now : Z) :
  P k → P (_process_task_except k task msg elapsed now).1.
Proof.
  intros H. unfold _process_task_except.
  set (k2 := update_task (set_error msg) (task_id task)
               (update_task (set_status FAILED) (task_id task) k)).
  assert (P k2) as H2 by (by apply (P_fields k)).
  pose proof (P_metrics k2 (module task) elapsed false H2) as H3.
  destruct (_update_performance_metrics k2 (module task) elapsed false)
    as [k3 [e|]]; simpl in *; [done|].
  by apply (P_fields k3).
Qed.

Lemma bookkeeping_store (k : VoidKernel) (task : AITask) (r : PyVal)
    (elapsed now : Z) :
  P k → P (_process_task_store k task r elapsed now).1.
Proof.
  intros H. unfold _process_task_store.
  set (k2 := update_task (set_status COMPLETED) (task_id task)
               (update_task (set_result r) (task_id task) k)).
  assert (P k2) as H2 by (by apply (P_fields k)).
  pose proof (P_vault k2 task r H2) as H3.
  destruct (_update_memory_vault k2 task r) as [k3 [e|]]; simpl in *; [done|].
  apply P_metrics. by apply (P_fields k3).
Qed.

Lemma bookkeeping_finally (k : VoidKernel) (task : AITask) :
  P k → P (_process_task_finally k task).
Proof. by apply P_fields. Qed.

Lemma bookkeeping_resume (k : VoidKernel) (task : AITask) (o : Outcome)
    (elapsed now : Z) :
  P k → P (_process_task_resume k task o elapsed now).
Proof.
  intros H. unfold _process_task_resume. apply bookkeeping_finally.
  destruct o as [r|msg|]; simpl.
  - pose proof (bookkeeping_store k task r elapsed now H) as Hs.
    destruct (_process_task_store k task r elapsed now) as [k1 [msg|]];
      simpl in *; [by apply bookkeeping_except|done].
  - by apply bookkeeping_except.
  - done.
Qed.

Lemma bookkeeping_cancel_workers (ws : list Worker) :
  ∀ k, P k → P (foldl cancel_worker k ws).
Proof.
  induction ws as [|st ws IH]; intros k H; simpl; [done|].
  apply IH. destruct st; simpl; try done. by apply bookkeeping_finally.
Qed.

(** A property of the vault and the metrics that their two update functions
    and [initialize] keep is kept by every operation. *)
Lemma bookkeeping_step (k : VoidKernel) (op : Op) : P k → P (step k op).
Proof.
  intros H. destruct op; simpl.
  - by apply P_initialize.
  - by apply (P_fields k).
  - by apply (P_fields k).
  - by apply (P_fields k).
  - by apply (P_fields k).
  - unfold _worker.
    destruct (worker_tasks k !! w) as [[|inv| |e0|]|]; try done;
      [|by apply (P_fields k)].
    destruct (is_running k); simpl; [|by apply (P_fields k)].
    destruct (PriorityQueue_get (task_queue k)) as [[e q']|]; [|done].
    destruct (tasks _ !! q_task e) as [task|]; [|by apply (P_fields k)].
    destruct (_check_dependencies _ task); simpl; [|by apply (P_fields k)].
    unfold _process_task_begin. simpl.
    destruct (ai_modules k !! module task) as [m|]; simpl;
      [by apply (P_fields k)|].
    apply bookkeeping_finally, bookkeeping_except. by apply (P_fields k).
  - unfold _worker_resume.
    destruct (worker_tasks k !! w) as [[|inv| |e0|]|]; try done.
    apply (P_fields (_process_task_resume k (inv_task inv) o elapsed now));
      [done|done|]. by apply bookkeeping_resume.
  - unfold _message_broker. destruct (is_running k && _); [|done].
    by apply (P_fields k).
  - unfold execute_command, execute_command_body.
    destruct (py_eq_str _ "get_status"); [done|].
    destruct (py_eq_str _ "get_task_status").
    { destruct (hash_key _) as [[tid|]|msg]; simpl; try done.
      unfold task_response.
      destruct (bool_decide (tid ∈ active_tasks k)),
        (bool_decide (tid ∈ completed_tasks k)), (tasks k !! tid); done. }
    destruct (py_eq_str _ "cancel_task"); [|done].
    destruct (hash_key _) as [[tid|]|msg]; simpl; try done.
    case_bool_decide; [|done]. by apply (P_fields k).
  - unfold shutdown.
    match goal with
    | |- P (set_worker_tasks _ ?k2) => apply (P_fields k2); [done|done|]
    end.
    apply bookkeeping_cancel_workers. by apply (P_fields k).
  - unfold _worker_take.
    destruct (worker_tasks k !! w) as [[|inv| |e0|]|]; try done.
    + destruct (is_running k); simpl; [|by apply (P_fields k)].
      destruct (PriorityQueue_get (task_queue k)) as [[e q']|]; [|done].
      by apply (P_fields k).
    + destruct (PriorityQueue_get (task_queue k)) as [[e q']|]; [|done].
      by apply (P_fields k).
  - unfold _worker_test.
    destruct (worker_tasks k !! w) as [[|inv| |e|]|]; try done.
    destruct (tasks _ !! q_task e) as [task|]; [|by apply (P_fields k)].
    destruct (_check_dependencies _ task); simpl; [|by apply (P_fields k)].
    unfold _process_task_begin. simpl.
    destruct (ai_modules k !! module task) as [m|]; simpl;
      [by apply (P_fields k)|].
    match goal with
    | |- P (set_worker _ _ ?k2) => apply (P_fields k2); [done|done|]
    end.
    apply bookkeeping_finally, bookkeeping_except. by apply (P_fields k).
Qed.

Lemma bookkeeping_reachable (k : VoidKernel) :
  P VoidKernel_new → reachable k → P k.
Proof.
  intros Hnew. induction 1 as [|k op _ IH _]; [done|by apply bookkeeping_step].
Qed.

End Bookkeeping.

(** ** The memory vault is bounded *)

Lemma summarize_result_keys (r : PyVal) (s : ResultSummary) :
  _summarize_result r = Ok s → (length (key_outputs s) ≤ key_output_limit)%nat.
Proof.
  destruct r; simpl; try done. intros [= <-]. simpl.
  rewrite length_take. unfold key_output_limit. lia.
Qed.

Lemma last_n_length {A} (n : nat) (l : list A) :
  (n < length l)%nat → length (last_n n l) = n.
Proof. intros H. unfold last_n. rewrite length_drop. lia. Qed.

Lemma last_n_suffix {A} (n : nat) (l : list A) : last_n n l `suffix_of` l.
Proof. apply suffix_drop. Qed.

Lemma vault_bounded_update (k : VoidKernel) (task : AITask) (r : PyVal) :
  vault_bounded (memory_vault k) →
  vault_bounded (memory_vault (_update_memory_vault k task r).1).
Proof.
  intros H. unfold _update_memory_vault.
  destruct (user_id task) as [u|]; [|done].
  destruct (truthy_str (Some u)) eqn:Eu; [|done].
  assert (u ≠ "") as Hu.
  { simpl in Eu. by apply negb_true_iff, String.eqb_neq in Eu. }
  set (vault1 := match memory_vault k !! u with
                 | None => <[u:=[]]> (memory_vault k)
                 | Some _ => memory_vault k
                 end).
  assert (vault_bounded vault1) as H1.
  { subst vault1. destruct (memory_vault k !! u) eqn:E; [done|].
    intros u' l. destruct (decide (u' = u)) as [->|Hne].
    - rewrite lookup_insert_eq. intros [= <-]. simpl.
      split; [done|]. split; [lia|constructor].
    - rewrite lookup_insert_ne; [apply H|done]. }
  destruct (_summarize_result r) as [s|msg] eqn:Es; simpl; [|done].
  intros u' l. destruct (decide (u' = u)) as [->|Hne];
    [|rewrite lookup_insert_ne; [apply H1|done]].
  rewrite lookup_insert_eq. intros [= <-]. split; [done|].
  set (old := default [] (vault1 !! u)).
  set (rec := mkVaultRecord _ _ _ _ _).
  assert (Forall (fun r => (length (key_outputs (result_summary r))
                            ≤ key_output_limit)%nat) (old ++ [rec])) as Hall.
  { apply Forall_app. split.
    - subst old. destruct (vault1 !! u) as [l|] eqn:El; simpl; [|constructor].
      by apply (H1 u l).
    - apply Forall_singleton. simpl. by apply summarize_result_keys with r. }
  destruct (50 <? length (old ++ [rec]))%nat eqn:E50.
  - apply Nat.ltb_lt in E50. split.
    + rewrite last_n_length; [done|lia].
    + destruct (last_n_suffix 50 (old ++ [rec])) as [pre Hpre].
      rewrite Hpre in Hall. by apply Forall_app in Hall as [_ ?].
  - apply Nat.ltb_ge in E50. by split.
Qed.

(** ** The counters of the metrics *)

Lemma total_tasks_sum_insert (mp : gmap string ModulePerf) (m : string)
    (x : ModulePerf) :
  mp !! m = None → total_tasks_sum (<[m := x]> mp) = total_tasks x + total_tasks_sum mp.
Proof.
  intros H. unfold total_tasks_sum.
  rewrite map_fold_insert_L; [done| |done]. intros. lia.
Qed.

Lemma total_tasks_sum_update (mp : gmap string ModulePerf) (m : string)
    (x y : ModulePerf) :
  mp !! m = Some x →
  total_tasks_sum (<[m := y]> mp) = total_tasks_sum mp - total_tasks x + total_tasks y.
Proof.
  intros H.
  rewrite <- (insert_delete_eq mp m y), total_tasks_sum_insert
    by apply lookup_delete_eq.
  rewrite <- (insert_delete_id mp m x) at 2 by done.
  rewrite total_tasks_sum_insert by apply lookup_delete_eq. lia.
Qed.

Lemma metrics_exact_update (k : VoidKernel) (m : string) (pt : Z) (ok : bool) :
  metrics_exact (performance_metrics k) →
  metrics_exact (performance_metrics (_update_performance_metrics k m pt ok).1).
Proof.
  intros H. unfold _update_performance_metrics.
  destruct (performance_metrics k) as [pm|] eqn:Epm; [|by simpl; rewrite Epm].
  destruct (H pm eq_refl) as [Hsum Hmods]. simpl.
  intros pm' [= <-]. simpl.
  destruct (module_performance pm !! m) as [x|] eqn:Em.
  - rewrite Em. simpl. destruct (Hmods m x Em) as (Hx1 & Hx2 & Hx3 & Hx4).
    split.
    + erewrite total_tasks_sum_update by done. simpl. lia.
    + intros m' mp'. destruct (decide (m' = m)) as [->|Hne].
      * rewrite lookup_insert_eq. intros [= <-]. simpl. destruct ok; lia.
      * rewrite lookup_insert_ne by done. apply Hmods.
  - rewrite lookup_insert_eq. simpl. split.
    + rewrite insert_insert_eq, total_tasks_sum_insert by done. simpl. lia.
    + intros m' mp'. destruct (decide (m' = m)) as [->|Hne].
      * rewrite lookup_insert_eq. intros [= <-]. simpl. destruct ok; lia.
      * rewrite !lookup_insert_ne by done. apply Hmods.
Qed.

Lemma metrics_exact_initialize (k : VoidKernel) (now : Z) :
  metrics_exact (performance_metrics (initialize k now)).
Proof.
  intros pm [= <-]. simpl. split; [done|]. intros m mp. by rewrite lookup_empty.
Qed.


(** X1.  In every reachable state of the kernel each entry of the memory
    vault is kept under a non-empty key and holds at most 50 records, and the
    summary of each record lists at most 5 keys of the result. *)
Theorem memory_vault_bounded (k : VoidKernel) :
  reachable k → vault_bounded (memory_vault k).
Proof.
  apply (bookkeeping_reachable (fun k => vault_bounded (memory_vault k))).
  - intros k1 k2 Hv _. by rewrite Hv.
  - intros k1 task r. apply vault_bounded_update.
  - intros k1 m pt ok Hk.
    by replace (memory_vault (_update_performance_metrics k1 m pt ok).1)
      with (memory_vault k1)
      by (unfold _update_performance_metrics; by destruct (performance_metrics k1)).
  - done.
  - intros u l. simpl. by rewrite lookup_empty.
Qed.

(** Sixty tasks of one user are completed: the user's entry holds the
    records of the last fifty, the oldest being that of task 10. *)
Lemma memory_vault_bounded_witness :
  let k := run VoidKernel_new (user_flood_ops 60) in
  vault_bounded (memory_vault k)
  ∧ length <$> memory_vault k !! "user-1" = Some 50%nat
  ∧ (memory_vault k !! "user-1" ≫= head) ≫= (fun r => Some (vr_task_id r))
    = Some "10".
Proof.
  intros k.
  assert (reachable k) as Hreach
    by (apply reachable_run; [apply reachable_new | vm_compute; reflexivity]).
  split; [exact (memory_vault_bounded k Hreach)|].
  split; vm_compute; reflexivity.
Defined.

(** X2.  In every reachable state the counters of the performance metrics
    agree: [tasks_processed] is the sum of the [total_tasks] of the modules,
    and every module entry has [total_tasks = success_count + error_count]
    with [total_tasks] at least 1, so the divisions of
    [_performance_monitor] are defined. *)
Theorem performance_counters_agree (k : VoidKernel) :
  reachable k → metrics_exact (performance_metrics k).
Proof.
  apply (bookkeeping_reachable (fun k => metrics_exact (performance_metrics k))).
  - intros k1 k2 _ Hm. by rewrite Hm.
  - intros k1 task r Hk.
    replace (performance_metrics (_update_memory_vault k1 task r).1)
      with (performance_metrics k1); [done|].
    unfold _update_memory_vault. destruct (user_id task); [|done].
    destruct (truthy_str _); [|done]. by destruct (_summarize_result r).
  - intros k1 m pt ok. apply metrics_exact_update.
  - intros k1 now _. apply metrics_exact_initialize.
  - by intros pm.
Qed.

(** After one completed task of ["forge"] and one failed task of ["ghost"]
    the kernel has processed 2 tasks, one per module. *)
Lemma performance_counters_agree_witness :
  let k := run VoidKernel_new mixed_outcome_scenario in
  metrics_exact (performance_metrics k)
  ∧ tasks_processed <$> performance_metrics k = Some 2
  ∧ (performance_metrics k ≫= fun pm => module_performance pm !! "forge")
    = Some (mkModulePerf 1 1 1 0)
  ∧ (performance_metrics k ≫= fun pm => module_performance pm !! "ghost")
    = Some (mkModulePerf 1 0 0 1).
Proof.
  intros k.
  assert (reachable k) as Hreach
    by (apply reachable_run; [apply reachable_new | vm_compute; reflexivity]).
  split; [exact (performance_counters_agree k Hreach)|].
  repeat split; vm_compute; reflexivity.
Defined.

Section Flow.

Lemma started_alter (T : gmap string AITask) (f : AITask → AITask)
    (x tid : string) :
  (∀ t, status (f t) ≠ PENDING) →
  (∃ t, T !! tid = Some t ∧ status t ≠ PENDING) →
  ∃ t, alter f x T !! tid = Some t ∧ status t ≠ PENDING.
Proof.
  intros Hf (t & Ht & Hs). destruct (decide (x = tid)) as [->|Hne].
  - exists (f t). by rewrite lookup_alter_eq, Ht.
  - exists t. by rewrite lookup_alter_ne.
Qed.

Lemma cleaned_key (kc : VoidKernel) (tid x : string) (C : list string) :
  x ∈ cleanup_completed kc (completed_set tid C) → x ∈ C ∨ x = tid.
Proof.
  intros Hx. apply cleanup_completed_subset in Hx.
  unfold completed_set in Hx. case_bool_decide; [by left|].
  apply elem_of_app in Hx as [?|Hx]; [by left|].
  right. by apply list_elem_of_singleton in Hx.
Qed.

Lemma awaited_ids_elem (W : list Worker) (tid : string) :
  tid ∈ awaited_ids W ↔ in_flight W tid.
Proof.
  unfold awaited_ids, in_flight. rewrite list_elem_of_omap. split.
  - intros (st & Hst & Hid). destruct st as [|inv| | |]; simplify_eq/=.
    apply list_elem_of_lookup in Hst as [w Hw]. by eauto.
  - intros (w & inv & Hw & <-). exists (WAwait inv).
    split; [by eapply list_elem_of_lookup_2|done].
Qed.

(** Every transition of the core keeps the second invariant. *)
Lemma core_step_flow (c c' : Core) :
  core_inv c → flow_inv c → core_step c c' → flow_inv c'.
Proof.
  intros (Hs & Hm & _ & _ & Hst) [Haw Hbm Hcs] Hstep.
  destruct Hstep as
    [c|c|c t0 e Hfresh Hpend He|c n|c w Hw|c w e q' Hw Hget
    |c w e task Hw Htask Hdeps|c w e task inv Hw Htask Hdeps Hinv
    |c w e task f kc Hw Htask Hdeps Hf Hfail
    |c w inv f kc Hw Hf Hfin|c w inv kc Hw|c tid Hact
    |c A' C' HA' HCnd HClen HC'];
    simpl in *.
  - by split.
  - by split.
  - split; simpl; [done|done|].
    intros tid Htid. destruct (Hcs tid Htid) as (t & Ht & Hne).
    exists t. split; [|done]. rewrite lookup_insert_ne; [done|]. congruence.
  - assert (∀ w st, (c_workers c ++ replicate n WIdle)%list !! w = Some st →
                    c_workers c !! w = Some st ∨ st = WIdle) as Hold.
    { intros w st Hw. apply lookup_app_Some in Hw as [Hw|[_ Hw]]; [by left|].
      apply lookup_replicate in Hw as [? _]. by right. }
    split; simpl; [| |done].
    + intros w inv Hw. destruct (Hold w _ Hw) as [?|?]; [by eauto|done].
    + intros w st Hw Hb. destruct (Hold w _ Hw) as [?| ->]; [by eauto|done].
  - split; simpl; [| |done].
    + intros w' inv Hw'.
      apply list_lookup_insert_Some in Hw' as [(_ & ? & _)|[_ Hw']];
        [done|by eauto].
    + intros w' st Hw' Hb.
      apply list_lookup_insert_Some in Hw' as [(_ & <- & _)|[_ Hw']];
        [done|by eauto].
  - assert (c_metrics c = true) as Hmet.
    { destruct Hw as [[_ Hrun]|Hw]; [by apply Hm|by apply (Hbm w WStopping)]. }
    split; simpl; [| |done].
    + intros w' inv Hw'.
      apply list_lookup_insert_Some in Hw' as [(_ & ? & _)|[_ Hw']];
        [done|by eauto].
    + done.
  - split; simpl; [| |done].
    + intros w' inv Hw'.
      apply list_lookup_insert_Some in Hw' as [(_ & ? & _)|[_ Hw']];
        [done|by eauto].
    + intros w' st Hw' Hb.
      apply list_lookup_insert_Some in Hw' as [(_ & <- & _)|[_ Hw']];
        [done|by eauto].
  - assert (task_id task = q_task e) as Hid by (by apply (si_keys _ _ _ _ Hs)).
    split; simpl.
    + intros w' inv' Hw'.
      apply list_lookup_insert_Some in Hw' as [(_ & Heq & _)|[_ Hw']].
      * injection Heq as <-. rewrite Hinv, Hid.
        by apply elem_of_union_l, elem_of_singleton.
      * apply elem_of_union_r. by eapply Haw.
    + intros _ _ _ _. by apply (Hbm w (WTaken e)).
    + intros tid Htid. apply started_alter; [done|by apply Hcs].
  - assert (e ∈ (c_queue c ++ held_entries (c_workers c))%list) as Hin
      by (by eapply held_in_pool).
    assert (∀ t, status (f t) ≠ PENDING) as Hnp
      by (intros t; by rewrite Hfail).
    split; simpl.
    + intros w' inv' Hw'.
      apply list_lookup_insert_Some in Hw' as [(_ & ? & _)|[_ Hw']]; [done|].
      pose proof (queued_not_awaited _ _ _ _ Hs e w' inv' Hin Hw') as Hne.
      apply elem_of_difference. split; [apply elem_of_union_r; by eapply Haw|].
      by intros ?%elem_of_singleton.
    + intros w' st Hw' Hb.
      apply list_lookup_insert_Some in Hw' as [(_ & <- & _)|[_ Hw']];
        [done|by eauto].
    + intros tid Htid. apply cleaned_key in Htid as [Htid| ->].
      * apply started_alter; [done|by apply Hcs].
      * exists (f task). by rewrite lookup_alter_eq, Htask.
  - assert (∀ t, status (f t) ≠ PENDING) as Hnp
      by (intros t; destruct (Hfin t) as [-> | ->]; done).
    split; simpl.
    + intros w' inv' Hw'.
      apply list_lookup_insert_Some in Hw' as [(_ & ? & _)|[Hne Hw']]; [done|].
      apply elem_of_difference. split; [by eapply Haw|].
      intros Heq%elem_of_singleton. apply Hne.
      by apply (si_flight_inj _ _ _ _ Hs w w' inv inv').
    + intros w' st Hw' Hb.
      apply list_lookup_insert_Some in Hw' as [(_ & <- & _)|[_ Hw']];
        [done|by eauto].
    + intros tid Htid. apply cleaned_key in Htid as [Htid| ->].
      * apply started_alter; [done|by apply Hcs].
      * destruct (si_flight _ _ _ _ Hs w inv Hw) as (t & Ht & _).
        exists (f t). by rewrite lookup_alter_eq, Ht.
  - split; simpl.
    + intros w' inv' Hw'.
      apply list_lookup_insert_Some in Hw' as [(_ & ? & _)|[Hne Hw']]; [done|].
      apply elem_of_difference. split; [by eapply Haw|].
      intros Heq%elem_of_singleton. apply Hne.
      by apply (si_flight_inj _ _ _ _ Hs w w' inv inv').
    + intros w' st Hw' Hb.
      apply list_lookup_insert_Some in Hw' as [(_ & <- & _)|[_ Hw']];
        [done|by eauto].
    + intros tid Htid. apply cleaned_key in Htid as [Htid| ->];
        [by apply Hcs|].
      destruct (si_flight _ _ _ _ Hs w inv Hw) as (t & Ht & Hex).
      exists t. split; [done|]. by destruct Hex as [-> | ->].
  - split; simpl; [done|done|].
    intros tid' Htid. apply started_alter; [done|by apply Hcs].
  - split; simpl.
    + intros w inv Hw. by destruct (stop_worker_not_await _ _ _ _ Hw).
    + intros w st Hw Hb. rewrite list_lookup_fmap in Hw.
      destruct (c_workers c !! w) as [st0|] eqn:Hw0; [|done].
      simpl in Hw. injection Hw as <-.
      destruct st0 as [|inv| |e|]; simpl in Hb; try done.
      * destruct (c_running c); [by apply Hm|done].
      * by apply (Hbm w (WTaken e)).
      * by apply (Hbm w WStopping).
    + intros tid Htid. apply HC' in Htid as [Htid|Htid]; [by apply Hcs|].
      apply awaited_ids_elem in Htid as (w & inv & Hw & <-).
      destruct (si_flight _ _ _ _ Hs w inv Hw) as (t & Ht & Hex).
      exists t. split; [done|]. by destruct Hex as [-> | ->].
Qed.

Lemma flow_inv_new : flow_inv (core VoidKernel_new).
Proof.
  split; simpl.
  - intros w inv Hw. by rewrite lookup_nil in Hw.
  - intros w st Hw. by rewrite lookup_nil in Hw.
  - intros tid Htid. by apply elem_of_nil in Htid.
Qed.

Lemma reachable_flow (k : VoidKernel) : reachable k → flow_inv (core k).
Proof.
  induction 1 as [|k op Hk IH Hop]; [apply flow_inv_new|].
  apply (step_keeps flow_inv); try done; [|by apply reachable_inv].
  intros c c' Hc Hf Hstep. by apply (core_step_flow c).
Qed.

End Flow.

Section Places.

Lemma awaited_ids_NoDup (W : list Worker) :
  (∀ w w' inv inv',
     W !! w = Some (WAwait inv) → W !! w' = Some (WAwait inv') →
     task_id (inv_task inv) = task_id (inv_task inv') → w = w') →
  NoDup (awaited_ids W).
Proof.
  induction W as [|st W IH]; intros Hinj; [apply NoDup_nil_2|].
  assert (NoDup (awaited_ids W)) as Hnd.
  { apply IH. intros w w' inv inv' Hw Hw' Hid.
    by injection (Hinj (S w) (S w') inv inv' Hw Hw' Hid). }
  destruct st as [|inv| | |]; try done.
  change (NoDup (task_id (inv_task inv) :: awaited_ids W)).
  apply NoDup_cons. split; [|done].
  intros (w' & inv' & Hw' & Hid)%awaited_ids_elem.
  by specialize (Hinj 0%nat (S w') inv inv' eq_refl Hw' (eq_sym Hid)).
Qed.

Lemma awaited_ids_live (W : list Worker) :
  (length (awaited_ids W)
   ≤ length (filter (fun st => Is_true (is_live st)) W))%nat.
Proof.
  induction W as [|st W IH]; [done|].
  destruct st as [|inv| |e|].
  - rewrite filter_cons_True by done.
    change (awaited_ids (WIdle :: W)) with (awaited_ids W). simpl. lia.
  - rewrite filter_cons_True by done.
    change (awaited_ids (WAwait inv :: W))
      with (task_id (inv_task inv) :: awaited_ids W). simpl. lia.
  - rewrite filter_cons_False by (by intros []). done.
  - rewrite filter_cons_True by done.
    change (awaited_ids (WTaken e :: W)) with (awaited_ids W). simpl. lia.
  - rewrite filter_cons_True by done.
    change (awaited_ids (WStopping :: W)) with (awaited_ids W). simpl. lia.
Qed.

Lemma active_awaited (k : VoidKernel) (tid : string) :
  reachable k → tid ∈ active_tasks k ↔ tid ∈ awaited_ids (worker_tasks k).
Proof.
  intros Hk. pose proof (reachable_inv k Hk) as (Hs & _).
  pose proof (reachable_flow k Hk) as Hf. simpl in Hs.
  rewrite awaited_ids_elem. split.
  - apply (si_active _ _ _ _ Hs).
  - intros (w & inv & Hw & <-). by apply (fi_awaited_active _ Hf w inv).
Qed.

Lemma active_size (k : VoidKernel) :
  reachable k → size (active_tasks k) = length (awaited_ids (worker_tasks k)).
Proof.
  intros Hk. pose proof (reachable_inv k Hk) as (Hs & _). simpl in Hs.
  assert (active_tasks k = list_to_set (awaited_ids (worker_tasks k))) as ->.
  { apply set_eq. intros tid. rewrite elem_of_list_to_set.
    by apply active_awaited. }
  apply size_list_to_set, awaited_ids_NoDup, (si_flight_inj _ _ _ _ Hs).
Qed.

(** The identifiers of the entries that are queued or held by a worker. *)
Lemma held_by_worker_elem (W : list Worker) (tid : string) :
  held_by_worker W tid ↔ tid ∈ q_task <$> held_entries W.
Proof.
  unfold held_by_worker. rewrite list_elem_of_fmap. split.
  - intros (w & e & Hw & <-). exists e. split; [done|].
    apply held_entries_elem. by eauto.
  - intros (e & -> & [w Hw]%held_entries_elem). by eauto.
Qed.

Lemma pool_pending (k : VoidKernel) (tid : string) :
  reachable k →
  tid ∈ q_task <$> (task_queue k ++ held_entries (worker_tasks k))%list →
  task_status k tid = Some PENDING.
Proof.
  intros Hk. pose proof (reachable_inv k Hk) as (Hs & _). simpl in Hs.
  unfold task_status. intros (e & -> & He)%list_elem_of_fmap.
  destruct (si_queue _ _ _ _ Hs e He) as (t & -> & <-). done.
Qed.

Lemma pool_size (k : VoidKernel) :
  reachable k →
  (length (task_queue k) + length (held_entries (worker_tasks k))
   ≤ size (pending_tasks k))%nat.
Proof.
  intros Hk. pose proof (reachable_inv k Hk) as (Hs & _). simpl in Hs.
  rewrite <- length_app, <- (length_fmap q_task), <- length_map_to_list.
  rewrite <- (length_fmap fst (map_to_list _)).
  apply submseteq_length, NoDup_submseteq.
  - apply (si_queue_nodup _ _ _ _ Hs).
  - intros tid Hin. pose proof (pool_pending k tid Hk Hin) as Hp.
    unfold task_status in Hp.
    destruct (tasks k !! tid) as [t|] eqn:Ht; [|done]. injection Hp as Hp.
    apply list_elem_of_fmap. exists (tid, t). split; [done|].
    apply elem_of_map_to_list. by apply map_lookup_filter_Some.
Qed.

(** Where the identifier of a PENDING, an active and a completed task is. *)
Lemma task_places (k : VoidKernel) (tid : string) :
  reachable k →
  (task_status k tid = Some PENDING →
   (tid ∉ active_tasks k) ∧ (tid ∉ completed_tasks k))
  ∧ (tid ∈ active_tasks k →
     ∃ t, tasks k !! tid = Some t ∧ executing (status t))
  ∧ (tid ∈ completed_tasks k →
     ∃ t, tasks k !! tid = Some t ∧ status t ≠ PENDING).
Proof.
  intros Hk. pose proof (reachable_inv k Hk) as (Hs & _).
  pose proof (reachable_flow k Hk) as Hf. simpl in Hs.
  assert (tid ∈ active_tasks k →
          ∃ t, tasks k !! tid = Some t ∧ executing (status t)) as Hact.
  { intros Hin. destruct (si_active _ _ _ _ Hs tid Hin) as (w & inv & Hw & <-).
    apply (si_flight _ _ _ _ Hs w inv Hw). }
  pose proof (fi_completed_started _ Hf tid) as Hcomp. simpl in Hcomp.
  split; [|by split]. unfold task_status. intros Hp. split; intros Hin.
  - destruct (Hact Hin) as (t & Ht & Hex). rewrite Ht in Hp.
    simpl in Hp. by destruct Hex as [Hx|Hx]; rewrite Hx in Hp.
  - destruct (Hcomp Hin) as (t & Ht & Hne). rewrite Ht in Hp.
    simpl in Hp. congruence.
Qed.

End Places.

(** X3.  In every reachable state the place of a task tells its status.
    An identifier that is in the queue, or in an entry that a worker has taken
    off the queue and holds, belongs to a PENDING task, and no identifier is
    queued or held twice; an identifier in the active map belongs to a task
    that is RUNNING or CANCELLED, awaited by a worker; a key of the completed
    map belongs to a stored task that is not PENDING.  Hence no identifier is
    both queued or held and active, or both queued or held and completed. *)
Theorem task_place_by_status (k : VoidKernel) (tid : string) :
  reachable k →
  (tid ∈ q_task <$> task_queue k ∨ held_by_worker (worker_tasks k) tid →
   task_status k tid = Some PENDING)
  ∧ NoDup (q_task <$> (task_queue k ++ held_entries (worker_tasks k))%list)
  ∧ (tid ∈ active_tasks k →
     in_flight (worker_tasks k) tid
     ∧ (task_status k tid = Some RUNNING ∨ task_status k tid = Some CANCELLED))
  ∧ (tid ∈ completed_tasks k →
     ∃ s, task_status k tid = Some s ∧ s ≠ PENDING)
  ∧ (tid ∈ q_task <$> task_queue k ∨ held_by_worker (worker_tasks k) tid →
     (tid ∉ active_tasks k) ∧ (tid ∉ completed_tasks k)).
Proof.
  intros Hk. pose proof (reachable_inv k Hk) as (Hs & _). simpl in Hs.
  destruct (task_places k tid Hk) as (Hq & Ha & Hc).
  assert (tid ∈ q_task <$> task_queue k ∨ held_by_worker (worker_tasks k) tid →
          task_status k tid = Some PENDING) as Hpool.
  { intros Hin. apply pool_pending; [done|]. rewrite fmap_app, elem_of_app.
    destruct Hin as [Hin|Hin]; [by left|right]. by apply held_by_worker_elem. }
  split; [exact Hpool|].
  split; [apply (si_queue_nodup _ _ _ _ Hs)|].
  split; [|split].
  - intros Hin. split; [by apply (si_active _ _ _ _ Hs)|].
    destruct (Ha Hin) as (t & Ht & Hex). unfold task_status. rewrite Ht.
    simpl. destruct Hex as [-> | ->]; by eauto.
  - intros Hin. destruct (Hc Hin) as (t & Ht & Hne). exists (status t).
    unfold task_status. by rewrite Ht.
  - intros Hin. by apply Hq, Hpool.
Qed.

(** Worker 0 has taken the entry of ["task-q"] off the queue and holds it:
    the queue is empty and the task is PENDING, neither active nor
    completed. *)
Lemma task_place_by_status_witness :
  let k := run VoidKernel_new (pending_scenario ++ [OpTake 0]) in
  task_queue k = []
  ∧ worker_tasks k !! 0%nat = Some (WTaken (mkQEntry 2 1 "task-q"))
  ∧ task_status k "task-q" = Some PENDING
  ∧ ("task-q" ∉ active_tasks k) ∧ ("task-q" ∉ completed_tasks k).
Proof.
  intros k.
  assert (reachable k) as Hreach
    by (apply reachable_run; [apply reachable_new | vm_compute; reflexivity]).
  assert (worker_tasks k !! 0%nat = Some (WTaken (mkQEntry 2 1 "task-q")))
    as Hw by (vm_compute; reflexivity).
  assert (held_by_worker (worker_tasks k) "task-q") as Hheld.
  { exists 0%nat, (mkQEntry 2 1 "task-q"). split; [exact Hw|reflexivity]. }
  destruct (task_place_by_status k "task-q" Hreach) as (Hq & _ & _ & _ & Hx).
  split; [vm_compute; reflexivity|]. split; [exact Hw|].
  split; [apply Hq; by right|]. apply Hx. by right.
Defined.

(** X4.  In every reachable state the active map holds exactly the tasks
    that the workers await; no two workers await the same task; so there is
    one active task per awaiting worker, and the number of active tasks never
    exceeds the number of worker loops that have not ended. *)
Theorem active_tasks_within_pool (k : VoidKernel) :
  reachable k →
  (∀ tid, tid ∈ active_tasks k ↔ in_flight (worker_tasks k) tid)
  ∧ (∀ w w' inv inv',
       worker_tasks k !! w = Some (WAwait inv) →
       worker_tasks k !! w' = Some (WAwait inv') →
       task_id (inv_task inv) = task_id (inv_task inv') → w = w')
  ∧ size (active_tasks k) = length (awaited_ids (worker_tasks k))
  ∧ (size (active_tasks k) ≤ live_workers k)%nat.
Proof.
  intros Hk. pose proof (reachable_inv k Hk) as (Hs & _). simpl in Hs.
  split; [|split; [|split]].
  - intros tid. rewrite <- awaited_ids_elem. by apply active_awaited.
  - apply (si_flight_inj _ _ _ _ Hs).
  - by apply active_size.
  - rewrite active_size by done. apply awaited_ids_live.
Qed.

Lemma active_tasks_within_pool_witness :
  let k := run VoidKernel_new running_scenario in
  size (active_tasks k) = 1%nat ∧ live_workers k = 1%nat.
Proof.
  intros k.
  assert (reachable k) as Hreach
    by (apply reachable_run; [apply reachable_new | vm_compute; reflexivity]).
  destruct (active_tasks_within_pool k Hreach) as (_ & _ & Hsize & _).
  split; [rewrite Hsize|]; vm_compute; reflexivity.
Defined.

(** X5.  In every reachable state the [get_status] command changes nothing
    and reports, as ["active_tasks"], the number of workers that await a
    module call and, as ["queue_size"], the length of the queue; the entries
    of the queue and those that workers hold are together no more than the
    PENDING tasks. *)
Theorem status_report_counts (k : VoidKernel) :
  reachable k →
  execute_command k status_command
  = Ok (k, [("status", RStr "active");
            ("active_tasks",
             RInt (Z.of_nat (length (awaited_ids (worker_tasks k)))));
            ("queue_size", RInt (Z.of_nat (length (task_queue k))));
            ("performance", RPerf (performance_metrics k))])
  ∧ (length (task_queue k) + length (held_entries (worker_tasks k))
     ≤ size (pending_tasks k))%nat.
Proof.
  intros Hk. split; [|by apply pool_size].
  unfold execute_command, execute_command_body. simpl.
  by rewrite active_size.
Qed.

(** Of the three PENDING tasks of [priority_scenario], worker 0 holds one
    and two are reported as queued. *)
Lemma status_report_counts_witness :
  let k := run VoidKernel_new (priority_scenario ++ [OpTake 0]) in
  ∃ perf, execute_command k status_command
          = Ok (k, [("status", RStr "active"); ("active_tasks", RInt 0);
                    ("queue_size", RInt 2); ("performance", perf)])
          ∧ size (pending_tasks k) = 3%nat.
Proof.
  intros k.
  assert (reachable k) as Hreach
    by (apply reachable_run; [apply reachable_new | vm_compute; reflexivity]).
  destruct (status_report_counts k Hreach) as [Hrep _].
  assert (length (awaited_ids (worker_tasks k)) = 0%nat) as Ha
    by (vm_compute; reflexivity).
  assert (length (task_queue k) = 2%nat) as Hq by (vm_compute; reflexivity).
  assert (size (pending_tasks k) = 3%nat) as Hp by (vm_compute; reflexivity).
  rewrite Ha, Hq in Hrep. eexists. split; [exact Hrep|exact Hp].
Defined.

(** X6.  What [get_task_status] answers in a reachable state: a task that is
    still PENDING in the queue is reported as ["Task not found"]; for an
    identifier in the active or the completed map the task object is found
    (the subscript never raises) and returned, and it is not PENDING.  The
    command changes nothing. *)
Theorem task_status_command_answers (k : VoidKernel) (tid : string) :
  reachable k →
  (task_status k tid = Some PENDING →
   execute_command k (task_status_command tid)
   = Ok (k, [("error", RStr "Task not found")]))
  ∧ (tid ∈ active_tasks k ∨ tid ∈ completed_tasks k →
     ∃ t, tasks k !! tid = Some t ∧ status t ≠ PENDING
          ∧ execute_command k (task_status_command tid)
            = Ok (k, [("task", RTask t)])).
Proof.
  intros Hk.
  destruct (task_places k tid Hk) as (Hq & Ha & Hc).
  unfold execute_command, execute_command_body, task_response. simpl. split.
  - intros Hp. destruct (Hq Hp) as [Hna Hnc].
    by rewrite !bool_decide_eq_false_2.
  - intros Hin.
    assert (∃ t, tasks k !! tid = Some t ∧ status t ≠ PENDING) as (t & Ht & Hne).
    { destruct Hin as [Hin|Hin]; [|by apply Hc].
      destruct (Ha Hin) as (t & Ht & Hex). exists t. split; [done|].
      by destruct Hex as [-> | ->]. }
    exists t. split; [done|]. split; [done|]. rewrite Ht.
    destruct Hin as [Hin|Hin].
    + by rewrite bool_decide_eq_true_2.
    + case_bool_decide; [done|]. by rewrite bool_decide_eq_true_2.
Qed.

(** The task of [pending_scenario] waits in the queue and is reported as
    not found. *)
Lemma task_status_command_answers_witness :
  let k := run VoidKernel_new pending_scenario in
  task_status k "task-q" = Some PENDING
  ∧ execute_command k (task_status_command "task-q")
    = Ok (k, [("error", RStr "Task not found")]).
Proof.
  intros k.
  assert (reachable k) as Hreach
    by (apply reachable_run; [apply reachable_new | vm_compute; reflexivity]).
  assert (task_status k "task-q" = Some PENDING) as Hp
    by (vm_compute; reflexivity).
  split; [exact Hp|].
  exact (proj1 (task_status_command_answers k "task-q" Hreach) Hp).
Defined.

Section Lost.

Lemma in_flight_insert_idle (W : list Worker) (w : nat) (st : Worker)
    (tid : string) :
  (∀ inv, st ≠ WAwait inv) → in_flight (<[w := st]> W) tid → in_flight W tid.
Proof.
  intros Hst (w' & inv & Hw' & Hid). exists w', inv. split; [|done].
  apply list_lookup_insert_Some in Hw' as [(_ & Heq & _)|[_ Hw']]; [|done].
  by destruct (Hst inv).
Qed.

Lemma lost_not_written (c : Core) (d x : string) :
  core_inv c → dependency_lost c d →
  (∃ t, c_tasks c !! x = Some t ∧ status t = PENDING) ∨ in_flight (c_workers c) x →
  x ≠ d.
Proof.
  intros (Hs & _) (t & Ht & Hlost) Hx ->.
  destruct Hx as [(t' & Ht' & Hp)|Hfl].
  - rewrite Ht in Ht'. injection Ht' as <-. unfold executing in Hlost.
    destruct Hlost as [?|[[? _]|[[?|?] _]]]; congruence.
  - pose proof Hfl as (w & inv & Hw & Hid).
    destruct (si_flight _ _ _ _ Hs w inv Hw) as (t' & Ht' & Hex).
    rewrite Hid, Ht in Ht'. injection Ht' as <-. unfold executing in Hex.
    destruct Hlost as [?|[[? _]|[_ Hn]]]; [| |done]; destruct Hex; congruence.
Qed.

(** A lost task is not written to, and stays lost. *)
Lemma core_step_lost (c c' : Core) (d : string) :
  core_inv c → dependency_lost c d → core_step c c' →
  c_tasks c' !! d = c_tasks c !! d ∧ dependency_lost c' d.
Proof.
  intros Hc Hlost Hstep. pose proof Hc as (Hs & _).
  pose proof (fun x => lost_not_written c d x Hc Hlost) as Hnw.
  pose proof Hlost as (t & Ht & Hcase).
  assert (∀ T' C' W',
            T' !! d = c_tasks c !! d →
            (d ∈ C' → d ∈ c_completed c
                      ∨ (∃ x, x ≠ d ∧ d = x)
                      ∨ in_flight (c_workers c) d) →
            (in_flight W' d → in_flight (c_workers c) d) →
            ∀ A Q r m,
              T' !! d = c_tasks c !! d
              ∧ dependency_lost (mkCore T' Q A W' C' r m) d) as Hkeep.
  { intros T' C' W' HT HC HW A Q r m. split; [done|].
    exists t. simpl. rewrite HT. split; [done|].
    destruct Hcase as [Hf|[[Hcomp Hout]|[Hex Hnf]]]; [by left| |].
    - right. left. split; [done|]. intros [Hin|[(x & Hne & Heq)|Hfl]]%HC;
        [done|congruence|].
      by destruct (Hnw d (or_intror Hfl)).
    - right. right. split; [done|]. intros Hfl%HW. done. }
  destruct Hstep as
    [c|c|c t0 e Hfresh Hpend He|c n|c w Hw|c w e q' Hw Hget
    |c w e task Hw Htask Hdeps|c w e task inv Hw Htask Hdeps Hinv
    |c w e task f kc Hw Htask Hdeps Hf Hfail
    |c w inv f kc Hw Hf Hfin|c w inv kc Hw|c tid Hact
    |c A' C' HA' HCnd HClen HC'].
  - done.
  - apply Hkeep; by eauto.
  - apply Hkeep; [|by eauto|done].
    rewrite lookup_insert_ne; [done|]. intros Heq. rewrite Heq in Hfresh.
    simpl in Ht. congruence.
  - apply Hkeep; [done|by eauto|].
    intros (w & inv & Hw & Hid). exists w, inv. split; [|done].
    apply lookup_app_Some in Hw as [Hw|[_ Hw]]; [done|].
    apply lookup_replicate in Hw as [? _]. done.
  - apply Hkeep; [done|by eauto|]. by apply in_flight_insert_idle.
  - apply Hkeep; [done|by eauto|]. by apply in_flight_insert_idle.
  - apply Hkeep; [done|by eauto|]. by apply in_flight_insert_idle.
  - assert (q_task e ≠ d) as Hne.
    { apply (Hnw (q_task e)). left.
      apply (si_queue _ _ _ _ Hs). by eapply held_in_pool. }
    apply Hkeep; [by rewrite lookup_alter_ne|by eauto|].
    intros (w' & inv' & Hw' & Hid). exists w', inv'. split; [|done].
    apply list_lookup_insert_Some in Hw' as [(_ & Heq & _)|[_ Hw']]; [|done].
    injection Heq as <-. rewrite Hinv in Hid.
    rewrite (si_keys _ _ _ _ Hs _ _ Htask) in Hid. done.
  - assert (q_task e ≠ d) as Hne.
    { apply (Hnw (q_task e)). left.
      apply (si_queue _ _ _ _ Hs). by eapply held_in_pool. }
    apply Hkeep; [by rewrite lookup_alter_ne| |by apply in_flight_insert_idle].
    intros [Hin| ->]%cleaned_key; [by left|]. right. left. by eauto.
  - assert (task_id (inv_task inv) ≠ d) as Hne.
    { apply Hnw. right. by exists w, inv. }
    apply Hkeep; [by rewrite lookup_alter_ne| |by apply in_flight_insert_idle].
    intros [Hin| ->]%cleaned_key; [by left|]. right. left. by eauto.
  - apply Hkeep; [done| |by apply in_flight_insert_idle].
    intros [Hin| ->]%cleaned_key; [by left|]. right. right. by exists w, inv.
  - assert (tid ≠ d) as Hne.
    { apply Hnw. right. by apply (si_active _ _ _ _ Hs). }
    apply Hkeep; [by rewrite lookup_alter_ne|by eauto|done].
  - apply Hkeep; [done| |].
    + intros [Hin|Hin%awaited_ids_elem]%HC'; [by left|by right; right].
    + intros (w & inv & Hw & _). by destruct (stop_worker_not_await _ _ _ _ Hw).
Qed.

Lemma lost_blocks (k : VoidKernel) (task : AITask) (d : string) :
  d ∈ dependencies task → dependency_lost (core k) d →
  _check_dependencies k task = false.
Proof.
  intros Hd (t & Ht & Hlost). apply not_true_is_false.
  intros Hok%check_dependencies_core.
  destruct (Hok d Hd) as (Hin & t' & Ht' & Hs). simpl in *.
  rewrite Ht in Ht'. injection Ht' as <-. unfold executing in Hlost.
  destruct Hlost as [?|[[_ ?]|[[?|?] _]]]; congruence.
Qed.

Lemma run_lost (ops : list Op) :
  ∀ k d, kernel_inv k → dependency_lost (core k) d →
         ops_enabled k ops = true →
         tasks (run k ops) !! d = tasks k !! d
         ∧ dependency_lost (core (run k ops)) d.
Proof.
  induction ops as [|op ops IH]; intros k d Hk Hlost Hops; simpl in *; [done|].
  apply andb_prop in Hops as [Hop Hops].
  assert (tasks (step k op) !! d = tasks k !! d
          ∧ dependency_lost (core (step k op)) d) as [Heq Hlost'].
  { apply (step_keeps (fun c => c_tasks c !! d = tasks k !! d
                                ∧ dependency_lost c d)); try done.
    intros c c' Hc [Hsame Hl] Hstep.
    destruct (core_step_lost c c' d Hc Hl Hstep) as [Heq Hl'].
    split; [by rewrite Heq|done]. }
  destruct (IH (step k op) d (step_inv k op Hk Hop) Hlost' Hops) as [Heq' Hl].
  split; [|done]. rewrite Heq'. exact Heq.
Qed.

End Lost.

Section Shutdown.








End Shutdown.

(** X7.  A dependency that is lost stays lost: if the task [d] has FAILED,
    or is COMPLETED with its key evicted from the completed map, or is
    RUNNING or CANCELLED with no worker awaiting it, then after any run of
    operations [d] is as it was and [_check_dependencies] is false for every
    task that names [d] among its dependencies. *)
Theorem lost_dependency_blocks_forever (k : VoidKernel) (task : AITask)
    (d : string) (ops : list Op) :
  reachable k →
  d ∈ dependencies task →
  dependency_lost (core k) d →
  ops_enabled k ops = true →
  tasks (run k ops) !! d = tasks k !! d
  ∧ _check_dependencies (run k ops) task = false.
Proof.
  intros Hk Hd Hlost Hops.
  destruct (run_lost ops k d (reachable_inv k Hk) Hlost Hops) as [Heq Hl].
  split; [done|]. by apply lost_blocks with d.
Qed.

(** ["task-a"] has FAILED; ["task-b"] depends on it and is still refused
    after three more worker turns. *)
Lemma lost_dependency_blocks_forever_witness :
  let k := run VoidKernel_new failed_dependency_scenario in
  task_status k "task-a" = Some FAILED
  ∧ _check_dependencies (run k worker_turns) dependent_task = false.
Proof.
  intros k.
  assert (reachable k) as Hreach
    by (apply reachable_run; [apply reachable_new | vm_compute; reflexivity]).
  assert (task_status k "task-a" = Some FAILED) as Hst
    by (vm_compute; reflexivity).
  assert (tasks k !! "task-a" = Some failed_task) as Ha
    by (vm_compute; reflexivity).
  split; [exact Hst|].
  refine (proj2 (lost_dependency_blocks_forever k dependent_task "task-a"
                   worker_turns Hreach _ _ _)).
  - left.
  - exists failed_task. split; [exact Ha|]. left. reflexivity.
  - vm_compute; reflexivity.
Defined.





Section Context.











End Context.


Section Books.

(** The counters and the broadcast channel depend on two fields. *)
Lemma books_ext (k k' : VoidKernel) (m : string) :
  performance_metrics k' = performance_metrics k →
  tasks_counted k' = tasks_counted k
  ∧ module_successes k' m = module_successes k m
  ∧ module_errors k' m = module_errors k m
  ∧ has_metrics k' = has_metrics k.
Proof.
  unfold tasks_counted, module_successes, module_errors, has_metrics.
  by intros ->.
Qed.

Lemma update_memory_vault_books (k : VoidKernel) (task : AITask) (r : PyVal) :
  performance_metrics (_update_memory_vault k task r).1 = performance_metrics k
  ∧ broadcast_channel (_update_memory_vault k task r).1 = broadcast_channel k.
Proof.
  unfold _update_memory_vault. destruct (user_id task); [|done].
  destruct (truthy_str _); [|done]. by destruct (_summarize_result r).
Qed.

Lemma update_performance_metrics_counts (k : VoidKernel) (m : string)
    (pt : Z) (ok : bool) :
  has_metrics k = true →
  let k' := (_update_performance_metrics k m pt ok).1 in
  (_update_performance_metrics k m pt ok).2 = None
  ∧ tasks_counted k' = tasks_counted k + 1
  ∧ module_successes k' m = module_successes k m + (if ok then 1 else 0)
  ∧ module_errors k' m = module_errors k m + (if ok then 0 else 1)
  ∧ broadcast_channel k' = broadcast_channel k
  ∧ has_metrics k' = true.
Proof.
  unfold has_metrics, tasks_counted, module_successes, module_errors,
    _update_performance_metrics.
  destruct (performance_metrics k) as [pm|]; [intros _|done]. simpl.
  rewrite !lookup_insert_eq. simpl.
  destruct (module_performance pm !! m) as [mp|] eqn:Hm; simpl.
  - rewrite Hm. simpl. destruct ok; repeat split; try done; lia.
  - rewrite lookup_insert_eq. simpl. destruct ok; repeat split; try done; lia.
Qed.

Lemma process_task_except_books (k : VoidKernel) (task : AITask)
    (msg : string) (elapsed now : Z) :
  has_metrics k = true →
  let k' := (_process_task_except k task msg elapsed now).1 in
  broadcast_channel k' = (broadcast_channel k ++ [failed_event task msg now])%list
  ∧ tasks_counted k' = tasks_counted k + 1
  ∧ module_successes k' (module task) = module_successes k (module task)
  ∧ module_errors k' (module task) = module_errors k (module task) + 1.
Proof.
  intros Hm. unfold _process_task_except.
  set (k2 := update_task (set_error msg) (task_id task)
               (update_task (set_status FAILED) (task_id task) k)).
  pose proof (update_performance_metrics_counts k2 (module task) elapsed false
                Hm) as H.
  destruct (_update_performance_metrics k2 (module task) elapsed false)
    as [k3 exc].
  cbn [fst snd] in H. destruct H as (-> & Hc & Hs & He & Hb & _).
  cbn [fst].
  change (broadcast_channel k2) with (broadcast_channel k) in Hb.
  change (tasks_counted k2) with (tasks_counted k) in Hc.
  change (module_successes k2) with (module_successes k) in Hs.
  change (module_errors k2) with (module_errors k) in He.
  set (k4 := _broadcast_event k3 "task_failed"
               (EvFailed (task_id task) (module task) msg) now).
  destruct (books_ext k3 k4 (module task) eq_refl) as (Hc4 & Hs4 & He4 & _).
  rewrite Hc4, Hs4, He4, Hc, Hs, He.
  split; [|split; [done|split; [lia|done]]].
  unfold k4, failed_event, _broadcast_event. simpl. by rewrite Hb.
Qed.

(** The [try] block after the module call has returned [r]: either the
    vault update raises and nothing has been announced or counted, or the
    completion is announced and counted as a success. *)
Lemma process_task_store_books (k : VoidKernel) (task : AITask) (r : PyVal)
    (elapsed now : Z) :
  has_metrics k = true →
  let res := _process_task_store k task r elapsed now in
  (res.2 ≠ None
   ∧ broadcast_channel res.1 = broadcast_channel k
   ∧ performance_metrics res.1 = performance_metrics k)
  ∨ (res.2 = None
     ∧ broadcast_channel res.1
       = (broadcast_channel k ++ [completed_event task r now])%list
     ∧ tasks_counted res.1 = tasks_counted k + 1
     ∧ module_successes res.1 (module task)
       = module_successes k (module task) + 1
     ∧ module_errors res.1 (module task) = module_errors k (module task)).
Proof.
  intros Hm. unfold _process_task_store.
  set (k2 := update_task (set_status COMPLETED) (task_id task)
               (update_task (set_result r) (task_id task) k)).
  destruct (update_memory_vault_books k2 task r) as [Hp Hb].
  destruct (_update_memory_vault k2 task r) as [k3 [e|]]; cbn [fst snd] in *.
  - left. by split.
  - right.
    set (k4 := _broadcast_event k3 "task_completed"
                 (EvCompleted (task_id task) (module task) r) now).
    assert (performance_metrics k4 = performance_metrics k) as Hp4 by exact Hp.
    destruct (books_ext k k4 (module task) Hp4) as (Hc & Hs & He & Hh).
    pose proof (update_performance_metrics_counts k4 (module task) elapsed true)
      as H.
    destruct (_update_performance_metrics k4 (module task) elapsed true)
      as [k5 exc].
    cbn [fst snd] in *.
    destruct H as (-> & Hc5 & Hs5 & He5 & Hb5 & _); [by rewrite Hh|].
    split; [done|]. rewrite Hb5, Hc5, Hs5, He5, Hc, Hs, He.
    split; [|split; [done|split; [done|lia]]].
    unfold k4, completed_event, _broadcast_event. simpl. by rewrite Hb.
Qed.

Lemma process_task_finally_books (k : VoidKernel) (task : AITask) (m : string) :
  broadcast_channel (_process_task_finally k task) = broadcast_channel k
  ∧ tasks_counted (_process_task_finally k task) = tasks_counted k
  ∧ module_successes (_process_task_finally k task) m = module_successes k m
  ∧ module_errors (_process_task_finally k task) m = module_errors k m
  ∧ tasks (_process_task_finally k task) = tasks k.
Proof. done. Qed.

(** What the end of a module call that returns or raises an [Exception]
    does to the task, the broadcast channel and the counters. *)
Lemma process_task_resume_books (k : VoidKernel) (task t : AITask)
    (o : Outcome) (elapsed now : Z) :
  o ≠ Escaped →
  has_metrics k = true →
  tasks k !! task_id task = Some t →
  let k' := _process_task_resume k task o elapsed now in
  tasks_counted k' = tasks_counted k + 1
  ∧ ((∃ r, o = Returned r
           ∧ tasks k' !! task_id task
             = Some (set_status COMPLETED (set_result r t))
           ∧ broadcast_channel k'
             = (broadcast_channel k ++ [completed_event task r now])%list
           ∧ module_successes k' (module task)
             = module_successes k (module task) + 1
           ∧ module_errors k' (module task) = module_errors k (module task))
     ∨ (∃ msg t',
           tasks k' !! task_id task = Some (set_error msg (set_status FAILED t'))
           ∧ broadcast_channel k'
             = (broadcast_channel k ++ [failed_event task msg now])%list
           ∧ module_successes k' (module task)
             = module_successes k (module task)
           ∧ module_errors k' (module task)
             = module_errors k (module task) + 1)).
Proof.
  intros Ho Hm Ht k'. unfold k', _process_task_resume.
  destruct o as [r|msg|]; cbn [fst snd]; [| |done].
  - pose proof (process_task_store_books k task r elapsed now Hm) as Hb.
    pose proof (core_process_task_store k task r elapsed now) as Hs.
    destruct (_process_task_store k task r elapsed now) as [k1 exc].
    cbn [fst snd] in *.
    destruct Hb as [(Hexc & Hb & Hp)|(-> & Hb & Hc & Hsu & He)].
    + destruct exc as [msg|]; [|done].
      destruct (books_ext k k1 (module task) Hp) as (Hc1 & Hs1 & He1 & Hh1).
      destruct (process_task_except_books k1 task msg elapsed now)
        as (Hb' & Hc' & Hs' & He'); [by rewrite Hh1|].
      pose proof (core_process_task_except k1 task msg elapsed now) as Hx.
      set (k2 := (_process_task_except k1 task msg elapsed now).1) in *.
      destruct (process_task_finally_books k2 task (module task))
        as (-> & -> & -> & -> & ->).
      rewrite Hb', Hc', Hs', He', Hb, Hc1, Hs1, He1.
      split; [done|]. right.
      exists msg, (set_status COMPLETED (set_result r t)).
      split; [|done]. core_rewrite Hx. core_rewrite Hs.
      by rewrite !lookup_alter_eq, Ht.
    + destruct (process_task_finally_books k1 task (module task))
        as (-> & -> & -> & -> & ->).
      split; [done|]. left. exists r. split; [done|].
      split; [|done]. core_rewrite Hs. by rewrite lookup_alter_eq, Ht.
  - destruct (process_task_except_books k task msg elapsed now Hm)
      as (Hb' & Hc' & Hs' & He').
    pose proof (core_process_task_except k task msg elapsed now) as Hx.
    set (k2 := (_process_task_except k task msg elapsed now).1) in *.
    destruct (process_task_finally_books k2 task (module task))
      as (-> & -> & -> & -> & ->).
    split; [done|]. right. exists msg, t.
    split; [|done]. core_rewrite Hx. by rewrite lookup_alter_eq, Ht.
Qed.

Lemma awaiting_has_metrics (k : VoidKernel) (w : nat) (inv : Invocation) :
  reachable k → worker_tasks k !! w = Some (WAwait inv) → has_metrics k = true.
Proof.
  intros Hk Hw.
  by apply (fi_busy_metrics _ (reachable_flow k Hk) w (WAwait inv)).
Qed.

End Books.

(** X12.  How the end of a module call is counted and announced.  When a
    worker of a reachable kernel is resumed because the module call it awaits
    has returned or raised an [Exception], [tasks_processed] grows by one,
    exactly one event is put on the broadcast channel and the worker is back
    at the head of its loop: either the task is COMPLETED with the returned
    value as its result, the event is [task_completed] and the success count
    of the module grows by one; or the task is FAILED with the message as its
    error, the event is [task_failed] with the same message and the error
    count of the module grows by one.  When the call ends in a
    [BaseException] that is not an [Exception], nothing is counted and nothing
    announced: the task is left as it was, it leaves the active map, and the
    worker loop has ended. *)
Theorem module_call_end_counted_and_announced (k : VoidKernel) (w : nat)
    (inv : Invocation) (o : Outcome) (elapsed now : Z) :
  reachable k →
  worker_tasks k !! w = Some (WAwait inv) →
  let task := inv_task inv in
  let k' := step k (OpModuleDone w o elapsed now) in
  (o ≠ Escaped
   ∧ tasks_counted k' = tasks_counted k + 1
   ∧ worker_tasks k' !! w = Some WIdle
   ∧ ((∃ r t, o = Returned r
              ∧ tasks k' !! task_id task = Some t
              ∧ status t = COMPLETED ∧ result t = r
              ∧ broadcast_channel k'
                = (broadcast_channel k ++ [completed_event task r now])%list
              ∧ module_successes k' (module task)
                = module_successes k (module task) + 1
              ∧ module_errors k' (module task) = module_errors k (module task))
      ∨ (∃ msg t,
              tasks k' !! task_id task = Some t
              ∧ status t = FAILED ∧ error t = Some msg
              ∧ broadcast_channel k'
                = (broadcast_channel k ++ [failed_event task msg now])%list
              ∧ module_successes k' (module task)
                = module_successes k (module task)
              ∧ module_errors k' (module task)
                = module_errors k (module task) + 1)))
  ∨ (o = Escaped
     ∧ performance_metrics k' = performance_metrics k
     ∧ broadcast_channel k' = broadcast_channel k
     ∧ tasks k' = tasks k
     ∧ (task_id task ∉ active_tasks k')
     ∧ worker_tasks k' !! w = Some WExited).
Proof.
  intros Hk Hw task k'.
  destruct (reachable_inv k Hk) as (Hs & _). simpl in Hs.
  destruct (si_flight _ _ _ _ Hs w inv Hw) as (t & Ht & _). fold task in Ht.
  assert (w < length (worker_tasks k))%nat as Hlt
    by (by eapply lookup_lt_Some).
  assert (o = Escaped ∨ o ≠ Escaped) as [->|Ho]
    by (destruct o; [by right|by right|by left]).
  { right. unfold k'. simpl. unfold _worker_resume. rewrite Hw. simpl.
    do 4 (split; [done|]).
    split; [|by apply list_lookup_insert_eq].
    apply not_elem_of_difference. right. by apply elem_of_singleton. }
  left. split; [done|].
  pose proof (process_task_resume_books k task t o elapsed now Ho
                (awaiting_has_metrics k w inv Hk Hw) Ht) as H.
  assert (k' = set_worker w WIdle (_process_task_resume k task o elapsed now))
    as Hk'.
  { unfold k'. simpl. unfold _worker_resume. rewrite Hw. by destruct o. }
  set (k1 := _process_task_resume k task o elapsed now) in *.
  assert (tasks k' = tasks k1 ∧ broadcast_channel k' = broadcast_channel k1
          ∧ performance_metrics k' = performance_metrics k1
          ∧ worker_tasks k' = <[w := WIdle]> (worker_tasks k1))
    as (HT & HB & HP & HW) by (by rewrite Hk').
  assert (worker_tasks k1 = worker_tasks k) as HW1.
  { destruct (core_process_task_resume k task o elapsed now Ho)
      as (f & kc & _ & _ & Hcore).
    exact (f_equal c_workers Hcore). }
  destruct (books_ext k1 k' (module task) HP) as (Hc & Hsu & He & _).
  rewrite Hc, Hsu, He, HT, HB, HW, HW1. cbn zeta in H.
  destruct H as (Hcount & [(r & -> & Htask & Hrest)|(msg & t' & Htask & Hrest)]).
  - split; [done|]. split; [by apply list_lookup_insert_eq|].
    left. exists r, (set_status COMPLETED (set_result r t)).
    by repeat (split; [done|]).
  - split; [done|]. split; [by apply list_lookup_insert_eq|].
    right. exists msg, (set_error msg (set_status FAILED t')).
    by repeat (split; [done|]).
Qed.

(** The module call of ["task-x"] raises: the task is FAILED, one
    [task_failed] event is on the channel and one task has been counted.
    When the call ends in a [BaseException] instead, the task is still
    RUNNING, no event is on the channel and the worker has ended. *)
Lemma module_call_end_counted_and_announced_witness :
  let k := run VoidKernel_new running_scenario in
  let k' := step k (OpModuleDone 0 (Raised "boom") 1 3) in
  let k2 := step k (OpModuleDone 0 Escaped 1 3) in
  worker_tasks k !! 0%nat = Some (WAwait awaited_invocation)
  ∧ tasks_counted k' = tasks_counted k + 1
  ∧ task_status k' "task-x" = Some FAILED
  ∧ broadcast_channel k'
    = [failed_event (inv_task awaited_invocation) "boom" 3]
  ∧ task_status k2 "task-x" = Some RUNNING
  ∧ broadcast_channel k2 = []
  ∧ worker_tasks k2 !! 0%nat = Some WExited.
Proof.
  intros k k' k2.
  assert (reachable k) as Hreach
    by (apply reachable_run; [apply reachable_new | vm_compute; reflexivity]).
  assert (worker_tasks k !! 0%nat = Some (WAwait awaited_invocation)) as Hw
    by (vm_compute; reflexivity).
  assert (task_status k' "task-x" = Some FAILED) as Hst
    by (vm_compute; reflexivity).
  assert (broadcast_channel k'
          = [failed_event (inv_task awaited_invocation) "boom" 3]) as Hb
    by (vm_compute; reflexivity).
  assert (task_status k2 "task-x" = Some RUNNING) as Hst2
    by (vm_compute; reflexivity).
  assert (broadcast_channel k2 = []) as Hb2 by (vm_compute; reflexivity).
  split; [exact Hw|]. split; [|split; [exact Hst|split; [exact Hb|]]].
  - destruct (module_call_end_counted_and_announced k 0 awaited_invocation
                (Raised "boom") 1 3 Hreach Hw)
      as [(_ & Hcount & _)|(Hesc & _)]; [exact Hcount|discriminate Hesc].
  - split; [exact Hst2|]. split; [exact Hb2|].
    destruct (module_call_end_counted_and_announced k 0 awaited_invocation
                Escaped 1 3 Hreach Hw)
      as [(Hne & _)|(_ & _ & _ & _ & _ & Hex)]; [by destruct Hne|exact Hex].
Defined.

(** The turn of an idle worker that finds a ready task of a registered
    module at the head of the queue: the task is RUNNING and active, and the
    worker awaits the module call. *)
Lemma worker_dispatch (k : VoidKernel) (w : nat) (elapsed now : Z)
    (e : QEntry) (q' : list QEntry) (task : AITask) (m : AIModule) :
  worker_tasks k !! w = Some WIdle →
  is_running k = true →
  PriorityQueue_get (task_queue k) = Some (e, q') →
  tasks k !! q_task e = Some task →
  _check_dependencies k task = true →
  ai_modules k !! module task = Some m →
  let kd := set_active_tasks ({[task_id task]} ∪ active_tasks k)
              (update_task (set_status RUNNING) (task_id task)
                 (set_task_queue q' k)) in
  _worker k w elapsed now
  = set_worker w
      (WAwait (mkInvocation task
                 (if bool_decide (action task ∈ mod_attrs m)
                  then CallMethod (action task)
                  else CallProcessRequest (action task))
                 (data task) (_get_task_context kd task)))
      kd.
Proof.
  intros Hw Hrun Hget Htask Hdeps Hmod kd.
  unfold _worker. rewrite Hw, Hrun, Hget. simpl. rewrite Htask.
  rewrite check_dependencies_queue, Hdeps. simpl.
  unfold _process_task_begin. simpl. by rewrite Hmod.
Qed.

(** X13.  Round trip of a task.  On a reachable, running kernel with an
    empty queue, an idle worker and room in the completed map, a task
    submitted without dependencies to a registered module is PENDING after
    the submission, RUNNING and active after the worker's turn, and, once
    the module call has returned a dict, COMPLETED with that result: it has
    left the active map, is a key of the completed map, the worker is idle
    and the queue empty again, and [get_task_status] returns the task as
    submitted, with the status and the result filled in. *)
Theorem submitted_task_round_trip (k : VoidKernel) (mod_name act : string)
    (payload : PyDict) (prio : Priority) (uid pid : option string)
    (tid : string) (created ts : Z) (w : nat) (m : AIModule) (d : PyDict)
    (elapsed now elapsed' now' : Z) :
  reachable k →
  is_running k = true →
  task_queue k = [] →
  worker_tasks k !! w = Some WIdle →
  ai_modules k !! mod_name = Some m →
  tasks k !! tid = None →
  (length (completed_tasks k) < completed_capacity)%nat →
  let k1 := (submit_task k mod_name act payload prio uid pid None tid created
               ts).1 in
  let k2 := _worker k1 w elapsed now in
  let k3 := _worker_resume k2 w (Returned (VDict d)) elapsed' now' in
  let finished :=
    mkAITask tid mod_name act payload prio created uid pid COMPLETED (VDict d)
      None [] [] in
  task_status k1 tid = Some PENDING
  ∧ task_status k2 tid = Some RUNNING
  ∧ tid ∈ active_tasks k2
  ∧ tasks k3 !! tid = Some finished
  ∧ (tid ∉ active_tasks k3)
  ∧ tid ∈ completed_tasks k3
  ∧ worker_tasks k3 !! w = Some WIdle
  ∧ task_queue k3 = []
  ∧ execute_command k3 (task_status_command tid)
    = Ok (k3, [("task", RTask finished)]).
Proof.
  intros Hk Hrun Hq Hw Hmod Hfresh Hlen k1 k2 k3 finished.
  pose proof (reachable_inv k Hk) as (Hs & Hm & Hnd & Hcap & Hst).
  simpl in Hs, Hm, Hnd, Hcap, Hst.
  set (task := mkAITask tid mod_name act payload prio created uid pid PENDING
                 VNone None [] []).
  set (e := mkQEntry (Priority_value prio) ts tid).
  assert (w < length (worker_tasks k))%nat as Hlt by (by eapply lookup_lt_Some).
  assert (tid ∉ active_tasks k) as Hna.
  { intros Hin. destruct (si_active _ _ _ _ Hs tid Hin) as (w' & inv & Hw' & <-).
    destruct (si_flight _ _ _ _ Hs w' inv Hw') as (t & Ht & _). congruence. }
  assert (tid ∉ completed_tasks k) as Hnc.
  { intros Hin. destruct (Hst tid Hin) as [t Ht]. congruence. }
  set (kd := set_active_tasks ({[tid]} ∪ active_tasks k)
               (update_task (set_status RUNNING) tid (set_task_queue [] k1))).
  set (inv := mkInvocation task
                (if bool_decide (act ∈ mod_attrs m)
                 then CallMethod act else CallProcessRequest act)
                payload (_get_task_context kd task)).
  assert (k2 = set_worker w (WAwait inv) kd) as Hk2.
  { apply (worker_dispatch k1 w elapsed now e [] task m); try done.
    - unfold k1. simpl. by rewrite Hq.
    - unfold k1. simpl. by rewrite lookup_insert_eq. }
  assert (tasks kd !! tid = Some (set_status RUNNING task)) as Htd.
  { unfold kd, update_task. cbn [tasks set_active_tasks set_tasks
      set_task_queue k1 submit_task fst].
    by rewrite lookup_alter_eq, lookup_insert_eq. }
  assert (has_metrics kd = true) as Hmd by (by apply Hm).
  assert (k3 = set_worker w WIdle
                 (_process_task_resume k2 task (Returned (VDict d)) elapsed'
                    now')) as Hk3.
  { unfold k3, _worker_resume. rewrite Hk2 at 1.
    cbn [worker_tasks set_worker set_worker_tasks].
    by rewrite list_lookup_insert_eq. }
  pose proof (resume_returned_dict k2 task (set_status RUNNING task) d elapsed'
                now') as Hres.
  destruct (core_process_task_resume k2 task (Returned (VDict d)) elapsed' now'
              ltac:(done))
    as (f & kc & _ & _ & Hcore).
  set (kr := _process_task_resume k2 task (Returned (VDict d)) elapsed' now')
    in *.
  assert (tasks k3 !! tid = Some finished) as Ht3.
  { rewrite Hk3. change (tasks kr !! task_id task = Some finished).
    rewrite Hres; [done| |]; by rewrite Hk2. }
  assert (active_tasks k3 = ({[tid]} ∪ active_tasks k) ∖ {[tid]}) as Ha3.
  { rewrite Hk3. change (active_tasks kr = ({[tid]} ∪ active_tasks k) ∖ {[tid]}).
    core_rewrite Hcore. by rewrite Hk2. }
  assert (completed_tasks k3 = (completed_tasks k ++ [tid])%list) as Hc3.
  { rewrite Hk3. change (completed_tasks kr = (completed_tasks k ++ [tid])%list).
    core_rewrite Hcore. rewrite Hk2.
    cbn [completed_tasks set_worker set_worker_tasks kd set_active_tasks
         update_task set_tasks set_task_queue k1 submit_task fst task_id].
    unfold completed_set. rewrite bool_decide_eq_false_2 by done.
    apply cleanup_completed_small. rewrite length_app. simpl. lia. }
  split; [|split; [|split; [|split; [exact Ht3|split; [|split; [|split; [|split]]]]]]].
  - unfold task_status, k1. simpl. by rewrite lookup_insert_eq.
  - unfold task_status. rewrite Hk2. change (status <$> tasks kd !! tid = Some RUNNING).
    by rewrite Htd.
  - rewrite Hk2. change (tid ∈ {[tid]} ∪ active_tasks k).
    by apply elem_of_union_l, elem_of_singleton.
  - rewrite Ha3. intros [_ Hne]%elem_of_difference. apply Hne.
    by apply elem_of_singleton.
  - rewrite Hc3. apply elem_of_app. right. left.
  - rewrite Hk3. cbn [worker_tasks set_worker set_worker_tasks].
    apply list_lookup_insert_eq.
    change (w < length (worker_tasks kr))%nat. core_rewrite Hcore.
    rewrite Hk2. cbn [worker_tasks set_worker set_worker_tasks].
    by rewrite length_insert.
  - rewrite Hk3. change (task_queue kr = []). core_rewrite Hcore. by rewrite Hk2.
  - unfold execute_command, execute_command_body, task_response. simpl.
    rewrite Ht3. rewrite Ha3, Hc3.
    rewrite bool_decide_eq_false_2.
    + rewrite bool_decide_eq_true_2; [done|]. apply elem_of_app. right. left.
    + intros [_ Hne]%elem_of_difference. apply Hne. by apply elem_of_singleton.
Qed.

(** A task is submitted to the idle kernel of [idle_scenario], dispatched
    and completed with [ok_result]. *)
Lemma submitted_task_round_trip_witness :
  let k := run VoidKernel_new idle_scenario in
  let k1 := (submit_task k "forge" "build" [] NORMAL (Some "user-1") None None
               "task-1" 1 1).1 in
  let k2 := _worker k1 0 0 2 in
  let k3 := _worker_resume k2 0 (Returned ok_result) 1 3 in
  let finished :=
    mkAITask "task-1" "forge" "build" [] NORMAL 1 (Some "user-1") None
      COMPLETED ok_result None [] [] in
  tasks k3 !! "task-1" = Some finished
  ∧ execute_command k3 (task_status_command "task-1")
    = Ok (k3, [("task", RTask finished)]).
Proof.
  intros k k1 k2 k3 finished.
  assert (reachable k) as Hreach
    by (apply reachable_run; [apply reachable_new | vm_compute; reflexivity]).
  assert (is_running k = true) as H1 by (vm_compute; reflexivity).
  assert (task_queue k = []) as H2 by (vm_compute; reflexivity).
  assert (worker_tasks k !! 0%nat = Some WIdle) as H3
    by (vm_compute; reflexivity).
  assert (ai_modules k !! "forge" = Some plain_module) as H4
    by (vm_compute; reflexivity).
  assert (tasks k !! "task-1" = None) as H5 by (vm_compute; reflexivity).
  assert (length (completed_tasks k) < completed_capacity)%nat as H6
    by (apply Nat.ltb_lt; vm_compute; reflexivity).
  destruct (submitted_task_round_trip k "forge" "build" [] NORMAL
              (Some "user-1") None "task-1" 1 1 0 plain_module
              [("type", VStr "build"); ("status", VStr "success")] 0 2 1 3
              Hreach H1 H2 H3 H4 H5 H6)
    as (_ & _ & _ & Ht & _ & _ & _ & _ & Hc).
  split; [exact Ht|exact Hc].
Defined.

Section LifeCycle.

Lemma later_state_refl (t : AITask) : later_state t t.
Proof. by split. Qed.

Lemma later_state_trans (t1 t2 t3 : AITask) :
  later_state t1 t2 → later_state t2 t3 → later_state t1 t3.
Proof. intros [H1 H2] [H3 H4]. split; [congruence|lia]. Qed.

(** A write to the task [x] by [f], when it does not take the task back. *)
Lemma later_state_alter (T : gmap string AITask) (f : AITask → AITask)
    (x tid : string) (t : AITask) :
  keeps_submission f →
  (∀ t0, T !! x = Some t0 →
         (status_rank (status t0) ≤ status_rank (status (f t0)))%nat) →
  T !! tid = Some t →
  ∃ t', alter f x T !! tid = Some t' ∧ later_state t t'.
Proof.
  intros Hf Hrank Ht. destruct (decide (x = tid)) as [->|Hne].
  - exists (f t). rewrite lookup_alter_eq, Ht. split; [done|].
    split; [apply Hf|by apply Hrank].
  - exists t. rewrite lookup_alter_ne by done. split; [done|].
    apply later_state_refl.
Qed.

(** No transition deletes a task, changes a submitted field or takes a
    status back. *)
Lemma core_step_later (c c' : Core) (tid : string) (t : AITask) :
  core_inv c → core_step c c' → c_tasks c !! tid = Some t →
  ∃ t', c_tasks c' !! tid = Some t' ∧ later_state t t'.
Proof.
  intros (Hs & _) Hstep Ht.
  assert (∀ x, in_flight (c_workers c) x →
               ∀ t0, c_tasks c !! x = Some t0 → status_rank (status t0) = 1%nat)
    as Hheld.
  { intros x (w & inv & Hw & <-) t0 Ht0.
    destruct (si_flight _ _ _ _ Hs w inv Hw) as (t1 & Ht1 & Hex).
    rewrite Ht0 in Ht1. injection Ht1 as <-. by destruct Hex as [-> | ->]. }
  assert (∀ w e, c_workers c !! w = Some (WTaken e) →
                 ∀ t0, c_tasks c !! q_task e = Some t0 →
                       status_rank (status t0) = 0%nat) as Hqueued.
  { intros w e He t0 Ht0.
    destruct (si_queue _ _ _ _ Hs e) as (t1 & Ht1 & Hp);
      [by eapply held_in_pool|].
    rewrite Ht0 in Ht1. injection Ht1 as <-. by rewrite Hp. }
  destruct Hstep as
    [c|c|c t0 e Hfresh Hpend He|c n|c w Hw|c w e q' Hw Hget
    |c w e task Hw Htask Hdeps|c w e task inv Hw Htask Hdeps Hinv
    |c w e task f kc Hw Htask Hdeps Hf Hfail
    |c w inv f kc Hw Hf Hfin|c w inv kc Hw|c x Hact
    |c A' C' HA' HCnd HClen HC'];
    simpl in *;
    try (exists t; split; [done|apply later_state_refl]).
  - exists t. split; [|apply later_state_refl].
    rewrite lookup_insert_ne; [done|]. congruence.
  - apply later_state_alter; [done| |done].
    intros t0 Ht0. rewrite (Hqueued w e Hw t0 Ht0). lia.
  - apply later_state_alter; [done| |done].
    intros t0 Ht0. rewrite (Hqueued w e Hw t0 Ht0). lia.
  - apply later_state_alter; [done| |done].
    intros t0 Ht0. rewrite (Hheld (task_id (inv_task inv))); [|by exists w, inv|done].
    destruct (Hfin t0) as [-> | ->]; simpl; lia.
  - apply later_state_alter; [done| |done].
    intros t0 Ht0.
    by rewrite (Hheld x (si_active _ _ _ _ Hs x Hact) t0 Ht0).
Qed.

Lemma run_later (ops : list Op) :
  ∀ k tid t, kernel_inv k → ops_enabled k ops = true →
             tasks k !! tid = Some t →
             ∃ t', tasks (run k ops) !! tid = Some t' ∧ later_state t t'.
Proof.
  induction ops as [|op ops IH]; intros k tid t Hk Hops Ht; simpl in *.
  - exists t. split; [done|apply later_state_refl].
  - apply andb_prop in Hops as [Hop Hops].
    assert (∃ t1, tasks (step k op) !! tid = Some t1 ∧ later_state t t1)
      as (t1 & Ht1 & Hl1).
    { apply (step_keeps (fun c => ∃ t1, c_tasks c !! tid = Some t1
                                        ∧ later_state t t1)); try done.
      - intros c c' Hc (t0 & Ht0 & Hl0) Hstep.
        destruct (core_step_later c c' tid t0 Hc Hstep Ht0) as (t1 & Ht1 & Hl1).
        exists t1. split; [done|]. by apply later_state_trans with t0.
      - exists t. split; [done|apply later_state_refl]. }
    destruct (IH (step k op) tid t1 (step_inv k op Hk Hop) Hops Ht1)
      as (t2 & Ht2 & Hl2).
    exists t2. split; [done|]. by apply later_state_trans with t1.
Qed.

End LifeCycle.

(** X14.  The life cycle of a task goes one way.  A task of a reachable
    kernel is still in the store after any run of operations; the fields
    that [submit_task] filled (identifier, module, action, data, priority,
    creation time, user, project, dependencies, callbacks) are unchanged;
    and its status has not gone back: a task that has left PENDING is never
    PENDING again, and one that is COMPLETED or FAILED is never RUNNING or
    CANCELLED again. *)
Theorem task_status_moves_forward (k : VoidKernel) (ops : list Op)
    (tid : string) (t : AITask) :
  reachable k →
  ops_enabled k ops = true →
  tasks k !! tid = Some t →
  ∃ t', tasks (run k ops) !! tid = Some t'
        ∧ submission t' = submission t
        ∧ (status_rank (status t) ≤ status_rank (status t'))%nat.
Proof.
  intros Hk Hops Ht. by apply run_later; [apply reachable_inv| |].
Qed.

(** The queued task of [pending_scenario] is dispatched and completed: same
    submission, status COMPLETED. *)
Lemma task_status_moves_forward_witness :
  let k := run VoidKernel_new pending_scenario in
  let queued :=
    mkAITask "task-q" "forge" "build" [] NORMAL 1 None None PENDING VNone
      None [] [] in
  tasks k !! "task-q" = Some queued
  ∧ task_status (run k complete_ops) "task-q" = Some COMPLETED
  ∧ ∃ t', tasks (run k complete_ops) !! "task-q" = Some t'
          ∧ submission t' = submission queued
          ∧ (status_rank (status queued) ≤ status_rank (status t'))%nat.
Proof.
  intros k queued.
  assert (reachable k) as Hreach
    by (apply reachable_run; [apply reachable_new | vm_compute; reflexivity]).
  assert (ops_enabled k complete_ops = true) as Hops
    by (vm_compute; reflexivity).
  assert (tasks k !! "task-q" = Some queued) as Ht
    by (vm_compute; reflexivity).
  assert (task_status (run k complete_ops) "task-q" = Some COMPLETED) as Hst
    by (vm_compute; reflexivity).
  split; [exact Ht|]. split; [exact Hst|].
  exact (task_status_moves_forward k complete_ops "task-q" queued Hreach Hops
           Ht).
Defined.
